(** * Delegatecall Surface Scanner: a shallow embedding of the analysis core

    The development follows the TypeScript sources of the backend:
    - [opcodes.ts]          the opcode table and [decodeBytecode];
    - [cfg.ts]              [buildCFG] and [getBlockContaining];
    - [stackTracer.ts]      the tracer's [applyInstructionToStack],
                            [simulateBlock], [joinStates], [traceStackAtPC];
    - [delegateScanner.ts]  [analyzeBytecode], the linear transfer function
                            and [classifyRisk];
    - [targetClassifier.ts] [classifyTarget];
    - [proxyPatterns.ts]    [detectProxyPatterns] and its helpers.

    Conventions.  JavaScript strings are modelled by [string] (sequences of
    8-bit characters, the Latin-1 range of code units).  JavaScript numbers
    that occur in the analysis are integers or NaN; they are modelled by
    [JsNumber].  Program counters, stack arities and indices are in [Z]
    (the source computes [length - 1] and [length - 2], which go negative).
    A [Map] iterated in insertion order is an association list; a [Set]
    that is only queried with [has] and [size], or sorted right away, is a
    [gset]; a [Map] that is only read and written by key is a [gmap].
    Loops that the source leaves unbounded take a [fuel] argument and
    return [None] when it runs out; the properties show that it does
    not. *)

From Stdlib Require Import Ascii.
From stdpp Require Import prelude strings pretty gmap sorting.

Set Warnings "-register-all".

Open Scope Z_scope.

(** ** JavaScript strings *)

Module Js.

(** [s.startsWith(p)] *)
Definition startsWith (s p : string) : bool := String.prefix p s.

(** [s.slice(n)] for a non-negative [n]. *)
Fixpoint sliceFrom (n : nat) (s : string) : string :=
  match n, s with
  | O, _ => s
  | S n', String _ s' => sliceFrom n' s'
  | S _, EmptyString => EmptyString
  end.

(** [s.slice(0, n)] for a non-negative [n]. *)
Fixpoint sliceTo (n : nat) (s : string) : string :=
  match n, s with
  | S n', String c s' => String c (sliceTo n' s')
  | _, _ => EmptyString
  end.

(** [s.slice(i, j)] for [0 <= i <= j]. *)
Definition slice (i j : nat) (s : string) : string :=
  sliceTo (j - i) (sliceFrom i s).

Definition code (c : ascii) : Z := Z.of_nat (nat_of_ascii c).

Definition inRange (lo hi : Z) (c : ascii) : bool :=
  (lo <=? code c) && (code c <=? hi).

(** [toLowerCase] on Latin-1 code units: A-Z and the accented capitals
    (0xC0-0xDE except the multiplication sign 0xD7) move up by 0x20.
    Strings here are sequences of code units below 256, on which
    JavaScript's [toLowerCase] works unit by unit; above 255 it can
    change the length of a string (U+0130), and no statement below is
    meant for such strings unless it says so. *)
Definition lowerChar (c : ascii) : ascii :=
  if inRange 65 90 c || (inRange 192 222 c && negb (code c =? 215))
  then ascii_of_nat (nat_of_ascii c + 32)
  else c.

Fixpoint toLowerCase (s : string) : string :=
  match s with
  | EmptyString => EmptyString
  | String c s' => String (lowerChar c) (toLowerCase s')
  end.

(** [s.padStart(2, "0")] *)
Definition padStart2 (s : string) : string :=
  match s with
  | EmptyString => "00"
  | String c EmptyString => String "0" (String c EmptyString)
  | _ => s
  end.

(** [s.indexOf(needle, from)] on the suffix of [s] that starts at [from]:
    [indexOfAt needle s from] scans [s] (already cut at [from]) and
    reports absolute positions.  [None] is the source's [-1]. *)
Fixpoint indexOfAt (needle s : string) (pos : nat) : option nat :=
  if String.prefix needle s then Some pos
  else match s with
       | EmptyString => None
       | String _ s' => indexOfAt needle s' (S pos)
       end.

Definition indexOf (s needle : string) (from : nat) : option nat :=
  if decide (from ≤ String.length s)%nat
  then indexOfAt needle (sliceFrom from s) from
  else indexOfAt needle EmptyString (String.length s).

End Js.

(** ** JavaScript numbers: the integers and NaN *)

Inductive JsNumber : Type :=
  | JsNaN
  | JsInt (z : Z).

Global Instance JsNumber_eq_dec : EqDecision JsNumber.
Proof. solve_decision. Defined.

Module Num.

(** White space skipped by [parseInt] (StrWhiteSpaceChar, Latin-1 part):
    TAB, LF, VT, FF, CR, SP, NBSP. *)
Definition isWhiteSpace (c : ascii) : bool :=
  Js.inRange 9 13 c || (Js.code c =? 32) || (Js.code c =? 160).

Fixpoint trimStart (s : string) : string :=
  match s with
  | String c s' => if isWhiteSpace c then trimStart s' else s
  | EmptyString => EmptyString
  end.

(** Value of a digit in radix up to 36. *)
Definition digitValue (c : ascii) : option Z :=
  if Js.inRange 48 57 c then Some (Js.code c - 48)
  else if Js.inRange 97 122 c then Some (Js.code c - 87)
  else if Js.inRange 65 90 c then Some (Js.code c - 55)
  else None.

(** The longest prefix of radix-[radix] digits, as a number; [None] when
    that prefix is empty. *)
Fixpoint parseDigits (radix : Z) (s : string) (acc : option Z) : option Z :=
  match s with
  | EmptyString => acc
  | String c s' =>
      match digitValue c with
      | Some d =>
          if d <? radix
          then parseDigits radix s' (Some (default 0 acc * radix + d))
          else acc
      | None => acc
      end
  end.

(** [parseInt(s, radix)] for radix 10 or 16: skip white space, read a
    sign, for radix 16 skip a [0x]/[0X] prefix, read the longest run of
    digits.  (Results beyond 2^53 would be rounded by JavaScript; the
    analysis never parses more than two hex digits or a mnemonic's
    suffix.) *)
Definition parseInt (s : string) (radix : Z) : JsNumber :=
  let s1 := trimStart s in
  let '(sign, s2) :=
    match s1 with
    | String "-" r => (-1, r)
    | String "+" r => (1, r)
    | _ => (1, s1)
    end in
  let s3 :=
    if (radix =? 16) && (Js.startsWith s2 "0x" || Js.startsWith s2 "0X")
    then Js.sliceFrom 2 s2 else s2 in
  match parseDigits radix s3 None with
  | None => JsNaN
  | Some v => JsInt (sign * v)
  end.

Definition hexDigit (d : Z) : ascii :=
  if d <? 10 then ascii_of_nat (Z.to_nat (48 + d))
  else ascii_of_nat (Z.to_nat (87 + d)).

(** Lower-case hexadecimal digits of a non-negative integer. *)
Fixpoint hexOfNat (fuel : nat) (z : Z) (acc : string) : string :=
  match fuel with
  | O => acc
  | S fuel' =>
      let acc' := String (hexDigit (z mod 16)) acc in
      if z <? 16 then acc' else hexOfNat fuel' (z / 16) acc'
  end.

(** [n.toString(16)] *)
Definition toString16 (n : JsNumber) : string :=
  match n with
  | JsNaN => "NaN"
  | JsInt z =>
      if z <? 0
      then String "-" (hexOfNat (S (Z.to_nat (Z.log2 (- z)))) (- z) EmptyString)
      else hexOfNat (S (Z.to_nat (Z.log2 z))) z EmptyString
  end.

End Num.

(** ** types/analysis.ts *)

Inductive RiskLevel := low | medium | high | unknownRisk.

Inductive EnvSource := CALLER | ADDRESS | ORIGIN.

Inductive StackExpression : Type :=
  | Literal (value : string)
  | Storage (slotExpr : StackExpression)
  | Calldata (offsetExpr : StackExpression)
  | Environment (source : EnvSource)
  | Op (op : string) (args : list StackExpression)
  | Unknown.

Record Opcode := mkOpcode {
  pc : Z;
  op : string;
  pushData : option string;
  stackIn : Z;
  stackOut : Z
}.

Inductive TargetType := hardcoded | storage | calldata | dynamic | unknown.

Record TargetClassification := mkClassification {
  type : TargetType;
  addressLiteral : option string;
  storageSlotLiteral : option string;
  details : option string
}.

Record ProxyPatternMatch := mkPattern {
  name : string;
  description : string
}.

Record DelegatecallSite := mkSite {
  site_id : string;
  site_pc : Z;
  blockId : string;
  targetExpression : StackExpression;
  classification : TargetClassification;
  patternMatch : option ProxyPatternMatch
}.

Global Instance RiskLevel_eq_dec : EqDecision RiskLevel.
Proof. solve_decision. Defined.
Global Instance TargetType_eq_dec : EqDecision TargetType.
Proof. solve_decision. Defined.
Global Instance EnvSource_eq_dec : EqDecision EnvSource.
Proof. solve_decision. Defined.

(** ** opcodes.ts *)

Record OpcodeInfo := mkInfo {
  info_name : string;
  info_in : Z;
  info_out : Z;
  pushBytes : option Z
}.

(** [addOpcode(byte, name, stackIn, stackOut, pushBytes?)] *)
Definition addOpcode (byte : Z) (name : string) (stackIn stackOut : Z)
    (pushBytes : option Z) (table : gmap Z OpcodeInfo) : gmap Z OpcodeInfo :=
  <[byte := mkInfo name stackIn stackOut pushBytes]> table.

(** [for (let i = 0; i < n; i += 1) body(i)] threading the table. *)
Definition forRange (n : nat) (body : Z → gmap Z OpcodeInfo → gmap Z OpcodeInfo)
    (table : gmap Z OpcodeInfo) : gmap Z OpcodeInfo :=
  foldl (λ t i, body (Z.of_nat i) t) table (seq 0 n).

(** The template literals [`PUSH${i + 1}`] and the like. *)
Definition numbered (prefix : string) (n : Z) : string := prefix +:+ pretty n.

Definition OPCODES : gmap Z OpcodeInfo :=
  let t := ∅ in
  let t := forRange 32 (λ i, addOpcode (0x60 + i) (numbered "PUSH" (i + 1)) 0 1 (Some (i + 1))) t in
  let t := forRange 16 (λ i, addOpcode (0x80 + i) (numbered "DUP" (i + 1)) (i + 1) (i + 2) None) t in
  let t := forRange 16 (λ i, addOpcode (0x90 + i) (numbered "SWAP" (i + 1)) (i + 2) (i + 2) None) t in
  let t := addOpcode 0x00 "STOP" 0 0 None t in
  let t := addOpcode 0x01 "ADD" 2 1 None t in
  let t := addOpcode 0x02 "MUL" 2 1 None t in
  let t := addOpcode 0x03 "SUB" 2 1 None t in
  let t := addOpcode 0x10 "LT" 2 1 None t in
  let t := addOpcode 0x11 "GT" 2 1 None t in
  let t := addOpcode 0x14 "EQ" 2 1 None t in
  let t := addOpcode 0x15 "ISZERO" 1 1 None t in
  let t := addOpcode 0x33 "CALLER" 0 1 None t in
  let t := addOpcode 0x34 "CALLVALUE" 0 1 None t in
  let t := addOpcode 0x35 "CALLDATALOAD" 1 1 None t in
  let t := addOpcode 0x36 "CALLDATASIZE" 0 1 None t in
  let t := addOpcode 0x37 "CALLDATACOPY" 3 0 None t in
  let t := addOpcode 0x3d "RETURNDATASIZE" 0 1 None t in
  let t := addOpcode 0x3e "RETURNDATACOPY" 3 0 None t in
  let t := addOpcode 0x51 "MLOAD" 1 1 None t in
  let t := addOpcode 0x52 "MSTORE" 2 0 None t in
  let t := addOpcode 0x53 "MSTORE8" 2 0 None t in
  let t := addOpcode 0x54 "SLOAD" 1 1 None t in
  let t := addOpcode 0x55 "SSTORE" 2 0 None t in
  let t := addOpcode 0x56 "JUMP" 1 0 None t in
  let t := addOpcode 0x57 "JUMPI" 2 0 None t in
  let t := addOpcode 0x5b "JUMPDEST" 0 0 None t in
  let t := addOpcode 0xf1 "CALL" 7 1 None t in
  let t := addOpcode 0xf2 "CALLCODE" 7 1 None t in
  let t := addOpcode 0xf4 "DELEGATECALL" 6 1 None t in
  let t := addOpcode 0xfa "STATICCALL" 6 1 None t in
  let t := addOpcode 0xfd "REVERT" 2 0 None t in
  let t := addOpcode 0xff "SELFDESTRUCT" 1 0 None t in
  t.

Global Arguments OPCODES : simpl never.

(** [OPCODES[byte]]: the property key of NaN is ["NaN"], which the table
    does not have. *)
Definition lookupOpcode (byte : JsNumber) : option OpcodeInfo :=
  match byte with
  | JsNaN => None
  | JsInt z => OPCODES !! z
  end.

(** The byte vector: [parseInt(clean.slice(i, i + 2), 16)] for
    [i = 0, 2, 4, ...] while [i < clean.length]. *)
Fixpoint parseBytes (clean : string) : list JsNumber :=
  match clean with
  | EmptyString => []
  | String c EmptyString => [Num.parseInt (String c EmptyString) 16]
  | String c1 (String c2 rest) =>
      Num.parseInt (String c1 (String c2 EmptyString)) 16 :: parseBytes rest
  end.

(** [bytecode.startsWith("0x") ? bytecode.slice(2) : bytecode] *)
Definition stripPrefix (bytecode : string) : string :=
  if Js.startsWith bytecode "0x" then Js.sliceFrom 2 bytecode else bytecode.

(** [`0x${b.toString(16).padStart(2, "0")}`] for one byte, and the
    concatenation over a slice. *)
Definition hexByte (b : JsNumber) : string := Js.padStart2 (Num.toString16 b).

Definition hexJoin (bs : list JsNumber) : string :=
  foldr (λ b acc, hexByte b +:+ acc) EmptyString bs.

(** [bytes.slice(start, end)] for [0 <= start <= end]. *)
Definition sliceBytes (bytes : list JsNumber) (start finish : Z) : list JsNumber :=
  take (Z.to_nat (finish - start)) (drop (Z.to_nat start) bytes).

(** One turn of the [while (pc < bytes.length)] loop: the instruction
    pushed and the next value of [pc]. *)
Definition decodeStep (bytes : list JsNumber) (pc : Z) : Opcode * Z :=
  let byte := default (JsInt 0) (bytes !! Z.to_nat pc) in
  match lookupOpcode byte with
  | None =>
      (mkOpcode pc ("0x" +:+ hexByte byte) None 0 0, pc + 1)
  | Some info =>
      let '(pushData, pc') :=
        match pushBytes info with
        | Some n =>
            if 0 <? n
            then (Some ("0x" +:+ hexJoin (sliceBytes bytes (pc + 1) (pc + 1 + n))),
                  pc + 1 + n)
            else (None, pc + 1)
        | None => (None, pc + 1)
        end in
      (mkOpcode pc' (info_name info) pushData (info_in info) (info_out info), pc')
  end.

(** The loop itself; [None] only when [fuel] turns are not enough. *)
Fixpoint decodeLoop (fuel : nat) (bytes : list JsNumber) (pc : Z) : option (list Opcode) :=
  if pc <? Z.of_nat (length bytes) then
    match fuel with
    | O => None
    | S fuel' =>
        let '(instr, pc') := decodeStep bytes pc in
        cons instr <$> decodeLoop fuel' bytes pc'
    end
  else Some [].

Definition decodeBytes (bytes : list JsNumber) : option (list Opcode) :=
  decodeLoop (length bytes) bytes 0.

Definition decodeBytecode (bytecode : string) : option (list Opcode) :=
  decodeBytes (parseBytes (stripPrefix bytecode)).

Example decode_S3 :
  decodeBytecode "0x600035f4" =
  Some [mkOpcode 2 "PUSH1" (Some "0x00") 0 1;
        mkOpcode 3 "CALLDATALOAD" None 1 1;
        mkOpcode 4 "DELEGATECALL" None 6 1].
Proof. vm_compute. reflexivity. Qed.

(** ** cfg.ts

    Addresses are JavaScript numbers.  They are integers here, which is
    exact as long as they are safe integers (below 2^53, where
    [next - 1] and the decimal text of a number are exact), as every pc
    of a disassembly is. *)

Record BasicBlock := mkBlock {
  block_id : string;
  startPc : Z;
  endPc : Z;
  instructions : list Opcode;
  successors : list Z;
  predecessors : list Z
}.

(** [blocks] is the [Map<number, BasicBlock>] as its entries in insertion
    order; every block is stored under its own [startPc]. *)
Record ControlFlowGraph := mkCFG {
  blocks : list BasicBlock;
  entryBlock : option BasicBlock
}.

Definition TERMINATORS : gset string :=
  {[ "STOP"; "RETURN"; "REVERT"; "SELFDESTRUCT"; "JUMP"; "JUMPI" ]}.

Definition isTerminator (op : string) : bool := bool_decide (op ∈ TERMINATORS).

(** [blocks.get(pc)] *)
Definition mapGet (key : Z) (blocks : list BasicBlock) : option BasicBlock :=
  find (λ b, bool_decide (startPc b = key)) blocks.

(** [blocks.set(startPc, block)]: an existing key keeps its place. *)
Fixpoint mapSet (block : BasicBlock) (blocks : list BasicBlock) : list BasicBlock :=
  match blocks with
  | [] => [block]
  | b :: rest =>
      if bool_decide (startPc b = startPc block) then block :: rest
      else b :: mapSet block rest
  end.

(** A mutation of the block object stored under [key]. *)
Definition updateBlock (key : Z) (f : BasicBlock → BasicBlock)
    (blocks : list BasicBlock) : list BasicBlock :=
  map (λ b, if bool_decide (startPc b = key) then f b else b) blocks.

Definition pushSuccessor (s : Z) (b : BasicBlock) : BasicBlock :=
  mkBlock (block_id b) (startPc b) (endPc b) (instructions b)
          (successors b ++ [s]) (predecessors b).

Definition pushPredecessor (p : Z) (b : BasicBlock) : BasicBlock :=
  mkBlock (block_id b) (startPc b) (endPc b) (instructions b)
          (successors b) (predecessors b ++ [p]).

Definition inBlock (b : BasicBlock) (pc : Z) : bool :=
  (startPc b <=? pc) && (pc <=? endPc b).

Definition getBlockContaining (blocks : list BasicBlock) (pc : Z) : option BasicBlock :=
  find (λ b, inBlock b pc) blocks.

Definition findBlockContaining := getBlockContaining.

(** First pass: the leaders.  [instructions[i + 1]?.pc] is the head of
    the remaining instructions. *)
Fixpoint findLeaders (instrs : list Opcode) (leaders : gset Z) : gset Z :=
  match instrs with
  | [] => leaders
  | instr :: rest =>
      let leaders :=
        if bool_decide (op instr = "JUMPDEST") then {[ pc instr ]} ∪ leaders
        else leaders in
      let leaders :=
        if isTerminator (op instr) then
          match rest with
          | next :: _ => {[ pc next ]} ∪ leaders
          | [] => leaders
          end
        else leaders in
      findLeaders rest leaders
  end.

(** [Array.from(leaders).sort((a, b) => a - b)] *)
Definition sortLeaders (leaders : gset Z) : list Z :=
  merge_sort Z.le (elements leaders).

(** Second pass: one block per leader. *)
Fixpoint formBlocks (instrs : list Opcode) (sortedLeaders : list Z)
    (blocks : list BasicBlock) : list BasicBlock :=
  match sortedLeaders with
  | [] => blocks
  | startPc :: rest =>
      let endPc :=
        match rest with
        | next :: _ => next - 1
        | [] => Z.of_nat (length instrs) - 1
        end in
      let blockInstrs :=
        filter (λ instr, startPc ≤ pc instr ∧ pc instr ≤ endPc) instrs in
      let block :=
        mkBlock ("block-" +:+ pretty startPc) startPc endPc blockInstrs [] [] in
      formBlocks instrs rest (mapSet block blocks)
  end.

(** The edge added for one block in the third pass. *)
Definition linkNext (instrs : list Opcode) (block : BasicBlock) (lastInstr : Opcode)
    (blocks : list BasicBlock) : list BasicBlock :=
  match find (λ instr, bool_decide (pc lastInstr < pc instr)) instrs with
  | None => blocks
  | Some nextInstr =>
      match findBlockContaining blocks (pc nextInstr) with
      | None => blocks
      | Some nextBlock =>
          updateBlock (startPc nextBlock) (pushPredecessor (startPc block))
            (updateBlock (startPc block) (pushSuccessor (startPc nextBlock)) blocks)
      end
  end.

Definition connectBlock (instrs : list Opcode) (blocks : list BasicBlock)
    (key : Z) : list BasicBlock :=
  match mapGet key blocks with
  | None => blocks
  | Some block =>
      match last (instructions block) with
      | None => blocks
      | Some lastInstr =>
          if bool_decide (op lastInstr = "JUMP") then blocks
          else if bool_decide (op lastInstr = "JUMPI") then
            linkNext instrs block lastInstr blocks
          else if negb (isTerminator (op lastInstr)) then
            linkNext instrs block lastInstr blocks
          else blocks
      end
  end.

(** Third pass: [for (const block of blocks.values())]. *)
Definition connectBlocks (instrs : list Opcode) (blocks : list BasicBlock)
    : list BasicBlock :=
  foldl (connectBlock instrs) blocks (map startPc blocks).

Definition buildCFG (instrs : list Opcode) : ControlFlowGraph :=
  let leaders := findLeaders instrs {[ 0 ]} in
  let sortedLeaders := sortLeaders leaders in
  let blocks := formBlocks instrs sortedLeaders [] in
  let blocks := connectBlocks instrs blocks in
  mkCFG blocks (mapGet 0 blocks).

(** ** The symbolic stack

    A stack is the source's array: the top of the stack is the LAST
    element of the list. *)

Definition Stack := list StackExpression.

(** [stack.pop() ?? { kind: "Unknown" }] and the array left behind. *)
Definition pop1 (stack : Stack) : StackExpression * Stack :=
  (default Unknown (last stack), removelast stack).

(** The closure [pop(n)]: [n] pops, each result put in front of the
    earlier ones ([res.unshift]). *)
Fixpoint pop (n : nat) (stack : Stack) : list StackExpression * Stack :=
  match n with
  | O => ([], stack)
  | S n' =>
      let '(x, stack1) := pop1 stack in
      let '(res, stack2) := pop n' stack1 in
      (res ++ [x], stack2)
  end.

(** [stack.push(idx >= 0 ? stack[idx] : Unknown)] with
    [idx = stack.length - n].  For the mnemonics of the table [n] is
    1..16, so [idx < stack.length] whenever [idx >= 0]. *)
Definition dupAt (n : JsNumber) (stack : Stack) : Stack :=
  match n with
  | JsNaN => stack ++ [Unknown]
  | JsInt n =>
      let idx := Z.of_nat (length stack) - n in
      stack ++ [if 0 <=? idx then default Unknown (stack !! Z.to_nat idx) else Unknown]
  end.

(** The exchange of [stack[top]] and [stack[other]] under the guard
    [top >= 0 && other >= 0]. *)
Definition swapAt (n : JsNumber) (stack : Stack) : Stack :=
  match n with
  | JsNaN => stack
  | JsInt n =>
      let top := Z.of_nat (length stack) - 1 in
      let other := Z.of_nat (length stack) - 1 - n in
      if (0 <=? top) && (0 <=? other) then
        match stack !! Z.to_nat top, stack !! Z.to_nat other with
        | Some tmp, Some o =>
            <[Z.to_nat other := tmp]> (<[Z.to_nat top := o]> stack)
        | _, _ => stack
        end
      else stack
  end.

Definition binaryOps : list string :=
  ["ADD"; "SUB"; "MUL"; "DIV"; "AND"; "OR"; "XOR"; "EQ"; "LT"; "GT"].

(** ** stackTracer.ts *)

Module Tracer.

(** [getOpcodeInfo]: the table [known] of (stackIn, stackOut). *)
Definition known : gmap string (Z * Z) :=
  list_to_map
    [("STOP", (0, 0)); ("ADD", (2, 1)); ("MUL", (2, 1)); ("SUB", (2, 1));
     ("DIV", (2, 1)); ("MOD", (2, 1)); ("AND", (2, 1)); ("OR", (2, 1));
     ("XOR", (2, 1)); ("EQ", (2, 1)); ("LT", (2, 1)); ("GT", (2, 1));
     ("ISZERO", (1, 1)); ("CALLDATALOAD", (1, 1)); ("CALLDATASIZE", (0, 1));
     ("SLOAD", (1, 1)); ("SSTORE", (2, 0)); ("JUMP", (1, 0)); ("JUMPI", (2, 0));
     ("DELEGATECALL", (6, 1)); ("CALL", (7, 1)); ("STATICCALL", (6, 1))].

Definition getOpcodeInfo (op : string) : option (Z * Z) := known !! op.

Definition applyInstructionToStack (op : string) (pushData : option string)
    (stack : Stack) : Stack :=
  if Js.startsWith op "PUSH" then
    stack ++ [Literal (default "0x" pushData)]
  else if Js.startsWith op "DUP" then
    dupAt (Num.parseInt (Js.sliceFrom 3 op) 10) stack
  else if Js.startsWith op "SWAP" then
    swapAt (Num.parseInt (Js.sliceFrom 4 op) 10) stack
  else if bool_decide (op = "CALLDATALOAD") then
    let '(offsetExpr, stack) := pop1 stack in stack ++ [Calldata offsetExpr]
  else if bool_decide (op = "SLOAD") then
    let '(slotExpr, stack) := pop1 stack in stack ++ [Storage slotExpr]
  else if bool_decide (op = "CALLER") then stack ++ [Environment CALLER]
  else if bool_decide (op = "ADDRESS") then stack ++ [Environment ADDRESS]
  else if bool_decide (op = "ORIGIN") then stack ++ [Environment ORIGIN]
  else if bool_decide (op = "MLOAD") then
    (pop 1 stack).2 ++ [Unknown]
  else if bool_decide (op = "MSTORE") || bool_decide (op = "MSTORE8") then
    (pop 2 stack).2
  else if bool_decide (op ∈ binaryOps ++ ["MOD"; "ISZERO"]) then
    let '(args, stack) := pop (if bool_decide (op = "ISZERO") then 1 else 2) stack in
    stack ++ [Op op args]
  else if bool_decide (op = "POP") then
    (pop 1 stack).2
  else
    match getOpcodeInfo op with
    | Some (stackIn, stackOut) =>
        (pop (Z.to_nat stackIn) stack).2 ++ replicate (Z.to_nat stackOut) Unknown
    | None => stack
    end.

End Tracer.

Record BlockState := mkState {
  stack : Stack;
  memory : gmap Z StackExpression
}.

Definition emptyState : BlockState := mkState [] ∅.

Definition simulateBlock (block : BasicBlock) (initialState : BlockState) : BlockState :=
  mkState
    (foldl (λ stack instr, Tracer.applyInstructionToStack (op instr) (pushData instr) stack)
           (stack initialState) (instructions block))
    (memory initialState).

(** ** JSON.stringify on expressions

    [joinStates] and the change test of the worklist compare the JSON
    serialisations of expressions.  Strings are quoted as QuoteJSONString
    does; an object lists its keys in the order of the object literal
    that created it. *)

Module Json.

Definition dq : ascii := "034"%char.

(** One code unit inside a JSON string (QuoteJSONString). *)
Definition escapeChar (c : ascii) : string :=
  let n := Js.code c in
  if n =? 8 then "\b"
  else if n =? 9 then "\t"
  else if n =? 10 then "\n"
  else if n =? 12 then "\f"
  else if n =? 13 then "\r"
  else if n =? 34 then String "\" (String dq EmptyString)
  else if n =? 92 then "\\"
  else if n <? 32 then
    "\u00" +:+ String (Num.hexDigit (n / 16)) (String (Num.hexDigit (n mod 16)) EmptyString)
  else String c EmptyString.

Fixpoint escape (s : string) : string :=
  match s with
  | EmptyString => EmptyString
  | String c s' => escapeChar c +:+ escape s'
  end.

(** [JSON.stringify(s)] for a string [s]. *)
Definition quote (s : string) : string :=
  String dq (escape s +:+ String dq EmptyString).

(** [{"kind":<kind>] and the members that follow it. *)
Definition object (kind : string) (members : string) : string :=
  "{" +:+ quote "kind" +:+ ":" +:+ quote kind +:+ members +:+ "}".

Definition member (key value : string) : string :=
  "," +:+ quote key +:+ ":" +:+ value.

Definition sourceName (source : EnvSource) : string :=
  match source with
  | CALLER => "CALLER"
  | ADDRESS => "ADDRESS"
  | ORIGIN => "ORIGIN"
  end.

(** [JSON.stringify(expr)]: the keys come in the order in which the
    object literals of the transfer functions list them. *)
Fixpoint stringify (e : StackExpression) : string :=
  match e with
  | Literal value => object "Literal" (member "value" (quote value))
  | Storage slotExpr => object "Storage" (member "slotExpr" (stringify slotExpr))
  | Calldata offsetExpr => object "Calldata" (member "offsetExpr" (stringify offsetExpr))
  | Environment source => object "Environment" (member "source" (quote (sourceName source)))
  | Op op args =>
      object "Op"
        (member "op" (quote op) +:+
         member "args"
           ("[" +:+
            match args with
            | [] => EmptyString
            | x :: rest =>
                stringify x +:+
                (fix more (l : list StackExpression) : string :=
                   match l with
                   | [] => EmptyString
                   | y :: l' => "," +:+ stringify y +:+ more l'
                   end) rest
            end +:+ "]"))
  | Unknown => object "Unknown" EmptyString
  end.

Fixpoint more (l : list StackExpression) : string :=
  match l with
  | [] => EmptyString
  | y :: l' => "," +:+ stringify y +:+ more l'
  end.

Definition elements (l : list StackExpression) : string :=
  match l with
  | [] => EmptyString
  | x :: rest => stringify x +:+ more rest
  end.

(** [JSON.stringify(stack)] for an array of expressions. *)
Definition stringifyStack (l : list StackExpression) : string :=
  "[" +:+ elements l +:+ "]".

End Json.

(** [JSON.stringify(e1) === JSON.stringify(e2)] *)
Definition sameJson (e1 e2 : StackExpression) : bool :=
  bool_decide (Json.stringify e1 = Json.stringify e2).

(** [JSON.stringify(stack1) === JSON.stringify(stack2)] *)
Definition sameJsonStack (l1 l2 : Stack) : bool :=
  bool_decide (Json.stringifyStack l1 = Json.stringifyStack l2).

(** The element-wise loop of [joinStates] over [i < state1.stack.length];
    it runs only when both stacks have the same length. *)
Fixpoint joinStacks (stack1 stack2 : Stack) : Stack :=
  match stack1, stack2 with
  | expr1 :: r1, expr2 :: r2 =>
      (if sameJson expr1 expr2 then expr1 else Unknown) :: joinStacks r1 r2
  | expr1 :: r1, [] => Unknown :: joinStacks r1 []
  | [], _ => []
  end.

Definition joinStates (state1 state2 : BlockState) : BlockState :=
  if bool_decide (length (stack state1) ≠ length (stack state2)) then
    mkState (map (λ _, Unknown) (stack state1)) ∅
  else
    mkState (joinStacks (stack state1) (stack state2)) ∅.

(** [for (const succPc of block.successors) if (!worklist.includes(succPc))
    worklist.push(succPc)] *)
Definition pushSuccessors (worklist successors : list Z) : list Z :=
  foldl (λ w succPc, if bool_decide (succPc ∈ w) then w else w ++ [succPc])
        worklist successors.

Definition blockInput (block : BasicBlock) (blockPc : Z)
    (states : gmap Z BlockState) : BlockState :=
  match predecessors block with
  | [] => default emptyState (states !! blockPc)
  | _ =>
      let predStates := omap (λ predPc, states !! predPc) (predecessors block) in
      match predStates with
      | [] => emptyState
      | first :: _ => foldl joinStates first predStates
      end
  end.

(** The [while (worklist.length > 0)] loop; [None] only when [fuel]
    turns are not enough. *)
Fixpoint worklistLoop (fuel : nat) (cfg : ControlFlowGraph) (worklist : list Z)
    (states : gmap Z BlockState) : option (gmap Z BlockState) :=
  match worklist with
  | [] => Some states
  | blockPc :: worklist =>
      match fuel with
      | O => None
      | S fuel' =>
          match mapGet blockPc (blocks cfg) with
          | None => worklistLoop fuel' cfg worklist states
          | Some block =>
              let initialState := blockInput block blockPc states in
              let finalState := simulateBlock block initialState in
              let changed :=
                match states !! blockPc with
                | None => true
                | Some oldState => negb (sameJsonStack (stack oldState) (stack finalState))
                end in
              if changed then
                worklistLoop fuel' cfg (pushSuccessors worklist (successors block))
                             (<[blockPc := finalState]> states)
              else worklistLoop fuel' cfg worklist states
          end
      end
  end.

(** The closing replay: apply the instructions of the target block that
    come before the first one at [targetPc]. *)
Fixpoint replayUntil (targetPc : Z) (instrs : list Opcode) (stack : Stack) : Stack :=
  match instrs with
  | [] => stack
  | instr :: rest =>
      if bool_decide (pc instr = targetPc) then stack
      else replayUntil targetPc rest
             (Tracer.applyInstructionToStack (op instr) (pushData instr) stack)
  end.

Definition traceStackAtPC (fuel : nat) (cfg : ControlFlowGraph) (targetPc : Z)
    : option Stack :=
  match getBlockContaining (blocks cfg) targetPc with
  | None => Some []
  | Some targetBlock =>
      let states : gmap Z BlockState :=
        match entryBlock cfg with
        | Some entry => {[ startPc entry := emptyState ]}
        | None => ∅
        end in
      states ← worklistLoop fuel cfg [startPc targetBlock] states;
      match find (λ instr, bool_decide (pc instr = targetPc)) (instructions targetBlock) with
      | None => Some []
      | Some _ =>
          match states !! startPc targetBlock with
          | None => Some []
          | Some blockState =>
              Some (replayUntil targetPc (instructions targetBlock) (stack blockState))
          end
      end
  end.

(** ** targetClassifier.ts *)

Definition EIP1967_SLOT : string :=
  Js.toLowerCase "0x360894a13ba1a3210667c828492db98dca3e2076cc3735a920a3ca505d382bbc".

Definition normalize (v : string) : string :=
  let clean := if Js.startsWith v "0x" then Js.sliceFrom 2 v else v in
  "0x" +:+ clean.

Definition extractStorageSlotLiteral (slotExpr : StackExpression) : option string :=
  match slotExpr with
  | Literal value => Some (normalize value)
  | _ => None
  end.

Definition classifyTarget (expr : StackExpression) : TargetClassification :=
  match expr with
  | Literal value =>
      let v := normalize value in
      if bool_decide (String.length v = 40%nat) || bool_decide (String.length v = 42%nat)
      then mkClassification hardcoded (Some v) None None
      else mkClassification unknown None None (Some ("literal(" +:+ v +:+ ")"))
  | Storage slotExpr =>
      match extractStorageSlotLiteral slotExpr with
      | Some slot =>
          if bool_decide (slot ≠ EmptyString) then   (* [if (slot)] *)
            mkClassification storage None (Some slot)
              (if bool_decide (Js.toLowerCase slot = EIP1967_SLOT)
               then Some "EIP-1967 implementation slot" else None)
          else mkClassification storage None None (Some "non-literal storage slot")
      | None => mkClassification storage None None (Some "non-literal storage slot")
      end
  | Calldata _ => mkClassification calldata None None (Some "derived from CALLDATALOAD")
  | Op op _ => mkClassification dynamic None None (Some ("op(" +:+ op +:+ ")"))
  | _ => mkClassification unknown None None None
  end.

(** ** proxyPatterns.ts *)

Definition EIP1167_PREFIX : string := "363d3d373d3d3d363d73".
Definition EIP1167_SUFFIX : string := "5af43d82803e903d91602b57fd5bf3".

Definition EIP1967_IMPL_SLOT : string :=
  Js.toLowerCase "0x360894a13ba1a3210667c828492db98dca3e2076cc3735a920a3ca505d382bbc".

Definition UUPS_SLOT : string :=
  Js.toLowerCase "0xc5f16f0fcc639fa48a6947836d9850f504798523bf8c9a3a87d5876cf622bcf7".

Definition detectEip1167 (cleanBytecode : string) : bool :=
  let lower := Js.toLowerCase cleanBytecode in
  match Js.indexOf lower EIP1167_PREFIX 0 with
  | None => false
  | Some idx =>
      match Js.indexOf lower EIP1167_SUFFIX (idx + String.length EIP1167_PREFIX + 40) with
      | None => false
      | Some _ => true
      end
  end.

Definition detectDiamondPattern (sites : list DelegatecallSite) : bool :=
  if bool_decide (length sites < 2)%nat then false
  else
    let storageSites :=
      filter (λ s, type (classification s) = storage) sites in
    if bool_decide (length storageSites < 2)%nat then false
    else
      let uniqueSlots : gset string :=
        list_to_set (omap (λ s, storageSlotLiteral (classification s)) storageSites) in
      bool_decide (2 ≤ size uniqueSlots)%nat.

Definition withPattern (site : DelegatecallSite) (p : option ProxyPatternMatch)
    : DelegatecallSite :=
  mkSite (site_id site) (site_pc site) (blockId site) (targetExpression site)
         (classification site) p.

Definition detectProxyPatterns (bytecode : string) (sites : list DelegatecallSite)
    : list DelegatecallSite :=
  let clean := stripPrefix bytecode in
  let isEip1167 := detectEip1167 clean in
  let storageSlots : gset string :=
    list_to_set
      (omap (λ s, Js.toLowerCase <$> storageSlotLiteral (classification s)) sites) in
  let isDiamond := detectDiamondPattern sites in
  map (λ site,
         withPattern site
           (if isEip1167 then
              Some (mkPattern "EIP-1167" "Minimal proxy clone pattern")
            else if bool_decide (Js.toLowerCase <$> storageSlotLiteral (classification site)
                                 = Some EIP1967_IMPL_SLOT) then
              let hasUUPS := bool_decide (UUPS_SLOT ∈ storageSlots) in
              Some (mkPattern (if hasUUPS then "UUPS" else "EIP-1967")
                              (if hasUUPS then "UUPS upgradeable proxy pattern"
                               else "EIP-1967 transparent proxy implementation slot"))
            else if isDiamond then
              Some (mkPattern "Diamond" "EIP-2535 Diamond pattern (multiple facets)")
            else None))
      sites.

Record ProxyPatternSummary := mkSummary {
  summary_name : string;
  count : Z
}.

(** [counts[name] = (counts[name] ?? 0) + 1] on the plain object
    [counts], as the list of its entries in insertion order.  That is
    what a plain object does for names that are neither integer-like
    nor properties of [Object.prototype], such as the four names that
    [detectProxyPatterns] assigns; for other names ([__proto__],
    [constructor], ["12"]) the object behaves differently and the list
    does not describe it. *)
Fixpoint bump (name : string) (counts : list ProxyPatternSummary)
    : list ProxyPatternSummary :=
  match counts with
  | [] => [mkSummary name 1]
  | c :: rest =>
      if bool_decide (summary_name c = name)
      then mkSummary name (count c + 1) :: rest
      else c :: bump name rest
  end.

Definition summarizeProxyPatterns (sites : list DelegatecallSite)
    : list ProxyPatternSummary :=
  foldl (λ counts site,
           match patternMatch site with
           | None => counts
           | Some p => bump (name p) counts
           end) [] sites.

(** ** delegateScanner.ts *)

Module Linear.

Definition applyInstructionToStack (op : string) (pushData : option string)
    (stack : Stack) : Stack :=
  if Js.startsWith op "PUSH" then
    stack ++ [Literal (default "0x" pushData)]
  else if Js.startsWith op "DUP" then
    dupAt (Num.parseInt (Js.sliceFrom 3 op) 10) stack
  else if Js.startsWith op "SWAP" then
    swapAt (Num.parseInt (Js.sliceFrom 4 op) 10) stack
  else if bool_decide (op = "CALLDATALOAD") then
    let '(offsetExpr, stack) := pop1 stack in stack ++ [Calldata offsetExpr]
  else if bool_decide (op = "SLOAD") then
    let '(slotExpr, stack) := pop1 stack in stack ++ [Storage slotExpr]
  else if bool_decide (op = "CALLER") then stack ++ [Environment CALLER]
  else if bool_decide (op = "ADDRESS") then stack ++ [Environment ADDRESS]
  else if bool_decide (op = "ORIGIN") then stack ++ [Environment ORIGIN]
  else if bool_decide (op ∈ binaryOps) then
    let '(args, stack) := pop 2 stack in stack ++ [Op op args]
  else
    (* [stack.length = Math.max(0, stack.length - 1)] *)
    take (Z.to_nat (Z.max 0 (Z.of_nat (length stack) - 1))) stack.

End Linear.

Definition classifyRisk (classification : TargetClassification)
    (pattern : option ProxyPatternMatch) : RiskLevel :=
  match type classification with
  | hardcoded =>
      match pattern with
      | Some p => if bool_decide (name p = "EIP-1167") then medium else low
      | None => low
      end
  | storage => medium
  | calldata => high
  | dynamic => high
  | unknown => unknownRisk
  end.

Record ScanOptions := mkOptions {
  opt_contractAddress : option string;
  opt_network : option string;
  useCFG : option bool
}.

Record ReportSite := mkReportSite {
  rs_id : string;
  rs_pc : Z;
  rs_classification : TargetClassification;
  rs_pattern : option ProxyPatternMatch;
  risk : RiskLevel;
  notes : list string
}.

(** The report without [bytecodeHash] (node's crypto) and [graph]
    (graphGenerator.ts), which no property below reads. *)
Record DelegatecallSurfaceReport := mkReport {
  contractAddress : option string;
  network : option string;
  delegatecallCount : Z;
  overallRisk : option RiskLevel;
  sites : list ReportSite;
  proxiesDetected : list ProxyPatternSummary
}.

(** [stack.length - 2 >= 0 ? stack[idx] : Unknown], classified. *)
Definition makeSite (instr : Opcode) (blockId : string) (stack : Stack)
    : DelegatecallSite :=
  let idx := Z.of_nat (length stack) - 2 in
  let targetExpr :=
    if 0 <=? idx then default Unknown (stack !! Z.to_nat idx) else Unknown in
  mkSite ("site-" +:+ pretty (pc instr)) (pc instr) blockId targetExpr
         (classifyTarget targetExpr) None.

(** The loop of the CFG mode over the instructions. *)
Fixpoint cfgSites (fuel : nat) (cfg : ControlFlowGraph) (instrs : list Opcode)
    : option (list DelegatecallSite) :=
  match instrs with
  | [] => Some []
  | instr :: rest =>
      if bool_decide (op instr = "DELEGATECALL") then
        stack ← traceStackAtPC fuel cfg (pc instr);
        let blockId :=
          match getBlockContaining (blocks cfg) (pc instr) with
          | Some block => block_id block
          | None => "block-" +:+ pretty (pc instr)
          end in
        rest' ← cfgSites fuel cfg rest;
        Some (makeSite instr blockId stack :: rest')
      else cfgSites fuel cfg rest
  end.

(** The loop of the linear mode: the instruction is applied first, the
    stack is read afterwards. *)
Fixpoint linearSites (instrs : list Opcode) (stack : Stack) : list DelegatecallSite :=
  match instrs with
  | [] => []
  | instr :: rest =>
      let stack := Linear.applyInstructionToStack (op instr) (pushData instr) stack in
      if bool_decide (op instr = "DELEGATECALL")
      then makeSite instr "linear" stack :: linearSites rest stack
      else linearSites rest stack
  end.

(** [order.indexOf(r)] for [order = ["low", "medium", "high", "unknown"]] *)
Definition orderIndex (r : RiskLevel) : Z :=
  match r with
  | low => 0
  | medium => 1
  | high => 2
  | unknownRisk => 3
  end.

Definition reduceRisk (risks : list RiskLevel) : RiskLevel :=
  foldl (λ acc r, if orderIndex acc <? orderIndex r then r else acc) low risks.

Definition buildReport (opts : ScanOptions) (bytecode : string)
    (sites : list DelegatecallSite) : DelegatecallSurfaceReport :=
  let enrichedSites := detectProxyPatterns bytecode sites in
  let reportSites :=
    map (λ s, mkReportSite (site_id s) (site_pc s) (classification s) (patternMatch s)
                (classifyRisk (classification s) (patternMatch s)) [])
        enrichedSites in
  let overallRisk :=
    if bool_decide (0 < length reportSites)%nat
    then Some (reduceRisk (map risk reportSites))
    else None in
  mkReport (opt_contractAddress opts) (opt_network opts)
           (Z.of_nat (length sites)) overallRisk reportSites
           (summarizeProxyPatterns enrichedSites).

(** [analyzeBytecode]; [None] only when the fuel given to a loop is not
    enough. *)
Definition analyzeBytecode (fuel : nat) (bytecode : string) (opts : ScanOptions)
    : option DelegatecallSurfaceReport :=
  instrs ← decodeBytecode bytecode;
  sites ←
    (if bool_decide (useCFG opts ≠ Some false) then
       cfgSites fuel (buildCFG instrs) instrs
     else Some (linearSites instrs []));
  Some (buildReport opts bytecode sites).

Definition defaultOptions : ScanOptions := mkOptions None None None.
Definition linearOptions : ScanOptions := mkOptions None None (Some false).
Definition cfgOptions : ScanOptions := mkOptions None None (Some true).

(** ** graphGenerator.ts *)

Inductive NodeKind : Type :=
  | contractKind
  | implementationKind
  | facetKind
  | unknownKind.

(** The three shapes of [metadata] that the generator builds. *)
Inductive NodeMetadata : Type :=
  | ContractMetadata (address : option string)
  | UnknownMetadata (siteId : string) (targetType : TargetType)
  | ImplementationMetadata (address : string) (siteIds : list string)
                           (siteRisk : RiskLevel).

Record GraphNode := mkNode {
  node_id : string;
  node_label : string;
  node_kind : NodeKind;
  node_metadata : NodeMetadata
}.

Record GraphEdge := mkEdge {
  edge_id : string;
  edge_from : string;
  edge_to : string;
  edge_label : string;
  edge_siteId : string;
  edge_risk : RiskLevel
}.

Record GraphOutput := mkGraph {
  nodes : list GraphNode;
  edges : list GraphEdge
}.

(** The truthiness test [s ? ... : ...] on an optional string:
    [undefined] and the empty string fail it. *)
Definition truthy (s : option string) : option string :=
  match s with
  | Some s => if bool_decide (s = EmptyString) then None else Some s
  | None => None
  end.

Definition classifySiteRisk (site : DelegatecallSite) : RiskLevel :=
  let pattern := name <$> patternMatch site in
  match type (classification site) with
  | hardcoded => if bool_decide (pattern = Some "EIP-1167") then medium else low
  | storage =>
      if bool_decide (pattern = Some "Diamond") then medium
      else match truthy pattern with
           | Some _ => medium
           | None => medium
           end
  | calldata => high
  | dynamic => high
  | unknown => unknownRisk
  end.

(** The values of [implAddresses]; the map itself is the list of its
    entries in insertion order. *)
Record ImplEntry := mkImpl {
  impl_address : string;
  impl_risk : RiskLevel;
  impl_siteIds : list string
}.

(** [implAddresses.has(implId)] *)
Definition implHas (implId : string) (impls : list (string * ImplEntry)) : bool :=
  bool_decide (implId ∈ map fst impls).

(** [implAddresses.get(implId)?.siteIds.push(siteId)] *)
Definition implPush (implId siteId : string) (impls : list (string * ImplEntry))
    : list (string * ImplEntry) :=
  map (λ e, if bool_decide (e.1 = implId)
            then (e.1, mkImpl (impl_address e.2) (impl_risk e.2)
                              (impl_siteIds e.2 ++ [siteId]))
            else e) impls.

(** The entry is created on the first site that reaches [implId]; every
    site adds its id. *)
Definition recordSite (implId address : string) (site : DelegatecallSite)
    (impls : list (string * ImplEntry)) : list (string * ImplEntry) :=
  let impls :=
    if implHas implId impls then impls
    else impls ++ [(implId, mkImpl address (classifySiteRisk site) [])] in
  implPush implId (site_id site) impls.

(** [`${s.slice(0, 10)}...`] *)
Definition abbreviate (s : string) : string := Js.sliceTo 10 s +:+ "...".

Record GraphState := mkGraphState {
  g_nodes : list GraphNode;
  g_edges : list GraphEdge;
  g_impls : list (string * ImplEntry)
}.

(** One turn of [for (const site of sites)]. *)
Definition graphSite (contractId : string) (st : GraphState) (site : DelegatecallSite)
    : GraphState :=
  match truthy (addressLiteral (classification site)) with
  | Some targetAddr =>
      let implId := "impl:" +:+ targetAddr in
      mkGraphState (g_nodes st)
        (g_edges st ++
           [mkEdge ("edge-" +:+ site_id site) contractId implId
                   (match patternMatch site with
                    | Some p => name p
                    | None => "DELEGATECALL"
                    end)
                   (site_id site) (classifySiteRisk site)])
        (recordSite implId targetAddr site (g_impls st))
  | None =>
      match truthy (storageSlotLiteral (classification site)) with
      | Some storageSlot =>
          let implId := "storage:" +:+ storageSlot in
          let patternLabel :=
            match patternMatch site with
            | Some p => name p
            | None => "Storage Proxy"
            end in
          mkGraphState (g_nodes st)
            (g_edges st ++
               [mkEdge ("edge-" +:+ site_id site) contractId implId
                       (patternLabel +:+ " (slot: " +:+ Js.sliceTo 10 storageSlot +:+ "...)")
                       (site_id site) (classifySiteRisk site)])
            (recordSite implId storageSlot site (g_impls st))
      | None =>
          let implId := "unknown:" +:+ site_id site in
          mkGraphState
            (g_nodes st ++
               [mkNode implId "Unknown Target" unknownKind
                       (UnknownMetadata (site_id site) (type (classification site)))])
            (g_edges st ++
               [mkEdge ("edge-" +:+ site_id site) contractId implId
                       "DELEGATECALL (dynamic)" (site_id site) (classifySiteRisk site)])
            (g_impls st)
      end
  end.

(** The node of one entry of [implAddresses]. *)
Definition implNode (e : string * ImplEntry) : GraphNode :=
  let isStorage := Js.startsWith e.1 "storage:" in
  let isFacet := bool_decide (1 < length (impl_siteIds e.2))%nat in
  mkNode e.1
    (if isStorage
     then "Storage Slot" +:+ String "010"%char (abbreviate (impl_address e.2))
     else abbreviate (impl_address e.2))
    (if isFacet then facetKind else implementationKind)
    (ImplementationMetadata (impl_address e.2) (impl_siteIds e.2) (impl_risk e.2)).

Definition generateGraph (contractAddress : option string)
    (sites : list DelegatecallSite) : GraphOutput :=
  let contractId :=
    match truthy contractAddress with
    | Some a => "contract:" +:+ a
    | None => "contract:unknown"
    end in
  let contractNode :=
    mkNode contractId
      (match truthy contractAddress with
       | Some a => abbreviate a
       | None => "Contract"
       end)
      contractKind (ContractMetadata contractAddress) in
  let st := foldl (graphSite contractId) (mkGraphState [contractNode] [] []) sites in
  mkGraph (g_nodes st ++ map implNode (g_impls st)) (g_edges st).

(** The [graph] field of the report of [analyzeBytecode], which is
    computed from the sites that [buildReport] lists. *)
Definition reportGraph (opts : ScanOptions) (bytecode : string)
    (sites : list DelegatecallSite) : GraphOutput :=
  generateGraph (opt_contractAddress opts) (detectProxyPatterns bytecode sites).

(** * Properties *)

(** ** The opcode table *)

Lemma OPCODES_entries :
  map_Forall (λ z info,
    (info_name info = "DELEGATECALL" ↔ z = 0xf4) ∧
    pushBytes info =
      (if bool_decide (0x60 ≤ z ≤ 0x7f) then Some (z - 0x5f) else None) ∧
    (bool_decide (0x60 ≤ z ≤ 0x7f) → info_name info = numbered "PUSH" (z - 0x5f)))
  OPCODES.
Proof. apply (bool_decide_unpack _). vm_compute. reflexivity. Qed.

Lemma OPCODES_has_push_and_delegatecall :
  Forall (λ z, is_Some (OPCODES !! z)) (0xf4 :: seqZ 0x60 32).
Proof. apply (bool_decide_unpack _). vm_compute. reflexivity. Qed.

Lemma OPCODES_push z :
  0x60 ≤ z ≤ 0x7f →
  ∃ info, OPCODES !! z = Some info ∧ pushBytes info = Some (z - 0x5f) ∧
          info_name info = numbered "PUSH" (z - 0x5f) ∧
          info_name info ≠ "DELEGATECALL".
Proof.
  intros Hz.
  assert (is_Some (OPCODES !! z)) as [info Hinfo].
  { pose proof OPCODES_has_push_and_delegatecall as H.
    rewrite Forall_forall in H. apply H. right. apply elem_of_seqZ. lia. }
  destruct (OPCODES_entries z info Hinfo) as (Hdc & Hpush & Hname).
  exists info. rewrite bool_decide_eq_true_2 in Hpush by done.
  repeat split; try done.
  - apply Hname. by apply bool_decide_pack.
  - intros Heq. apply Hdc in Heq. lia.
Qed.

Lemma OPCODES_other z info :
  OPCODES !! z = Some info → ¬ (0x60 ≤ z ≤ 0x7f) →
  pushBytes info = None ∧ (info_name info = "DELEGATECALL" ↔ z = 0xf4).
Proof.
  intros Hinfo Hz.
  destruct (OPCODES_entries z info Hinfo) as (Hdc & Hpush & _).
  by rewrite bool_decide_eq_false_2 in Hpush.
Qed.

Lemma OPCODES_delegatecall : is_Some (OPCODES !! 0xf4).
Proof.
  pose proof OPCODES_has_push_and_delegatecall as H.
  rewrite Forall_forall in H. apply H. by left.
Qed.

(** ** The disassembler *)

Lemma decodeStep_advance bytes p instr p' :
  decodeStep bytes p = (instr, p') → p < p' ∧ p ≤ pc instr ≤ p'.
Proof.
  unfold decodeStep.
  destruct (lookupOpcode _) as [info|]; [|intros [= <- <-]; simpl; lia].
  destruct (pushBytes info) as [n|]; [destruct (Z.ltb_spec 0 n)|];
    intros [= <- <-]; simpl; lia.
Qed.

(** The loop needs at most one turn per byte that is left. *)
Lemma decodeLoop_total fuel bytes p :
  (Z.to_nat (Z.of_nat (length bytes) - p) ≤ fuel)%nat →
  is_Some (decodeLoop fuel bytes p).
Proof.
  revert p. induction fuel as [|fuel IH]; intros p Hfuel; simpl.
  - destruct (Z.ltb_spec p (Z.of_nat (length bytes))); [lia|done].
  - destruct (Z.ltb_spec p (Z.of_nat (length bytes))); [|done].
    destruct (decodeStep bytes p) as [instr p'] eqn:Hstep.
    apply decodeStep_advance in Hstep as [Hlt _].
    destruct (IH p') as [rest ->]; [lia|]. by eexists.
Qed.

Lemma decodeBytes_total bytes : is_Some (decodeBytes bytes).
Proof. apply decodeLoop_total. lia. Qed.

Lemma decodeBytecode_total bytecode : is_Some (decodeBytecode bytecode).
Proof. apply decodeBytes_total. Qed.

Definition pcLe (a b : Opcode) : Prop := pc a ≤ pc b.

(** The emitted program counters never decrease (they may repeat). *)
Lemma decodeLoop_sorted fuel bytes p instrs :
  decodeLoop fuel bytes p = Some instrs →
  Forall (λ i, p ≤ pc i) instrs ∧ StronglySorted pcLe instrs.
Proof.
  revert p instrs. induction fuel as [|fuel IH]; intros p instrs; simpl.
  - destruct (_ <? _); [done|]. intros [= <-]. split; constructor.
  - destruct (_ <? _); [|intros [= <-]; split; constructor].
    destruct (decodeStep bytes p) as [instr p'] eqn:Hstep.
    apply decodeStep_advance in Hstep as [Hlt Hpc].
    destruct (decodeLoop fuel bytes p') as [rest|] eqn:Hrest; [|done].
    intros [= <-]. destruct (IH _ _ Hrest) as [Hge Hsorted].
    split.
    + constructor; [lia|]. eapply Forall_impl; [exact Hge|]. simpl. lia.
    + constructor; [done|]. eapply Forall_impl; [exact Hge|].
      unfold pcLe. simpl. lia.
Qed.

Lemma decodeBytecode_sorted bytecode instrs :
  decodeBytecode bytecode = Some instrs → StronglySorted pcLe instrs.
Proof. intros H. by apply decodeLoop_sorted in H as [_ ?]. Qed.

(** ** The control-flow graph: every edge leads forward *)

Section ForwardEdges.

Variable instrs : list Opcode.
Hypothesis instrs_sorted : StronglySorted pcLe instrs.

(** Blocks in map order: start addresses increase, and a block ends
    before any later block starts. *)
Definition blockLt (b1 b2 : BasicBlock) : Prop :=
  startPc b1 < startPc b2 ∧ endPc b1 < startPc b2.

Definition ownsRange (b : BasicBlock) : Prop :=
  instructions b = filter (λ i, startPc b ≤ pc i ∧ pc i ≤ endPc b) instrs.

Definition forwardSucc (keys : list Z) (b : BasicBlock) : Prop :=
  successors b = [] ∨
  ∃ s, successors b = [s] ∧ startPc b < s ∧ s ∈ keys.

(** The state of the third pass once the blocks stored under
    [processed] have been visited. *)
Record passInv (keys processed : list Z) (bs : list BasicBlock) : Prop := {
  inv_keys : map startPc bs = keys;
  inv_sorted : StronglySorted blockLt bs;
  inv_owns : Forall ownsRange bs;
  inv_succ : Forall (λ b, forwardSucc keys b ∧
                          (startPc b ∉ processed → successors b = [])) bs
}.

Lemma mapSet_fresh block bs :
  Forall (λ b, startPc b ≠ startPc block) bs → mapSet block bs = bs ++ [block].
Proof.
  induction 1 as [|b bs Hb _ IH]; simpl; [done|].
  rewrite bool_decide_eq_false_2 by done. by rewrite IH.
Qed.

(** What the second pass builds, block by block. *)
Fixpoint blocksOf (sortedLeaders : list Z) : list BasicBlock :=
  match sortedLeaders with
  | [] => []
  | startPc :: rest =>
      let endPc :=
        match rest with
        | next :: _ => next - 1
        | [] => Z.of_nat (length instrs) - 1
        end in
      mkBlock ("block-" +:+ pretty startPc) startPc endPc
              (filter (λ instr, startPc ≤ pc instr ∧ pc instr ≤ endPc) instrs) [] []
      :: blocksOf rest
  end.

Lemma blocksOf_keys ls : map startPc (blocksOf ls) = ls.
Proof. induction ls as [|l ls IH]; simpl; [done|]. by rewrite IH. Qed.

Lemma formBlocks_blocksOf ls acc :
  NoDup (map startPc acc ++ ls) →
  formBlocks instrs ls acc = acc ++ blocksOf ls.
Proof.
  revert acc. induction ls as [|l ls IH]; intros acc Hnd; simpl.
  - by rewrite app_nil_r.
  - rewrite mapSet_fresh.
    + rewrite IH; [by rewrite <- app_assoc|].
      rewrite map_app. simpl. by rewrite <- app_assoc.
    + apply Forall_forall. intros b Hb. simpl. intros Heq.
      apply NoDup_app in Hnd as (_ & Hdisj & _).
      apply (Hdisj l); [|by left].
      rewrite <- Heq. apply list_elem_of_fmap. by exists b.
Qed.

Lemma blocksOf_sorted ls :
  StronglySorted Z.lt ls → StronglySorted blockLt (blocksOf ls).
Proof.
  induction 1 as [|l ls Hs IH Hl]; simpl; constructor; [done|].
  apply Forall_forall. intros b Hb.
  assert (startPc b ∈ ls) as Hin.
  { rewrite <- (blocksOf_keys ls). apply list_elem_of_fmap. by exists b. }
  rewrite Forall_forall in Hl. split; simpl; [by apply Hl|].
  destruct ls as [|next ls']; [by apply elem_of_nil in Hin|].
  apply elem_of_cons in Hin as [->|Hin]; [lia|].
  apply StronglySorted_inv in Hs as [_ Hnext].
  rewrite Forall_forall in Hnext. specialize (Hnext _ Hin). lia.
Qed.

Lemma blocksOf_owns ls : Forall ownsRange (blocksOf ls).
Proof. induction ls as [|l ls IH]; simpl; constructor; done. Qed.

Lemma blocksOf_no_succ ls : Forall (λ b, successors b = []) (blocksOf ls).
Proof. induction ls as [|l ls IH]; simpl; constructor; done. Qed.

Lemma sorted_lt_of_le (l : list Z) :
  StronglySorted Z.le l → NoDup l → StronglySorted Z.lt l.
Proof.
  induction 1 as [|x l Hs IH Hx]; intros Hnd; constructor.
  - apply IH. by apply NoDup_cons in Hnd as [_ ?].
  - apply NoDup_cons in Hnd as [Hnotin _].
    apply Forall_forall. intros y Hy. rewrite Forall_forall in Hx.
    specialize (Hx _ Hy). assert (x ≠ y) by (intros ->; done). lia.
Qed.

Lemma sortLeaders_sorted leaders : StronglySorted Z.lt (sortLeaders leaders).
Proof.
  unfold sortLeaders. apply sorted_lt_of_le.
  - apply (StronglySorted_merge_sort Z.le).
  - rewrite merge_sort_Permutation. apply NoDup_elements.
Qed.

Lemma passInv_start leaders :
  let bs := formBlocks instrs (sortLeaders leaders) [] in
  passInv (map startPc bs) [] bs.
Proof.
  pose proof (sortLeaders_sorted leaders) as Hs.
  simpl. rewrite formBlocks_blocksOf; simpl.
  - split.
    + done.
    + by apply blocksOf_sorted.
    + apply blocksOf_owns.
    + eapply Forall_impl; [apply blocksOf_no_succ|].
      intros b Hb. split; [by left|done].
  - clear -Hs. induction Hs as [|x l _ IH Hx]; constructor; [|done].
    intros Hin. rewrite Forall_forall in Hx. specialize (Hx _ Hin). lia.
Qed.

Lemma passInv_weaken keys processed k bs :
  passInv keys processed bs → passInv keys (k :: processed) bs.
Proof.
  intros [Hk Hs Ho Hsucc]. split; try done.
  eapply Forall_impl; [exact Hsucc|]. intros b [Hf Hn]. split; [done|].
  intros Hnotin. apply Hn. intros Hin. apply Hnotin. by right.
Qed.

Lemma sorted_last_max (l : list Opcode) x :
  StronglySorted pcLe l → last l = Some x → ∀ y, y ∈ l → pc y ≤ pc x.
Proof.
  intros Hs Hlast y Hy. apply last_Some in Hlast as [l' ->].
  apply elem_of_app in Hy as [Hy|Hy].
  - induction l' as [|a l' IH]; [by apply elem_of_nil in Hy|].
    simpl in Hs. apply StronglySorted_inv in Hs as [Hs Ha].
    apply elem_of_cons in Hy as [->|Hy]; [|by apply IH].
    rewrite Forall_forall in Ha. apply Ha. apply elem_of_app. right. by left.
  - apply list_elem_of_singleton in Hy as ->. lia.
Qed.

Lemma sorted_filter (P : Opcode → Prop) `{!∀ x, Decision (P x)} (l : list Opcode) :
  StronglySorted pcLe l → StronglySorted pcLe (filter P l).
Proof.
  induction 1 as [|a l Hs IH Ha]; [constructor|].
  rewrite filter_cons. case_decide; [|done].
  constructor; [done|]. apply Forall_forall. intros y Hy.
  apply list_elem_of_filter in Hy as [_ Hy].
  rewrite Forall_forall in Ha. by apply Ha.
Qed.

Lemma sorted_trichotomy (bs : list BasicBlock) x y :
  StronglySorted blockLt bs → x ∈ bs → y ∈ bs →
  x = y ∨ blockLt x y ∨ blockLt y x.
Proof.
  induction 1 as [|a bs Hs IH Ha]; intros Hx Hy; [by apply elem_of_nil in Hx|].
  rewrite Forall_forall in Ha.
  apply elem_of_cons in Hx as [->|Hx]; apply elem_of_cons in Hy as [->|Hy]; auto.
Qed.

Lemma mapGet_Some key bs b :
  mapGet key bs = Some b → b ∈ bs ∧ startPc b = key.
Proof.
  intros H. apply find_some in H as [Hin Hkey].
  split; [by apply list_elem_of_In|]. by apply bool_decide_eq_true in Hkey.
Qed.

Lemma getBlockContaining_Some bs p b :
  getBlockContaining bs p = Some b → b ∈ bs ∧ startPc b ≤ p ≤ endPc b.
Proof.
  intros H. apply find_some in H as [Hin Hr].
  split; [by apply list_elem_of_In|].
  unfold inBlock in Hr. apply andb_true_iff in Hr as [?%Z.leb_le ?%Z.leb_le]. lia.
Qed.

(** The successor chosen for a block starts after the block does. *)
Lemma next_block_forward keys processed bs block lastInstr nextInstr nextBlock :
  passInv keys processed bs →
  block ∈ bs →
  last (instructions block) = Some lastInstr →
  find (λ instr, bool_decide (pc lastInstr < pc instr)) instrs = Some nextInstr →
  findBlockContaining bs (pc nextInstr) = Some nextBlock →
  startPc block < startPc nextBlock ∧ startPc nextBlock ∈ keys.
Proof.
  intros [Hk Hs Ho _] Hblock Hlast Hnext Hfind.
  apply find_some in Hnext as [Hin Hlt].
  apply bool_decide_eq_true in Hlt. apply list_elem_of_In in Hin.
  apply getBlockContaining_Some in Hfind as [Hnb Hrange].
  split; [|rewrite <- Hk; apply list_elem_of_fmap; by exists nextBlock].
  rewrite Forall_forall in Ho.
  pose proof (Ho _ Hblock) as Hown. unfold ownsRange in Hown.
  assert (lastInstr ∈ instructions block) as Hl.
  { apply last_Some in Hlast as [l' ->]. apply elem_of_app. right. by left. }
  rewrite Hown in Hl. apply list_elem_of_filter in Hl as [[Hlo Hhi] _].
  destruct (sorted_trichotomy bs block nextBlock Hs Hblock Hnb) as [<-|[[? ?]|[? ?]]].
  - assert (nextInstr ∈ instructions block) as Hn.
    { rewrite Hown. apply list_elem_of_filter. split; [lia|done]. }
    assert (pc nextInstr ≤ pc lastInstr); [|lia].
    eapply sorted_last_max; [|exact Hlast|exact Hn].
    rewrite Hown. by apply sorted_filter.
  - done.
  - lia.
Qed.

Lemma updateBlock_inv keys processed bs key f :
  (∀ b, startPc (f b) = startPc b ∧ endPc (f b) = endPc b ∧
        instructions (f b) = instructions b ∧ successors (f b) = successors b) →
  passInv keys processed bs → passInv keys processed (updateBlock key f bs).
Proof.
  intros Hf [Hk Hs Ho Hsucc]. unfold updateBlock.
  assert (∀ b, let b' := if bool_decide (startPc b = key) then f b else b in
               startPc b' = startPc b ∧ endPc b' = endPc b ∧
               instructions b' = instructions b ∧ successors b' = successors b) as Hg.
  { intros b. simpl. case_bool_decide; [apply Hf|done]. }
  simpl in Hg. split.
  - rewrite <- Hk. rewrite <- list_fmap_compose. apply list_fmap_ext.
    intros i b _. simpl. apply Hg.
  - eapply (StronglySorted_fmap _ blockLt blockLt); [|exact Hs].
    intros x y [? ?]. unfold blockLt.
    destruct (Hg x) as (-> & -> & _). destruct (Hg y) as (-> & _). done.
  - apply Forall_fmap. eapply Forall_impl; [exact Ho|].
    intros b Hb. unfold ownsRange in *. simpl.
    destruct (Hg b) as (-> & -> & -> & _). done.
  - apply Forall_fmap. eapply Forall_impl; [exact Hsucc|].
    intros b Hb. unfold forwardSucc in *. simpl.
    destruct (Hg b) as (-> & _ & _ & ->). done.
Qed.

Lemma linkNext_inv keys processed bs block lastInstr :
  passInv keys processed bs →
  block ∈ bs →
  startPc block ∉ processed →
  last (instructions block) = Some lastInstr →
  passInv keys (startPc block :: processed) (linkNext instrs block lastInstr bs).
Proof.
  intros Hinv Hblock Hfresh Hlast. unfold linkNext.
  destruct (find _ instrs) as [nextInstr|] eqn:Hnext; [|by apply passInv_weaken].
  destruct (findBlockContaining bs (pc nextInstr)) as [nextBlock|] eqn:Hfind;
    [|by apply passInv_weaken].
  destruct (next_block_forward _ _ _ _ _ _ _ Hinv Hblock Hlast Hnext Hfind)
    as [Hfwd Hkey].
  apply updateBlock_inv; [done|].
  destruct Hinv as [Hk Hs Ho Hsucc]. unfold updateBlock. split.
  - rewrite <- Hk. rewrite <- list_fmap_compose. apply list_fmap_ext.
    intros i b _. simpl. by case_bool_decide.
  - eapply (StronglySorted_fmap _ blockLt blockLt); [|exact Hs].
    intros x y [? ?]. unfold blockLt. by repeat case_bool_decide.
  - apply Forall_fmap. eapply Forall_impl; [exact Ho|].
    intros b Hb. unfold ownsRange in *. simpl. by case_bool_decide.
  - apply Forall_fmap. eapply Forall_impl; [exact Hsucc|].
    intros b [Hb Hnone]. simpl. case_bool_decide as Heq.
    + split.
      * right. exists (startPc nextBlock). simpl.
        rewrite Hnone by (by rewrite Heq). split; [done|]. by rewrite Heq.
      * simpl. intros Hn. exfalso. apply Hn. rewrite Heq. by left.
    + split; [done|]. intros Hn. apply Hnone. intros Hin. apply Hn. by right.
Qed.

Lemma connectBlock_inv keys processed bs key :
  passInv keys processed bs → key ∉ processed →
  passInv keys (key :: processed) (connectBlock instrs bs key).
Proof.
  intros Hinv Hfresh. unfold connectBlock.
  destruct (mapGet key bs) as [block|] eqn:Hget; [|by apply passInv_weaken].
  apply mapGet_Some in Hget as [Hblock <-].
  destruct (last (instructions block)) as [lastInstr|] eqn:Hlast;
    [|by apply passInv_weaken].
  repeat case_bool_decide; try by apply passInv_weaken.
  - by apply linkNext_inv.
  - destruct (isTerminator _); simpl; [by apply passInv_weaken|by apply linkNext_inv].
Qed.

Lemma connect_fold_inv keys ks processed bs :
  NoDup ks → (∀ k, k ∈ ks → k ∉ processed) →
  passInv keys processed bs →
  ∃ processed', passInv keys processed' (foldl (connectBlock instrs) bs ks).
Proof.
  revert processed bs. induction ks as [|k ks IH]; intros processed bs Hnd Hfresh Hinv.
  - by exists processed.
  - simpl. apply NoDup_cons in Hnd as [Hk Hnd].
    apply (IH (k :: processed)); [done| |].
    + intros k' Hk' Hin. apply elem_of_cons in Hin as [->|Hin]; [done|].
      by apply (Hfresh k'); [right|].
    + apply connectBlock_inv; [done|]. apply Hfresh. by left.
Qed.

(** Every block of the graph has at most one successor, and it is the
    start address of a block further on. *)
Definition forwardCFG (bs : list BasicBlock) : Prop :=
  Forall (forwardSucc (map startPc bs)) bs.

Lemma buildCFG_forward : forwardCFG (blocks (buildCFG instrs)).
Proof.
  unfold buildCFG, connectBlocks. simpl.
  set (bs := formBlocks instrs _ []).
  pose proof (passInv_start (findLeaders instrs {[0]})) as Hstart.
  simpl in Hstart. fold bs in Hstart.
  destruct (connect_fold_inv (map startPc bs) (map startPc bs) [] bs)
    as [processed [Hk Hs Ho Hsucc]]; [|by intros ? _ ?%elem_of_nil|done|].
  - destruct Hstart as [_ Hs _ _]. clear -Hs.
    induction Hs as [|b l _ IH Hb]; simpl; constructor; [|done].
    intros Hin. apply list_elem_of_fmap in Hin as (b' & Heq & Hin).
    rewrite Forall_forall in Hb. destruct (Hb _ Hin). lia.
  - unfold forwardCFG. rewrite Hk. eapply Forall_impl; [exact Hsucc|].
    by intros b [? _].
Qed.

End ForwardEdges.

(** ** The worklist loop terminates *)

(** The number of blocks that start after [p]: it drops with every
    turn of the loop, since the only block put on the worklist is the
    successor of the one just visited. *)
Definition blocksAfter (p : Z) (bs : list BasicBlock) : nat :=
  length (filter (λ b, p < startPc b) bs).

Lemma blocksAfter_le p bs : (blocksAfter p bs ≤ length bs)%nat.
Proof. apply length_filter. Qed.

Lemma blocksAfter_mono p s bs :
  p < s → (blocksAfter s bs ≤ blocksAfter p bs)%nat.
Proof.
  intros Hlt. unfold blocksAfter.
  induction bs as [|b bs IH]; [done|].
  rewrite !filter_cons. repeat case_decide; simpl; lia.
Qed.

Lemma blocksAfter_lt p s bs :
  p < s → s ∈ map startPc bs → (blocksAfter s bs < blocksAfter p bs)%nat.
Proof.
  intros Hlt Hin. induction bs as [|b bs IH]; [by apply elem_of_nil in Hin|].
  simpl in Hin. apply elem_of_cons in Hin as [->|Hin].
  - pose proof (blocksAfter_mono p (startPc b) bs Hlt) as Hm.
    unfold blocksAfter in *. rewrite !filter_cons.
    repeat case_decide; simpl; lia.
  - specialize (IH Hin). unfold blocksAfter in *. rewrite !filter_cons.
    repeat case_decide; simpl; lia.
Qed.

Lemma worklistLoop_total cfg :
  forwardCFG (blocks cfg) →
  ∀ fuel worklist states,
    (worklist = [] ∨
     ∃ p, worklist = [p] ∧ (blocksAfter p (blocks cfg) < fuel)%nat) →
    is_Some (worklistLoop fuel cfg worklist states).
Proof.
  intros Hfwd. induction fuel as [|fuel IH]; intros worklist states Hwl.
  - destruct Hwl as [->|(p & -> & Hp)]; [by eexists|lia].
  - destruct Hwl as [->|(p & -> & Hp)]; [by eexists|]. simpl.
    destruct (mapGet p (blocks cfg)) as [block|] eqn:Hget; [|apply IH; by left].
    apply mapGet_Some in Hget as [Hblock Hkey].
    match goal with |- is_Some (if ?c then _ else _) => destruct c end;
      [|apply IH; by left].
    apply IH. unfold forwardCFG in Hfwd. rewrite Forall_forall in Hfwd.
    destruct (Hfwd _ Hblock) as [->|(s & -> & Hlt & Hin)]; [by left|].
    right. exists s. split; [done|].
    pose proof (blocksAfter_lt p s (blocks cfg)) as Hdrop.
    rewrite Hkey in Hlt. specialize (Hdrop Hlt Hin). lia.
Qed.

Lemma traceStackAtPC_total fuel cfg targetPc :
  forwardCFG (blocks cfg) →
  (length (blocks cfg) < fuel)%nat →
  is_Some (traceStackAtPC fuel cfg targetPc).
Proof.
  intros Hfwd Hfuel. unfold traceStackAtPC.
  destruct (getBlockContaining _ _) as [targetBlock|]; [|by eexists].
  match goal with |- is_Some (?m ≫= _) => assert (is_Some m) as [states ->] end.
  { apply worklistLoop_total; [done|]. right. eexists. split; [done|].
    pose proof (blocksAfter_le (startPc targetBlock) (blocks cfg)). lia. }
  simpl. destruct (find _ _); [|by eexists].
  destruct (states !! _); by eexists.
Qed.

(** Fuel that is enough for the tracer on the graph of [instrs]. *)
Definition traceFuel (instrs : list Opcode) : nat :=
  S (length (blocks (buildCFG instrs))).

Lemma cfgSites_total fuel cfg instrs :
  forwardCFG (blocks cfg) →
  (length (blocks cfg) < fuel)%nat →
  ∃ sites, cfgSites fuel cfg instrs = Some sites ∧
           map site_pc sites =
           map pc (filter (λ i, op i = "DELEGATECALL") instrs).
Proof.
  intros Hfwd Hfuel. induction instrs as [|instr rest (sites & IH & Hpcs)]; simpl.
  - by exists [].
  - rewrite filter_cons. case_bool_decide as Hop.
    + destruct (traceStackAtPC_total fuel cfg (pc instr) Hfwd Hfuel) as [stack ->].
      simpl. rewrite IH. simpl. eexists. split; [done|].
      rewrite decide_True by done. simpl. by rewrite Hpcs.
    + rewrite decide_False by done. by exists sites.
Qed.

Lemma linearSites_pcs instrs stack :
  map site_pc (linearSites instrs stack) =
  map pc (filter (λ i, op i = "DELEGATECALL") instrs).
Proof.
  revert stack. induction instrs as [|instr rest IH]; intros stack; simpl; [done|].
  rewrite filter_cons. case_bool_decide.
  - rewrite decide_True by done. simpl. by rewrite IH.
  - rewrite decide_False by done. apply IH.
Qed.

(** Fuel that is enough for [analyzeBytecode] on [bytecode]. *)
Definition enoughFuel (bytecode : string) : nat :=
  match decodeBytecode bytecode with
  | Some instrs => traceFuel instrs
  | None => 0
  end.

(** The analysis returns a report on every string, in both modes, and
    its sites are the DELEGATECALL instructions of the disassembly in
    program order. *)
Lemma analyzeBytecode_total bytecode opts extra :
  ∃ instrs sites,
    decodeBytecode bytecode = Some instrs ∧
    map site_pc sites = map pc (filter (λ i, op i = "DELEGATECALL") instrs) ∧
    analyzeBytecode (enoughFuel bytecode + extra) bytecode opts =
      Some (buildReport opts bytecode sites).
Proof.
  unfold analyzeBytecode, enoughFuel.
  destruct (decodeBytecode_total bytecode) as [instrs Hdec]. rewrite Hdec.
  assert (length (blocks (buildCFG instrs)) < traceFuel instrs + extra)%nat as Hfuel
    by (unfold traceFuel; lia).
  revert Hfuel. generalize (traceFuel instrs + extra)%nat. intros fuel Hfuel. simpl.
  exists instrs. case_bool_decide.
  - destruct (cfgSites_total fuel (buildCFG instrs) instrs) as (sites & -> & Hpcs).
    + apply buildCFG_forward. by eapply decodeBytecode_sorted.
    + done.
    + by exists sites.
  - exists (linearSites instrs []). split; [done|]. split; [|done].
    apply linearSites_pcs.
Qed.

(** ** Overall risk *)

(** The order [low < medium < high < unknown] of the specification. *)
Definition riskRank (r : RiskLevel) : nat :=
  match r with
  | low => 0
  | medium => 1
  | high => 2
  | unknownRisk => 3
  end.

Definition riskLe (a b : RiskLevel) : Prop := (riskRank a ≤ riskRank b)%nat.

Lemma orderIndex_rank r : orderIndex r = Z.of_nat (riskRank r).
Proof. by destruct r. Qed.

Lemma reduce_from acc risks :
  let m := foldl (λ acc r, if orderIndex acc <? orderIndex r then r else acc) acc risks in
  riskLe acc m ∧ Forall (λ r, riskLe r m) risks ∧ (m = acc ∨ m ∈ risks).
Proof.
  revert acc. induction risks as [|r risks IH]; intros acc; simpl.
  - repeat split; [by unfold riskLe|constructor|by left].
  - destruct (Z.ltb_spec (orderIndex acc) (orderIndex r)) as [Hlt|Hge];
      [destruct (IH r) as (Hacc & Hall & Hin)|destruct (IH acc) as (Hacc & Hall & Hin)];
      rewrite !orderIndex_rank in *; unfold riskLe in *.
    + split; [lia|]. split; [by constructor|].
      right. destruct Hin as [->|Hin]; [by left|by right].
    + split; [done|]. split; [constructor; [lia|done]|].
      destruct Hin as [->|Hin]; [by left|right; by right].
Qed.

Lemma reduceRisk_max risks :
  risks ≠ [] →
  reduceRisk risks ∈ risks ∧ Forall (λ r, riskLe r (reduceRisk risks)) risks.
Proof.
  intros Hne. destruct (reduce_from low risks) as (_ & Hall & Hin).
  fold (reduceRisk risks) in *. split; [|done].
  destruct Hin as [Heq|Hin]; [|done].
  destruct risks as [|r risks]; [done|].
  apply Forall_cons in Hall as [Hr _]. rewrite Heq in Hr.
  unfold riskLe in Hr. destruct r; simpl in Hr; try lia. rewrite Heq. by left.
Qed.

(** C7.  For every analysis (any input string, either mode) a report is
    returned; its [overallRisk] is absent exactly when the report has no
    sites, and otherwise it is the risk of one of the sites and no site's
    risk lies above it in the order low < medium < high < unknown. *)
Theorem overallRisk_is_max_site_risk bytecode opts extra :
  ∃ r, analyzeBytecode (enoughFuel bytecode + extra) bytecode opts = Some r ∧
       (overallRisk r = None ↔ sites r = []) ∧
       ∀ m, overallRisk r = Some m →
            m ∈ map risk (sites r) ∧
            Forall (λ s, riskLe (risk s) m) (sites r).
Proof.
  destruct (analyzeBytecode_total bytecode opts extra) as (instrs & ss & _ & _ & ->).
  eexists. split; [done|]. unfold buildReport. simpl.
  set (rs := map _ (detectProxyPatterns bytecode ss)).
  case_bool_decide as Hlen.
  - split; [split; [done|intros Hnil; rewrite Hnil in Hlen; simpl in Hlen; lia]|].
    intros m [= <-].
    destruct (reduceRisk_max (map risk rs)) as [Hin Hall].
    { destruct rs; [simpl in Hlen; lia|done]. }
    split; [done|]. by apply Forall_fmap in Hall.
  - split; [|done]. split; [|done]. intros _.
    destruct rs; [done|simpl in Hlen; lia].
Qed.

(** ** Linear mode against CFG mode *)

(** Both modes report one site per DELEGATECALL instruction, at the same
    program counters and in the same order, on every input. *)
Lemma modes_agree_on_site_pcs bytecode extra :
  ∃ r1 r2,
    analyzeBytecode (enoughFuel bytecode + extra) bytecode cfgOptions = Some r1 ∧
    analyzeBytecode (enoughFuel bytecode + extra) bytecode linearOptions = Some r2 ∧
    map rs_pc (sites r1) = map rs_pc (sites r2).
Proof.
  destruct (analyzeBytecode_total bytecode cfgOptions extra)
    as (instrs & s1 & Hdec & Hp1 & ->).
  destruct (analyzeBytecode_total bytecode linearOptions extra)
    as (instrs' & s2 & Hdec' & Hp2 & ->).
  rewrite Hdec in Hdec'. injection Hdec' as <-.
  do 2 eexists. split; [done|]. split; [done|].
  unfold buildReport, detectProxyPatterns. simpl.
  rewrite <- !list_fmap_compose. simpl.
  change (map site_pc s1 = map site_pc s2). by rewrite Hp1, Hp2.
Qed.

(** The pc and the target type of every site of a report. *)
Definition reportedTypes (r : DelegatecallSurfaceReport) : list (Z * TargetType) :=
  map (λ s, (rs_pc s, type (rs_classification s))) (sites r).

Definition straightLine (instrs : list Opcode) : Prop :=
  Forall (λ i, op i ≠ "JUMP" ∧ op i ≠ "JUMPI") instrs.

(** C1, evaluated on CALLDATALOAD CALLER CALLER DELEGATECALL STOP.  The
    code has no JUMP or JUMPI, both modes report the one site at pc 4,
    and the CFG mode classifies its target as [unknown] (the second slot
    from the top, CALLER) while the linear mode, which applies the
    DELEGATECALL to the stack before reading it, classifies it as
    [calldata]. *)
Theorem modes_differ_on_straight_line_code :
  let bytecode := "0x353333f400" in
  (∃ instrs, decodeBytecode bytecode = Some instrs ∧ straightLine instrs) ∧
  reportedTypes <$> analyzeBytecode 2 bytecode cfgOptions = Some [(4, unknown)] ∧
  reportedTypes <$> analyzeBytecode 2 bytecode linearOptions = Some [(4, calldata)].
Proof.
  split; [|split; vm_compute; reflexivity].
  eexists. split; [vm_compute; reflexivity|].
  repeat constructor; discriminate.
Qed.

(** ** Program counters of the disassembly *)

(** C4, evaluated on the bytes 00 0c.  STOP sits at byte offset 0 and is
    given pc 1 (the counter is advanced before the instruction is
    pushed); the unknown byte 0c at offset 1 is pushed before the
    counter is advanced and is given pc 1 as well, so the two pcs are
    equal instead of increasing. *)
Theorem decode_pc_is_not_the_opcode_offset :
  decodeBytecode "0x000c" =
  Some [mkOpcode 1 "STOP" None 0 0; mkOpcode 1 "0x0c" None 0 0].
Proof. vm_compute. reflexivity. Qed.

(** ** Literal targets *)

Definition hex38 : string := "aaaaaaaaaaaaaaaaaaaaaaaaaaaaaaaaaaaaaa".

(** C5, evaluated on a 19-byte literal (what PUSH19 pushes): the
    normalised value always carries [0x], so the test [length = 40]
    accepts 38 hex digits and the literal is classified [hardcoded]. *)
Theorem classifyTarget_accepts_19_bytes :
  String.length hex38 = 38%nat ∧
  classifyTarget (Literal ("0x" +:+ hex38)) =
    mkClassification hardcoded (Some ("0x" +:+ hex38)) None None ∧
  map (λ s, (type (rs_classification s), addressLiteral (rs_classification s), risk s))
    <$> (sites <$> analyzeBytecode 2 ("0x72" +:+ hex38 +:+ "3333f400") linearOptions)
  = Some [(hardcoded, Some ("0x" +:+ hex38), low)].
Proof. repeat split; vm_compute; reflexivity. Qed.

(** What [classifyTarget] does on every literal: [hardcoded] exactly for
    38 or 40 characters after the optional [0x]. *)
Lemma classifyTarget_literal v :
  let clean := if Js.startsWith v "0x" then Js.sliceFrom 2 v else v in
  classifyTarget (Literal v) =
    if bool_decide (String.length clean = 38%nat ∨ String.length clean = 40%nat)
    then mkClassification hardcoded (Some ("0x" +:+ clean)) None None
    else mkClassification unknown None None
           (Some ("literal(" +:+ ("0x" +:+ clean) +:+ ")")).
Proof.
  simpl. unfold normalize.
  set (clean := if Js.startsWith v "0x" then _ else _).
  change (String.length (EmptyString +:+ clean)) with (String.length clean).
  repeat case_bool_decide; simpl; try done; exfalso; lia.
Qed.

(** ** Malformed input *)

(** C3 fails: the one-character string [f] (odd length) and the string
    [zz] (no hex digit) are analysed without any error; [zz] is read as
    the byte NaN and disassembled as the instruction [0xNaN]. *)
Lemma malformed_input_is_analysed :
  Nat.Odd (String.length "f") ∧
  analyzeBytecode 2 "f" defaultOptions = Some (mkReport None None 0 None [] []) ∧
  decodeBytecode "f" = Some [mkOpcode 0 "0x0f" None 0 0] ∧
  analyzeBytecode 2 "zz" defaultOptions = Some (mkReport None None 0 None [] []) ∧
  decodeBytecode "zz" = Some [mkOpcode 0 "0xNaN" None 0 0].
Proof.
  split; [by exists 0%nat|]. repeat split; vm_compute; reflexivity.
Qed.

(** C3, amended.  The analysis returns a report for every input string,
    whatever its length and characters, in either mode; the disassembler
    has no malformed-input error. *)
Theorem analysis_never_fails bytecode opts extra :
  (∃ instrs, decodeBytecode bytecode = Some instrs) ∧
  ∃ r, analyzeBytecode (enoughFuel bytecode + extra) bytecode opts = Some r.
Proof.
  destruct (analyzeBytecode_total bytecode opts extra) as (instrs & ss & Hd & _ & ->).
  split; by eexists.
Qed.

(** ** The count of DELEGATECALL opcodes *)

(** The specification's reading of a bytecode string, independent of the
    disassembler: hex digits two by two give the byte vector; a byte
    0x60..0x7f is PUSH1..PUSH32 and the N bytes after it are its
    immediate; every byte 0xf4 that is not such an immediate counts. *)
Module Spec.

Definition isHexDigit (c : ascii) : bool :=
  Js.inRange 48 57 c || Js.inRange 97 102 c || Js.inRange 65 70 c.

Definition hexValue (c : ascii) : Z :=
  if Js.inRange 48 57 c then Js.code c - 48
  else if Js.inRange 97 102 c then Js.code c - 87
  else Js.code c - 55.

Fixpoint allHex (s : string) : bool :=
  match s with
  | EmptyString => true
  | String c s' => isHexDigit c && allHex s'
  end.

(** The hex text of an input: what follows a leading [0x], or the whole
    input when it does not start with [0x]. *)
Definition hexBody (bytecode : string) : string :=
  match bytecode with
  | String "0" (String "x" body) => body
  | _ => bytecode
  end.

(** Well-formed hex: the hex text has an even number of characters, all
    of them hex digits. *)
Definition wellFormedHex (bytecode : string) : bool :=
  let digits := hexBody bytecode in
  Nat.even (String.length digits) && allHex digits.

Fixpoint byteVector (clean : string) : list Z :=
  match clean with
  | String c1 (String c2 rest) => 16 * hexValue c1 + hexValue c2 :: byteVector rest
  | _ => []
  end.

(** [skip] is the number of bytes still to pass over as the immediate of
    a PUSH. *)
Fixpoint delegatecallOpcodes (skip : nat) (bytes : list Z) : nat :=
  match bytes with
  | [] => 0
  | b :: rest =>
      match skip with
      | S skip' => delegatecallOpcodes skip' rest
      | O =>
          if bool_decide (0x60 ≤ b ≤ 0x7f)
          then delegatecallOpcodes (Z.to_nat (b - 0x5f)) rest
          else if bool_decide (b = 0xf4)
               then S (delegatecallOpcodes 0 rest)
               else delegatecallOpcodes 0 rest
      end
  end.

End Spec.

Definition allAscii : list ascii := map ascii_of_nat (seq 0 256).

Lemma ascii_in_all c : In c allAscii.
Proof.
  rewrite <- (ascii_nat_embedding c). apply in_map, in_seq.
  pose proof (nat_ascii_bounded c). lia.
Qed.

(** A property checked on the 256 characters holds for every character. *)
Lemma ascii_forall (P : ascii → bool) :
  forallb P allAscii = true → ∀ c, P c = true.
Proof. intros H c. rewrite forallb_forall in H. apply H, ascii_in_all. Qed.

Definition hexDigits : list ascii :=
  String.list_ascii_of_string "0123456789abcdefABCDEF".

Lemma isHexDigit_listed c : Spec.isHexDigit c = true → In c hexDigits.
Proof.
  intros Hc.
  assert (implb (Spec.isHexDigit c) (existsb (Ascii.eqb c) hexDigits) = true) as H.
  { revert c Hc. intros c _. revert c. apply ascii_forall. vm_compute. reflexivity. }
  rewrite Hc in H. change (existsb (Ascii.eqb c) hexDigits = true) in H.
  apply existsb_exists in H as (x & Hx & Heq).
  by apply Ascii.eqb_eq in Heq as ->.
Qed.

Lemma hex_pairs_checked :
  forallb (λ c1, forallb (λ c2,
    bool_decide (Num.parseInt (String c1 (String c2 EmptyString)) 16
                 = JsInt (16 * Spec.hexValue c1 + Spec.hexValue c2)))
    hexDigits) hexDigits = true.
Proof. vm_compute. reflexivity. Qed.

Lemma parseInt_hex_pair c1 c2 :
  Spec.isHexDigit c1 = true → Spec.isHexDigit c2 = true →
  Num.parseInt (String c1 (String c2 EmptyString)) 16
  = JsInt (16 * Spec.hexValue c1 + Spec.hexValue c2).
Proof.
  intros H1%isHexDigit_listed H2%isHexDigit_listed.
  pose proof hex_pairs_checked as Hall.
  rewrite forallb_forall in Hall. specialize (Hall c1 H1).
  rewrite forallb_forall in Hall. specialize (Hall c2 H2).
  by apply bool_decide_eq_true in Hall.
Qed.

Lemma string_pair_ind (P : string → Prop) :
  P EmptyString →
  (∀ c, P (String c EmptyString)) →
  (∀ c1 c2 s, P s → P (String c1 (String c2 s))) →
  ∀ s, P s.
Proof.
  intros H0 H1 H2. fix IH 1. intros [|c1 [|c2 s]].
  - exact H0.
  - apply H1.
  - apply H2, IH.
Qed.

(** On well-formed hex the disassembler's byte array is the byte vector. *)
Lemma parseBytes_wellFormed clean :
  Nat.even (String.length clean) = true → Spec.allHex clean = true →
  parseBytes clean = map JsInt (Spec.byteVector clean).
Proof.
  induction clean as [|c|c1 c2 s IH] using string_pair_ind; [done|done|].
  intros Heven Hhex. simpl in Heven, Hhex.
  apply andb_true_iff in Hhex as [Hc1 Hhex].
  apply andb_true_iff in Hhex as [Hc2 Hhex].
  cbn [parseBytes Spec.byteVector map]. rewrite parseInt_hex_pair by done.
  by rewrite IH.
Qed.

Lemma delegatecallOpcodes_skip n bytes :
  Spec.delegatecallOpcodes n bytes = Spec.delegatecallOpcodes 0 (drop n bytes).
Proof.
  revert bytes. induction n as [|n IH]; intros [|b bytes]; simpl; try done.
Qed.

Definition isDelegatecall (i : Opcode) : Prop := op i = "DELEGATECALL".

Global Instance isDelegatecall_dec i : Decision (isDelegatecall i).
Proof. unfold isDelegatecall. apply _. Defined.

(** One turn of the loop at a byte of the vector. *)
Lemma decodeStep_at bytes p z :
  0 ≤ p → bytes !! Z.to_nat p = Some z →
  ∃ instr p', decodeStep (map JsInt bytes) p = (instr, p') ∧
    if bool_decide (0x60 ≤ z ≤ 0x7f)
    then p' = p + 1 + (z - 0x5f) ∧ ¬ isDelegatecall instr
    else p' = p + 1 ∧ (isDelegatecall instr ↔ z = 0xf4).
Proof.
  intros Hp Hz. unfold decodeStep, isDelegatecall.
  change (map JsInt bytes) with (JsInt <$> bytes).
  rewrite list_lookup_fmap, Hz.
  cbn [fmap option_fmap option_map from_option id lookupOpcode].
  case_bool_decide as Hpush.
  - destruct (OPCODES_push z Hpush) as (info & -> & -> & _ & Hname).
    destruct (Z.ltb_spec 0 (z - 0x5f)); [|lia]. by do 2 eexists.
  - destruct (OPCODES !! z) as [info|] eqn:Hinfo.
    + destruct (OPCODES_other z info Hinfo Hpush) as [-> Hdc]. by do 2 eexists.
    + do 2 eexists. split; [done|]. split; [done|]. simpl. split; [discriminate|].
      intros ->. destruct OPCODES_delegatecall as [? Hsome]. congruence.
Qed.

Lemma decodeLoop_count fuel bytes p instrs :
  0 ≤ p →
  decodeLoop fuel (map JsInt bytes) p = Some instrs →
  length (filter isDelegatecall instrs)
  = Spec.delegatecallOpcodes 0 (drop (Z.to_nat p) bytes).
Proof.
  revert p instrs. induction fuel as [|fuel IH]; intros p instrs Hp; simpl;
    rewrite length_map.
  - destruct (Z.ltb_spec p (Z.of_nat (length bytes))); [done|].
    intros [= <-]. by rewrite drop_ge by lia.
  - destruct (Z.ltb_spec p (Z.of_nat (length bytes))) as [Hlt|Hge];
      [|intros [= <-]; by rewrite drop_ge by lia].
    destruct (lookup_lt_is_Some_2 bytes (Z.to_nat p)) as [z Hz]; [lia|].
    destruct (decodeStep_at bytes p z Hp Hz) as (instr & p' & -> & Hstep).
    destruct (decodeLoop fuel (map JsInt bytes) p') as [rest|] eqn:Hrest; [|done].
    intros [= <-]. rewrite (drop_S _ _ _ Hz). simpl. rewrite filter_cons.
    pose proof (IH p' rest) as IHr.
    destruct (decide (0x60 ≤ z ≤ 0x7f)) as [Hpush|Hpush].
    + rewrite bool_decide_eq_true_2 in Hstep |- * by done.
      destruct Hstep as [-> Hdc].
      rewrite decide_False by done. rewrite IHr by (lia || done).
      rewrite (delegatecallOpcodes_skip (Z.to_nat (z - 0x5f))), drop_drop.
      f_equal. f_equal. lia.
    + rewrite bool_decide_eq_false_2 in Hstep |- * by done.
      destruct Hstep as [-> Hdc].
      replace (Z.to_nat (p + 1)) with (S (Z.to_nat p)) in IHr by lia.
      case_bool_decide as Hf4.
      * rewrite decide_True by (by apply Hdc). simpl.
        by rewrite IHr by (lia || done).
      * rewrite decide_False by (by rewrite Hdc). by rewrite IHr by (lia || done).
Qed.

(** The disassembler strips the prefix as the hex text is defined. *)
Lemma stripPrefix_hexBody bytecode : stripPrefix bytecode = Spec.hexBody bytecode.
Proof.
  unfold stripPrefix, Js.startsWith, Spec.hexBody.
  destruct bytecode as [|a [|c r]]; [done| |].
  - destruct a as [[] [] [] [] [] [] [] []]; reflexivity.
  - destruct a as [[] [] [] [] [] [] [] []]; try reflexivity.
    destruct c as [[] [] [] [] [] [] [] []]; try reflexivity.
    by destruct r.
Qed.

(** C2.  For every well-formed hex bytecode, with or without the 0x
    prefix, and either mode, the report's [delegatecallCount] is the
    number of 0xf4 bytes of the byte vector of the hex text outside PUSH
    immediates, which is the number of DELEGATECALL instructions that
    the disassembler emits.  The byte vector and the count are computed
    from the input text alone, not through the disassembler. *)
Theorem delegatecallCount_counts_opcode_bytes bytecode opts extra :
  Spec.wellFormedHex bytecode = true →
  ∃ instrs r,
    decodeBytecode bytecode = Some instrs ∧
    analyzeBytecode (enoughFuel bytecode + extra) bytecode opts = Some r ∧
    delegatecallCount r
      = Z.of_nat (Spec.delegatecallOpcodes 0 (Spec.byteVector (Spec.hexBody bytecode))) ∧
    delegatecallCount r = Z.of_nat (length (filter isDelegatecall instrs)).
Proof.
  intros Hwf. apply andb_true_iff in Hwf as [Heven Hhex].
  rewrite <- stripPrefix_hexBody in Heven, Hhex |- *.
  destruct (analyzeBytecode_total bytecode opts extra)
    as (instrs & ss & Hdec & Hpcs & ->).
  exists instrs. eexists. split; [done|]. split; [done|]. simpl.
  assert (length ss = length (filter isDelegatecall instrs)) as ->.
  { rewrite <- (length_map site_pc), Hpcs. by rewrite length_map. }
  split; [|done]. f_equal.
  unfold decodeBytecode, decodeBytes in Hdec.
  rewrite parseBytes_wellFormed in Hdec by done.
  by apply decodeLoop_count in Hdec.
Qed.

(** On the unprefixed text f4 60f4 f4 the count is 2: the f4 behind the
    PUSH1 is its immediate. *)
Lemma delegatecallCount_counts_opcode_bytes_witness :
  Spec.wellFormedHex "f460f4f4" = true ∧
  ∃ instrs r,
    decodeBytecode "f460f4f4" = Some instrs ∧
    analyzeBytecode (enoughFuel "f460f4f4" + 0) "f460f4f4" linearOptions = Some r ∧
    delegatecallCount r = 2 ∧
    Z.of_nat (length (filter isDelegatecall instrs)) = 2.
Proof.
  split; [reflexivity|].
  destruct (delegatecallCount_counts_opcode_bytes "f460f4f4" linearOptions 0 eq_refl)
    as (instrs & r & Hdec & Hrun & Hcount & Hinstrs).
  exists instrs, r. split; [exact Hdec|]. split; [exact Hrun|].
  split; [exact Hcount|]. rewrite <- Hinstrs. exact Hcount.
Defined.

(** ** Bytes outside the opcode table *)

(** The mnemonic of a byte outside the table starts with the character
    0, which no key of the transfer functions does. *)
Lemma raw_not_in (s : string) (l : list string) :
  Forall (λ k, ∃ c r, k = String c r ∧ c ≠ "0"%char) l → "0x" +:+ s ∉ l.
Proof.
  intros H Hin. rewrite Forall_forall in H.
  destruct (H _ Hin) as (c & r & Heq & Hc). by injection Heq as <- _.
Qed.

Ltac raw_tests :=
  change (Js.startsWith ("0x" +:+ ?s) "PUSH") with false;
  change (Js.startsWith ("0x" +:+ ?s) "DUP") with false;
  change (Js.startsWith ("0x" +:+ ?s) "SWAP") with false;
  cbv iota;
  rewrite !bool_decide_eq_false_2
    by first [discriminate
             | apply raw_not_in; repeat constructor; by eexists _, _].

Lemma linear_raw s pushData stack :
  Linear.applyInstructionToStack ("0x" +:+ s) pushData stack = removelast stack.
Proof.
  unfold Linear.applyInstructionToStack. raw_tests.
  rewrite removelast_firstn_len. f_equal. lia.
Qed.

Lemma tracer_raw s pushData stack :
  Tracer.applyInstructionToStack ("0x" +:+ s) pushData stack = stack.
Proof.
  unfold Tracer.applyInstructionToStack. raw_tests. cbn [orb].
  unfold Tracer.getOpcodeInfo, Tracer.known.
  rewrite (not_elem_of_list_to_map_1 _ ("0x" +:+ s)); [done|].
  apply raw_not_in. cbn [fmap list_fmap fst]. repeat constructor; by eexists _, _.
Qed.

(** C8 fails for the tracer: the byte 0c is outside the table, it is
    disassembled as [0x0c], and the tracer's transfer function leaves the
    stack [[Unknown]] as it is instead of popping its slot. *)
Lemma tracer_keeps_stack_on_unknown_byte :
  lookupOpcode (JsInt 0x0c) = None ∧
  op (decodeStep [JsInt 0x0c] 0).1 = "0x0c" ∧
  Tracer.applyInstructionToStack "0x0c" None [Unknown] = [Unknown] ∧
  Tracer.applyInstructionToStack "0x0c" None [Unknown] ≠ removelast [Unknown].
Proof. repeat split; try (vm_compute; reflexivity). vm_compute. discriminate. Qed.

(** C8, amended.  For an instruction whose opcode byte is outside the
    table (mnemonic [0xNN]), the linear mode's transfer function removes
    the top slot, if there is one, and pushes nothing; the tracer's
    transfer function leaves the stack unchanged. *)
Theorem unknown_byte_transfer bytes p stack :
  lookupOpcode (default (JsInt 0) (bytes !! Z.to_nat p)) = None →
  let instr := (decodeStep bytes p).1 in
  Linear.applyInstructionToStack (op instr) (pushData instr) stack = removelast stack ∧
  Tracer.applyInstructionToStack (op instr) (pushData instr) stack = stack.
Proof.
  intros Hraw. unfold decodeStep. rewrite Hraw. cbn [fst op pushData].
  split; [apply linear_raw|apply tracer_raw].
Qed.

Lemma unknown_byte_transfer_witness :
  let instr := (decodeStep [JsInt 0x0c] 0).1 in
  Linear.applyInstructionToStack (op instr) (pushData instr) [Unknown; Literal "0x01"]
    = removelast [Unknown; Literal "0x01"] ∧
  Tracer.applyInstructionToStack (op instr) (pushData instr) [Unknown; Literal "0x01"]
    = [Unknown; Literal "0x01"].
Proof. apply (unknown_byte_transfer [JsInt 0x0c] 0). vm_compute. reflexivity. Defined.

(** ** Push immediates *)

Lemma string_length_app (a b : string) :
  String.length (a +:+ b) = (String.length a + String.length b)%nat.
Proof.
  induction a as [|c a IH]; [done|].
  change (String c a +:+ b) with (String c (a +:+ b)). simpl. by rewrite IH.
Qed.

Lemma hexByte_length_checked :
  Forall (λ b, String.length (hexByte (JsInt b)) = 2%nat) (seqZ 0 256).
Proof. apply (bool_decide_unpack _). vm_compute. reflexivity. Qed.

Lemma hexByte_length b :
  0 ≤ b ≤ 255 → String.length (hexByte (JsInt b)) = 2%nat.
Proof.
  intros Hb. pose proof hexByte_length_checked as H.
  rewrite Forall_forall in H. apply H, elem_of_seqZ. lia.
Qed.

Lemma hexJoin_length bs :
  Forall (λ b, 0 ≤ b ≤ 255) bs →
  String.length (hexJoin (map JsInt bs)) = (2 * length bs)%nat.
Proof.
  induction 1 as [|b bs Hb _ IH]; [done|]. simpl.
  rewrite string_length_app, hexByte_length, IH by done. lia.
Qed.

(** C9 fails: the bytes 61 aa are a PUSH2 with one byte left; the
    immediate is the one byte [aa], with no zero appended. *)
Lemma truncated_push_is_not_padded :
  decodeBytecode "0x61aa" = Some [mkOpcode 3 "PUSH2" (Some "0xaa") 0 1] ∧
  String.length "aa" ≠ (2 * 2)%nat.
Proof. split; [vm_compute; reflexivity|discriminate]. Qed.

(** C9, amended.  A PUSH-N at offset [p] of a byte vector carries as
    immediate the bytes that follow it, at most N and no more than the
    vector has: [pushData] is [0x] followed by two hex digits per
    available byte, that is [2 * min N (length - p - 1)] digits; there
    are [2 * N] digits exactly when N bytes are available. *)
Theorem push_immediate_is_truncated bytes p z :
  Forall (λ b, 0 ≤ b ≤ 255) bytes →
  0 ≤ p →
  bytes !! Z.to_nat p = Some z →
  0x60 ≤ z ≤ 0x7f →
  let N := z - 0x5f in
  let instr := (decodeStep (map JsInt bytes) p).1 in
  let digits := hexJoin (map JsInt (take (Z.to_nat N) (drop (Z.to_nat (p + 1)) bytes))) in
  op instr = numbered "PUSH" N ∧
  pushData instr = Some ("0x" +:+ digits) ∧
  Z.of_nat (String.length digits) = 2 * Z.min N (Z.of_nat (length bytes) - p - 1).
Proof.
  intros Hbytes Hp Hz Hpush N instr digits.
  assert (instr = (decodeStep (map JsInt bytes) p).1) as Hinstr by done.
  unfold decodeStep in Hinstr.
  change (map JsInt bytes) with (JsInt <$> bytes) in Hinstr.
  rewrite list_lookup_fmap, Hz in Hinstr.
  cbn [fmap option_fmap option_map from_option id lookupOpcode] in Hinstr.
  destruct (OPCODES_push z Hpush) as (info & Hinfo & Hpb & Hname & _).
  rewrite Hinfo, Hpb in Hinstr.
  destruct (Z.ltb_spec 0 (z - 0x5f)); [|lia].
  cbn [fst] in Hinstr. rewrite Hinstr. cbn [op pushData].
  split; [done|]. split.
  - unfold digits, sliceBytes, N. do 3 f_equal.
    change (JsInt <$> bytes) with (map JsInt bytes).
    rewrite skipn_map, firstn_map. do 2 f_equal; lia.
  - unfold digits. rewrite hexJoin_length.
    + rewrite length_take, length_drop.
      apply lookup_lt_Some in Hz. unfold N. lia.
    + by apply Forall_take, Forall_drop.
Qed.

Lemma push_immediate_is_truncated_witness :
  let N := 0x61 - 0x5f in
  let instr := (decodeStep (map JsInt [0x61; 0xaa]) 0).1 in
  let digits := hexJoin (map JsInt (take (Z.to_nat N) (drop (Z.to_nat (0 + 1)) [0x61; 0xaa]))) in
  op instr = numbered "PUSH" N ∧
  pushData instr = Some ("0x" +:+ digits) ∧
  Z.of_nat (String.length digits) = 2 * Z.min N (Z.of_nat (length [0x61; 0xaa]) - 0 - 1).
Proof.
  apply (push_immediate_is_truncated [0x61; 0xaa] 0 0x61).
  - repeat constructor; lia.
  - lia.
  - reflexivity.
  - lia.
Defined.

(** ** The join of two states *)

Lemma StackExpression_nested_ind (P : StackExpression → Prop) :
  (∀ v, P (Literal v)) →
  (∀ e, P e → P (Storage e)) →
  (∀ e, P e → P (Calldata e)) →
  (∀ source, P (Environment source)) →
  (∀ op args, Forall P args → P (Op op args)) →
  P Unknown →
  ∀ e, P e.
Proof.
  intros HLit HSto HCd HEnv HOp HUnk. fix IH 1. intros [v|e|e|source|o args|].
  - apply HLit.
  - apply HSto, IH.
  - apply HCd, IH.
  - apply HEnv.
  - apply HOp. induction args as [|a args IHargs]; constructor; [apply IH|exact IHargs].
  - apply HUnk.
Qed.

(** *** Serialisation loses nothing *)

(** Appending is associative. *)
Lemma append_assoc (a b c : string) : (a +:+ b) +:+ c = a +:+ (b +:+ c).
Proof.
  induction a as [|x a IH]; [done|].
  change ((String x a +:+ b) +:+ c) with (String x ((a +:+ b) +:+ c)).
  change (String x a +:+ (b +:+ c)) with (String x (a +:+ (b +:+ c))).
  by rewrite IH.
Qed.

(** Reading back one escaped code unit: the left inverse of
    [Json.escapeChar], used to show that quoting loses nothing. *)
Definition unescapeChar (s : string) : option (ascii * string) :=
  match s with
  | EmptyString => None
  | String c r =>
      if Js.code c =? 34 then None
      else if Js.code c =? 92 then
        match r with
        | String e r' =>
            if Js.code e =? 98 then Some (ascii_of_nat 8, r')
            else if Js.code e =? 116 then Some (ascii_of_nat 9, r')
            else if Js.code e =? 110 then Some (ascii_of_nat 10, r')
            else if Js.code e =? 102 then Some (ascii_of_nat 12, r')
            else if Js.code e =? 114 then Some (ascii_of_nat 13, r')
            else if Js.code e =? 34 then Some (ascii_of_nat 34, r')
            else if Js.code e =? 92 then Some (ascii_of_nat 92, r')
            else
              match r' with
              | String _ (String _ (String h1 (String h2 r''))) =>
                  match Num.digitValue h1, Num.digitValue h2 with
                  | Some d1, Some d2 => Some (ascii_of_nat (Z.to_nat (16 * d1 + d2)), r'')
                  | _, _ => None
                  end
              | _ => None
              end
        | EmptyString => None
        end
      else Some (c, r)
  end.

Lemma unescapeChar_escapeChar c r :
  unescapeChar (Json.escapeChar c +:+ r) = Some (c, r).
Proof. by destruct c as [[] [] [] [] [] [] [] []]. Qed.

Lemma unescapeChar_quote r : unescapeChar (String Json.dq r) = None.
Proof. done. Qed.

Lemma escape_inj v1 v2 r1 r2 :
  Json.escape v1 +:+ String Json.dq r1 = Json.escape v2 +:+ String Json.dq r2 →
  v1 = v2 ∧ r1 = r2.
Proof.
  revert v2. induction v1 as [|c1 v1 IH]; intros [|c2 v2] H; simpl in H.
  - by injection H.
  - apply (f_equal unescapeChar) in H.
    rewrite append_assoc, unescapeChar_escapeChar in H. done.
  - apply (f_equal unescapeChar) in H.
    rewrite append_assoc, unescapeChar_escapeChar in H. done.
  - apply (f_equal unescapeChar) in H.
    rewrite !append_assoc, !unescapeChar_escapeChar in H.
    injection H as -> H. by destruct (IH _ H) as [-> ->].
Qed.

Lemma quote_inj v1 v2 r1 r2 :
  Json.quote v1 +:+ r1 = Json.quote v2 +:+ r2 → v1 = v2 ∧ r1 = r2.
Proof.
  unfold Json.quote. intros H.
  change (String Json.dq (Json.escape ?v +:+ ?x) +:+ ?r)
    with (String Json.dq ((Json.escape v +:+ x) +:+ r)) in H.
  injection H as H. rewrite !append_assoc in H. by apply escape_inj in H.
Qed.

Lemma object_inj k1 m1 r1 k2 m2 r2 :
  Json.object k1 m1 +:+ r1 = Json.object k2 m2 +:+ r2 →
  k1 = k2 ∧ m1 +:+ ("}" +:+ r1) = m2 +:+ ("}" +:+ r2).
Proof.
  unfold Json.object. rewrite !append_assoc. intros H.
  apply (inj (String.append "{")) in H.
  apply quote_inj in H as [_ H].
  apply (inj (String.append ":")) in H.
  by apply quote_inj in H.
Qed.

Lemma member_inj key v1 r1 v2 r2 :
  Json.member key v1 +:+ r1 = Json.member key v2 +:+ r2 → v1 +:+ r1 = v2 +:+ r2.
Proof.
  unfold Json.member. rewrite !append_assoc. intros H.
  apply (inj (String.append ",")) in H.
  apply quote_inj in H as [_ H].
  by apply (inj (String.append ":")) in H.
Qed.

Lemma stringify_Op op args :
  Json.stringify (Op op args) =
  Json.object "Op"
    (Json.member "op" (Json.quote op) +:+
     Json.member "args" ("[" +:+ Json.elements args +:+ "]")).
Proof.
  by destruct args.
Qed.

Lemma stringify_head e : ∃ t, Json.stringify e = String "{" t.
Proof. destruct e; by eexists. Qed.

Definition uniquelyRead (e1 : StackExpression) : Prop :=
  ∀ e2 r1 r2, Json.stringify e1 +:+ r1 = Json.stringify e2 +:+ r2 → e1 = e2 ∧ r1 = r2.

Lemma more_inj l1 :
  Forall uniquelyRead l1 →
  ∀ l2 r1 r2,
    Json.more l1 +:+ String "]" r1 = Json.more l2 +:+ String "]" r2 →
    l1 = l2 ∧ r1 = r2.
Proof.
  induction 1 as [|y1 l1 Hy _ IH]; intros [|y2 l2] r1 r2 H; simpl in H.
  - by injection H.
  - discriminate H.
  - discriminate H.
  - rewrite !append_assoc in H. apply (inj (String.append ",")) in H.
    apply Hy in H as [-> H]. by apply IH in H as [-> ->].
Qed.

Lemma elements_inj l1 :
  Forall uniquelyRead l1 →
  ∀ l2 r1 r2,
    Json.elements l1 +:+ String "]" r1 = Json.elements l2 +:+ String "]" r2 →
    l1 = l2 ∧ r1 = r2.
Proof.
  intros Hl1 [|x2 l2] r1 r2 H; destruct Hl1 as [|x1 l1 Hx Hl1]; simpl in H.
  - by injection H.
  - destruct (stringify_head x1) as [t Ht]. rewrite Ht in H. discriminate H.
  - destruct (stringify_head x2) as [t Ht]. rewrite Ht in H. discriminate H.
  - rewrite !append_assoc in H. apply Hx in H as [-> H].
    by apply more_inj in H as [-> ->].
Qed.

Lemma stringify_uniquelyRead e : uniquelyRead e.
Proof.
  induction e as [v|e IH|e IH|source|o args IH|] using StackExpression_nested_ind;
    intros e2 r1 r2 H; rewrite ?stringify_Op in H;
    destruct e2 as [v2|e2|e2|source2|o2 args2|]; rewrite ?stringify_Op in H;
    simpl in H; apply object_inj in H as [Hkind H]; try discriminate Hkind.
  - apply member_inj, quote_inj in H as [-> H].
    by apply (inj (String.append "}")) in H as ->.
  - apply member_inj, IH in H as [-> H].
    by apply (inj (String.append "}")) in H as ->.
  - apply member_inj, IH in H as [-> H].
    by apply (inj (String.append "}")) in H as ->.
  - apply member_inj, quote_inj in H as [Hsrc H].
    apply (inj (String.append "}")) in H as ->.
    by destruct source, source2.
  - rewrite !append_assoc in H.
    apply member_inj, quote_inj in H as [-> H].
    apply member_inj in H. rewrite !append_assoc in H.
    apply (inj (String.append "[")) in H.
    apply (elements_inj _ IH) in H as [-> H].
    by apply (inj (String.append "}")) in H as ->.
  - by apply (inj (String.append "}")) in H as ->.
Qed.

Lemma stringify_inj e1 e2 : Json.stringify e1 = Json.stringify e2 ↔ e1 = e2.
Proof.
  split; [|by intros ->]. intros H.
  apply (f_equal (λ s, s +:+ EmptyString)) in H.
  by apply stringify_uniquelyRead in H as [-> _].
Qed.

Lemma stringifyStack_inj l1 l2 : Json.stringifyStack l1 = Json.stringifyStack l2 ↔ l1 = l2.
Proof.
  split; [|by intros ->]. unfold Json.stringifyStack. intros H.
  apply (inj (String.append "[")) in H.
  apply elements_inj in H as [-> _]; [done|].
  apply Forall_forall. intros e _. apply stringify_uniquelyRead.
Qed.

(** The comparison used by the join decides structural equality. *)
Lemma sameJson_eq e1 e2 : sameJson e1 e2 = true ↔ e1 = e2.
Proof. unfold sameJson. by rewrite bool_decide_eq_true, stringify_inj. Qed.

Lemma sameJsonStack_eq l1 l2 : sameJsonStack l1 l2 = true ↔ l1 = l2.
Proof. unfold sameJsonStack. by rewrite bool_decide_eq_true, stringifyStack_inj. Qed.

Global Instance StackExpression_eq_dec : EqDecision StackExpression.
Proof.
  intros e1 e2. destruct (sameJson e1 e2) eqn:H.
  - left. by apply sameJson_eq.
  - right. intros Heq. apply sameJson_eq in Heq. congruence.
Defined.

Lemma joinStacks_length stack1 stack2 :
  length (joinStacks stack1 stack2) = length stack1.
Proof.
  revert stack2. induction stack1 as [|e1 r1 IH]; intros [|e2 r2]; simpl;
    by rewrite ?IH.
Qed.

Lemma joinStacks_lookup stack1 stack2 i e1 e2 :
  stack1 !! i = Some e1 → stack2 !! i = Some e2 →
  joinStacks stack1 stack2 !! i = Some (if decide (e1 = e2) then e1 else Unknown).
Proof.
  revert stack2 i. induction stack1 as [|x1 r1 IH]; intros [|x2 r2] [|i]; simpl;
    try done.
  - intros [= ->] [= ->]. f_equal. destruct (sameJson e1 e2) eqn:Hsame.
    + apply sameJson_eq in Hsame. by rewrite decide_True.
    + rewrite decide_False; [done|]. intros Heq. apply sameJson_eq in Heq. congruence.
  - apply IH.
Qed.

Lemma map_const_Unknown (l : Stack) :
  map (λ _, Unknown) l = replicate (length l) Unknown.
Proof. induction l as [|e r IH]; simpl; [done|]. by rewrite IH. Qed.

(** C10 fails as stated: with stacks of depths 1 and 0 the join has depth
    1, with depths 0 and 1 it has depth 0; no depth common to the two
    stacks (a function of both depths that ignores their order, like
    their minimum or maximum) describes the result. *)
Lemma joinStates_depth_follows_first_state :
  let one := mkState [Literal "0x01"] ∅ in
  stack (joinStates one emptyState) = [Unknown] ∧
  stack (joinStates emptyState one) = [] ∧
  ¬ ∃ common : nat → nat → nat,
      (∀ a b, common a b = common b a) ∧
      ∀ s1 s2, length (stack s1) ≠ length (stack s2) →
               length (stack (joinStates s1 s2))
               = common (length (stack s1)) (length (stack s2)).
Proof.
  split; [done|]. split; [done|]. intros (common & Hsym & Hdepth).
  pose proof (Hdepth (mkState [Literal "0x01"] ∅) emptyState) as H1.
  pose proof (Hdepth emptyState (mkState [Literal "0x01"] ∅)) as H2.
  simpl in H1, H2. rewrite (Hsym 0%nat 1%nat) in H2.
  specialize (H1 ltac:(done)). specialize (H2 ltac:(done)). congruence.
Qed.

(** C10, amended.  [joinStates s1 s2] has an empty memory.  When the two
    stacks differ in depth, its stack is made of [Unknown] only and has
    the depth of the FIRST state's stack.  When the depths are equal, its
    stack has that depth and slot by slot keeps the expression when the
    two are structurally equal and holds [Unknown] otherwise. *)
Theorem joinStates_spec s1 s2 :
  memory (joinStates s1 s2) = ∅ ∧
  (length (stack s1) ≠ length (stack s2) →
   stack (joinStates s1 s2) = replicate (length (stack s1)) Unknown) ∧
  (length (stack s1) = length (stack s2) →
   length (stack (joinStates s1 s2)) = length (stack s1) ∧
   ∀ i e1 e2, stack s1 !! i = Some e1 → stack s2 !! i = Some e2 →
     stack (joinStates s1 s2) !! i = Some (if decide (e1 = e2) then e1 else Unknown)).
Proof.
  unfold joinStates. case_bool_decide as Hlen; simpl.
  - split; [done|]. split; [|done]. intros _. apply map_const_Unknown.
  - split; [done|]. split; [done|]. intros _.
    split; [apply joinStacks_length|apply joinStacks_lookup].
Qed.

(** ** Searching a string *)

Lemma prefix_occurs p s : String.prefix p s = true ↔ ∃ post, s = p +:+ post.
Proof.
  revert s. induction p as [|a p IH]; intros s.
  - split; [intros _; by exists s|by destruct s].
  - destruct s as [|b s]; simpl.
    + split; [discriminate|]. intros [post Hpost]. discriminate Hpost.
    + destruct (ascii_dec a b) as [->|Hne].
      * rewrite IH. split; intros [post Hpost]; exists post.
        -- by rewrite Hpost.
        -- by injection Hpost.
      * split; [discriminate|]. intros [post Hpost]. by injection Hpost.
Qed.

Lemma sliceFrom_app pre rest :
  Js.sliceFrom (String.length pre) (pre +:+ rest) = rest.
Proof. induction pre as [|c pre IH]; [done|]. exact IH. Qed.

Lemma slice_split i s :
  (i ≤ String.length s)%nat →
  s = Js.sliceTo i s +:+ Js.sliceFrom i s ∧ String.length (Js.sliceTo i s) = i.
Proof.
  revert s. induction i as [|i IH]; intros s Hi; [done|].
  destruct s as [|c s]; simpl in *; [lia|].
  destruct (IH s) as [Hs Hl]; [lia|]. split; [|by rewrite Hl].
  change (String c (Js.sliceTo i s) +:+ Js.sliceFrom i s)
    with (String c (Js.sliceTo i s +:+ Js.sliceFrom i s)).
  by rewrite <- Hs.
Qed.

Lemma sliceFrom_add a b s :
  Js.sliceFrom (a + b) s = Js.sliceFrom b (Js.sliceFrom a s).
Proof.
  revert s. induction a as [|a IH]; intros s; [done|].
  destruct s as [|c s]; simpl; [by destruct b|apply IH].
Qed.

Lemma sliceFrom_length i s :
  String.length (Js.sliceFrom i s) = (String.length s - i)%nat.
Proof.
  revert s. induction i as [|i IH]; intros s; simpl; [lia|].
  destruct s as [|c s]; simpl; [done|apply IH].
Qed.

(** [needle] occurs in [s] at position [i]. *)
Definition occursAt (s needle : string) (i : nat) : Prop :=
  ∃ pre post, s = pre +:+ (needle +:+ post) ∧ String.length pre = i.

Lemma occursAt_prefix s needle i :
  occursAt s needle i ↔
  (i ≤ String.length s)%nat ∧ String.prefix needle (Js.sliceFrom i s) = true.
Proof.
  split.
  - intros (pre & post & -> & <-). split.
    + rewrite string_length_app. lia.
    + rewrite sliceFrom_app. apply prefix_occurs. by exists post.
  - intros [Hi [post Hpost]%prefix_occurs].
    destruct (slice_split i s Hi) as [Hs Hl].
    exists (Js.sliceTo i s), post. by rewrite <- Hpost.
Qed.

Lemma indexOfAt_Some needle s pos k :
  Js.indexOfAt needle s pos = Some k →
  ∃ d, k = (pos + d)%nat ∧ (d ≤ String.length s)%nat ∧
       String.prefix needle (Js.sliceFrom d s) = true ∧
       ∀ d', (d' < d)%nat → String.prefix needle (Js.sliceFrom d' s) = false.
Proof.
  revert pos. induction s as [|c s IH]; intros pos; cbn [Js.indexOfAt];
    match goal with
    | |- context [String.prefix needle ?x] => destruct (String.prefix needle x) eqn:Hp
    end.
  - intros [= <-]. exists 0%nat. repeat split; try done; lia.
  - done.
  - intros [= <-]. exists 0%nat. repeat split; try done; lia.
  - intros (d & -> & Hd & Hpre & Hfirst)%IH. exists (S d).
    repeat split; [lia|simpl; lia|done|]. intros [|d'] Hlt; [done|]. apply Hfirst. lia.
Qed.

Lemma indexOfAt_None needle s pos :
  Js.indexOfAt needle s pos = None →
  ∀ d, (d ≤ String.length s)%nat → String.prefix needle (Js.sliceFrom d s) = false.
Proof.
  revert pos. induction s as [|c s IH]; intros pos; cbn [Js.indexOfAt];
    match goal with
    | |- context [String.prefix needle ?x] => destruct (String.prefix needle x) eqn:Hp
    end; try done.
  - intros _ [|d] Hd; [done|simpl in Hd; lia].
  - intros Hnone [|d] Hd; [done|]. simpl. apply (IH _ Hnone). simpl in Hd. lia.
Qed.

(** ** The pattern detector *)

(** The bytecode has the EIP-1167 prefix and, starting at least 40
    characters after the end of that prefix, the suffix. *)
Definition eip1167Shape (bytecode : string) : Prop :=
  let lower := Js.toLowerCase (stripPrefix bytecode) in
  ∃ i j, occursAt lower EIP1167_PREFIX i ∧ occursAt lower EIP1167_SUFFIX j ∧
         (i + String.length EIP1167_PREFIX + 40 ≤ j)%nat.

Lemma detectEip1167_shape bytecode :
  detectEip1167 (stripPrefix bytecode) = true ↔ eip1167Shape bytecode.
Proof.
  unfold detectEip1167, eip1167Shape.
  generalize (Js.toLowerCase (stripPrefix bytecode)). intros lower. simpl.
  unfold Js.indexOf. rewrite decide_True by lia.
  change (Js.sliceFrom 0 lower) with lower. split.
  - destruct (Js.indexOfAt EIP1167_PREFIX lower 0) as [idx|] eqn:Hidx; [|done].
    apply indexOfAt_Some in Hidx as (d & -> & Hd & Hpre & _). simpl.
    case_decide as Hfrom.
    + destruct (Js.indexOfAt EIP1167_SUFFIX _ _) as [j|] eqn:Hj; [|done].
      intros _. apply indexOfAt_Some in Hj as (e & -> & He & Hsuf & _).
      rewrite <- sliceFrom_add in Hsuf. rewrite sliceFrom_length in He.
      exists d, (d + 20 + 40 + e)%nat.
      split; [by apply occursAt_prefix|]. split; [|lia].
      apply occursAt_prefix. split; [lia|done].
    + done.
  - intros (i & j & [Hi Hpre]%occursAt_prefix & [Hj Hsuf]%occursAt_prefix & Hij).
    destruct (Js.indexOfAt EIP1167_PREFIX lower 0) as [idx|] eqn:Hidx.
    + apply indexOfAt_Some in Hidx as (d & -> & Hd & _ & Hfirst). simpl.
      assert (d ≤ i)%nat as Hdi.
      { destruct (decide (d ≤ i)%nat); [done|].
        rewrite Hfirst in Hpre by lia. done. }
      rewrite decide_True by lia.
      destruct (Js.indexOfAt EIP1167_SUFFIX _ _) as [k|] eqn:Hk; [done|].
      pose proof (indexOfAt_None _ _ _ Hk (j - (d + 20 + 40))%nat) as Hnone.
      rewrite <- sliceFrom_add, sliceFrom_length in Hnone.
      replace (d + 20 + 40 + (j - (d + 20 + 40)))%nat with j in Hnone by lia.
      rewrite Hnone in Hsuf by lia. done.
    + rewrite (indexOfAt_None _ _ _ Hidx i Hi) in Hpre. done.
Qed.

Definition slotOf (site : DelegatecallSite) : option string :=
  storageSlotLiteral (classification site).

(** The site's storage-slot literal is [slot], letter case apart (the
    detector lower-cases the literal before it compares). *)
Definition hasSlot (slot : string) (site : DelegatecallSite) : Prop :=
  ∃ lit, slotOf site = Some lit ∧ Js.toLowerCase lit = slot.







(** *** The rule of the detector

    The claimed rule, with the comparison of slot literals left open:
    [sameSlot] is used where a literal is tested against the EIP-1967 or
    UUPS slot, [sameFacet] where the literals of the storage sites are
    counted. *)





Section PatternRule.

Variables sameSlot sameFacet : string → string → Prop.




End PatternRule.






(** For literals that are already in lower case, [hasSlot] is equality. *)
Lemma hasSlot_exact slot site :
  (∀ lit, slotOf site = Some lit → Js.toLowerCase lit = lit) →
  hasSlot slot site ↔ slotOf site = Some slot.
Proof.
  intros Hlower. unfold hasSlot. split.
  - intros (lit & Hlit & <-). by rewrite (Hlower _ Hlit).
  - intros Hslot. exists slot. split; [done|]. by apply Hlower.
Qed.

Lemma toLowerCase_app a b :
  Js.toLowerCase (a +:+ b) = Js.toLowerCase a +:+ Js.toLowerCase b.
Proof.
  induction a as [|c a IH]; [done|].
  change (String c a +:+ b) with (String c (a +:+ b)). simpl. by rewrite IH.
Qed.

Lemma hexByte_lower_checked :
  Forall (λ b, Js.toLowerCase (hexByte (JsInt b)) = hexByte (JsInt b)) (seqZ 0 256).
Proof. apply (bool_decide_unpack _). vm_compute. reflexivity. Qed.

(** The immediate of a PUSH over proper bytes, the only source of
    literals, is in lower case. *)
Lemma pushData_lower bs :
  Forall (λ b, 0 ≤ b ≤ 255) bs →
  Js.toLowerCase ("0x" +:+ hexJoin (map JsInt bs)) = "0x" +:+ hexJoin (map JsInt bs).
Proof.
  intros Hbs. rewrite toLowerCase_app. f_equal.
  induction Hbs as [|b bs Hb _ IH]; [done|]. simpl.
  rewrite toLowerCase_app, IH. f_equal.
  pose proof hexByte_lower_checked as H. rewrite Forall_forall in H.
  apply H, elem_of_seqZ. lia.
Qed.

(** * Further properties of the code *)

Set Warnings "-clear-no-such-hyp".

(** ** The disassembler: bounds and order *)

Lemma OPCODES_pushBytes_le z info n :
  OPCODES !! z = Some info → pushBytes info = Some n → 1 ≤ n ≤ 32.
Proof.
  intros Hinfo Hn. destruct (OPCODES_entries z info Hinfo) as (_ & Hpush & _).
  rewrite Hn in Hpush. case_bool_decide; [|done]. injection Hpush as ->. lia.
Qed.

Lemma decodeStep_bound bytes p instr p' :
  decodeStep bytes p = (instr, p') → pc instr ≤ p + 33 ∧ p' ≤ p + 33.
Proof.
  unfold decodeStep. generalize (default (JsInt 0) (bytes !! Z.to_nat p)).
  intros [|z]; cbn [lookupOpcode].
  { intros [= <- <-]. cbn [pc]. lia. }
  destruct (OPCODES !! z) as [info|] eqn:Hinfo; [|intros [= <- <-]; cbn [pc]; lia].
  destruct (pushBytes info) as [n|] eqn:Hn; [|intros [= <- <-]; cbn [pc]; lia].
  pose proof (OPCODES_pushBytes_le z info n Hinfo Hn).
  destruct (Z.ltb_spec 0 n); intros [= <- <-]; cbn [pc]; lia.
Qed.

Lemma decodeLoop_bounds fuel bytes p instrs :
  0 ≤ p →
  decodeLoop fuel bytes p = Some instrs →
  (length instrs ≤ Z.to_nat (Z.of_nat (length bytes) - p))%nat ∧
  Forall (λ i, pc i ≤ Z.of_nat (length bytes) + 32) instrs.
Proof.
  revert p instrs. induction fuel as [|fuel IH]; intros p instrs Hp; simpl.
  - destruct (_ <? _); [done|]. intros [= <-]. split; [simpl; lia|constructor].
  - destruct (Z.ltb_spec p (Z.of_nat (length bytes))) as [Hlt|Hge];
      [|intros [= <-]; split; [simpl; lia|constructor]].
    destruct (decodeStep bytes p) as [instr p'] eqn:Hstep.
    pose proof (decodeStep_advance _ _ _ _ Hstep) as [Hadv _].
    pose proof (decodeStep_bound _ _ _ _ Hstep) as [Hpc _].
    destruct (decodeLoop fuel bytes p') as [rest|] eqn:Hrest; [|done].
    intros [= <-]. destruct (IH p' rest) as [Hlen Hall]; [lia|done|].
    split; [simpl; lia|]. constructor; [lia|done].
Qed.

(** X1.  On every input string the disassembler returns: its loop ends
    within one turn per byte.  There are at most as many instructions as
    bytes, their program counters never decrease, and each lies between
    0 and the number of bytes plus 32 (a truncated PUSH32 at the last
    byte points that far). *)
Theorem decodeBytecode_bounds bytecode :
  let bytes := parseBytes (stripPrefix bytecode) in
  ∃ instrs,
    decodeBytecode bytecode = Some instrs ∧
    (length instrs ≤ length bytes)%nat ∧
    StronglySorted pcLe instrs ∧
    Forall (λ i, 0 ≤ pc i ≤ Z.of_nat (length bytes) + 32) instrs.
Proof.
  intros bytes. destruct (decodeBytecode_total bytecode) as [instrs Hdec].
  exists instrs. split; [done|].
  pose proof (decodeLoop_sorted _ _ _ _ Hdec) as [Hge Hsorted].
  assert (0 ≤ 0) as H0 by lia.
  pose proof (decodeLoop_bounds _ _ 0 _ H0 Hdec) as [Hlen Hle].
  fold bytes in Hlen, Hle. split; [lia|]. split; [done|].
  apply Forall_forall. intros i Hi. rewrite Forall_forall in Hge, Hle.
  split; [by apply Hge|by apply Hle].
Qed.

(** ** Hex digits: printing and reading back *)

Lemma hexByte_parse_checked :
  Forall (λ b, parseBytes (hexByte (JsInt b)) = [JsInt b]) (seqZ 0 256).
Proof. apply (bool_decide_unpack _). vm_compute. reflexivity. Qed.

Lemma hexByte_two_chars b :
  0 ≤ b ≤ 255 →
  ∃ c1 c2, hexByte (JsInt b) = String c1 (String c2 EmptyString) ∧
           Num.parseInt (String c1 (String c2 EmptyString)) 16 = JsInt b.
Proof.
  intros Hb. pose proof hexByte_parse_checked as H. rewrite Forall_forall in H.
  specialize (H b ltac:(apply elem_of_seqZ; lia)).
  pose proof (hexByte_length b Hb) as Hlen.
  destruct (hexByte (JsInt b)) as [|c1 [|c2 [|c3 s]]]; try done.
  exists c1, c2. split; [done|]. by injection H.
Qed.

(** X2.  Reading back what the disassembler prints: the hex string that
    [decodeBytecode] builds for a run of bytes 0..255 (the body of a
    [pushData]) is parsed by the disassembler's own byte reader into the
    same bytes. *)
Theorem parseBytes_hexJoin bs :
  Forall (λ b, 0 ≤ b ≤ 255) bs →
  parseBytes (hexJoin (map JsInt bs)) = map JsInt bs.
Proof.
  induction 1 as [|b bs Hb _ IH]; [done|]. simpl.
  destruct (hexByte_two_chars b Hb) as (c1 & c2 & -> & Hparse).
  change (String c1 (String c2 EmptyString) +:+ hexJoin (map JsInt bs))
    with (String c1 (String c2 (hexJoin (map JsInt bs)))).
  cbn [parseBytes]. by rewrite Hparse, IH.
Qed.

Lemma parseBytes_hexJoin_witness :
  parseBytes (hexJoin (map JsInt [0; 0x0a; 0xf4; 255])) = map JsInt [0; 0x0a; 0xf4; 255].
Proof. apply parseBytes_hexJoin. repeat constructor; lia. Defined.

(** ** The symbolic stack: popping, DUP and SWAP *)

Lemma stack_snoc_cases (stack : Stack) :
  stack = [] ∨ ∃ init x, stack = init ++ [x].
Proof.
  destruct stack as [|e stack] using rev_ind; [by left|]. right. by eexists _, _.
Qed.

Lemma pop_closed_form n stack :
  pop n stack =
  (replicate (n - length stack) Unknown ++ drop (length stack - n) stack,
   take (length stack - n) stack).
Proof.
  revert stack. induction n as [|n IH]; intros stack.
  - simpl. rewrite Nat.sub_0_r, drop_all, firstn_all. done.
  - cbn [pop]. unfold pop1.
    destruct (stack_snoc_cases stack) as [->|(init & x & ->)].
    + simpl. rewrite IH. simpl. rewrite Nat.sub_0_r, app_nil_r.
      by rewrite <- replicate_S_end.
    + rewrite last_snoc, removelast_last, IH. simpl. rewrite length_app. simpl.
      replace (n - length init)%nat with (S n - (length init + 1))%nat by lia.
      replace (length init + 1 - S n)%nat with (length init - n)%nat by lia.
      rewrite drop_app_le, take_app_le by lia. by rewrite <- app_assoc.
Qed.

(** X3.  The closure [pop(n)] never fails.  It removes the top
    [min n depth] slots and returns exactly [n] expressions in stack
    order (deepest first): the removed slots, preceded by one Unknown for
    each slot that the stack was short of. *)
Theorem pop_returns_n_expressions n stack :
  let '(res, rest) := pop n stack in
  length res = n ∧
  rest = take (length stack - n) stack ∧
  res = replicate (n - length stack) Unknown ++ drop (length stack - n) stack ∧
  (length stack ≤ n → rest = [])%nat.
Proof.
  rewrite pop_closed_form. repeat split.
  - rewrite length_app, length_replicate, length_drop. lia.
  - intros Hshort. replace (length stack - n)%nat with 0%nat by lia. done.
Qed.

Lemma dup_mnemonics_checked :
  Forall (λ n,
    Js.startsWith (numbered "DUP" n) "PUSH" = false ∧
    Js.startsWith (numbered "DUP" n) "DUP" = true ∧
    Num.parseInt (Js.sliceFrom 3 (numbered "DUP" n)) 10 = JsInt n ∧
    (info_name <$> OPCODES !! (0x7f + n)) = Some (numbered "DUP" n)) (seqZ 1 16).
Proof. apply (bool_decide_unpack _). vm_compute. reflexivity. Qed.

Lemma swap_mnemonics_checked :
  Forall (λ n,
    Js.startsWith (numbered "SWAP" n) "PUSH" = false ∧
    Js.startsWith (numbered "SWAP" n) "DUP" = false ∧
    Js.startsWith (numbered "SWAP" n) "SWAP" = true ∧
    Num.parseInt (Js.sliceFrom 4 (numbered "SWAP" n)) 10 = JsInt n ∧
    (info_name <$> OPCODES !! (0x8f + n)) = Some (numbered "SWAP" n)) (seqZ 1 16).
Proof. apply (bool_decide_unpack _). vm_compute. reflexivity. Qed.

(** X4.  DUP-N, for the mnemonics DUP1..DUP16 of the table (bytes
    0x80..0x8f), in both transfer functions: the stack grows by one slot,
    which is a copy of the N-th slot from the top, or Unknown when the
    stack has fewer than N slots. *)
Theorem dup_copies_nth_from_top n pushData stack :
  1 ≤ n ≤ 16 →
  let op := numbered "DUP" n in
  (info_name <$> OPCODES !! (0x7f + n)) = Some op ∧
  Tracer.applyInstructionToStack op pushData stack
    = Linear.applyInstructionToStack op pushData stack ∧
  Tracer.applyInstructionToStack op pushData stack
    = stack ++ [default Unknown (reverse stack !! Z.to_nat (n - 1))].
Proof.
  intros Hn op. pose proof dup_mnemonics_checked as H. rewrite Forall_forall in H.
  destruct (H n) as (Hpush & Hdup & Hparse & Htable); [apply elem_of_seqZ; lia|].
  split; [done|].
  unfold Tracer.applyInstructionToStack, Linear.applyInstructionToStack, op.
  rewrite Hpush, Hdup, Hparse. split; [done|]. unfold dupAt. f_equal. f_equal.
  destruct (Z.leb_spec 0 (Z.of_nat (length stack) - n)) as [Hdeep|Hshallow].
  - rewrite reverse_lookup by lia. f_equal. f_equal. lia.
  - rewrite (lookup_ge_None_2 (reverse stack)); [done|]. rewrite length_reverse. lia.
Qed.

Lemma dup_copies_nth_from_top_witness :
  let op := numbered "DUP" 2 in
  let stack := [Literal "0x01"; Environment CALLER; Unknown] in
  (info_name <$> OPCODES !! (0x7f + 2)) = Some op ∧
  Tracer.applyInstructionToStack op None stack
    = Linear.applyInstructionToStack op None stack ∧
  Tracer.applyInstructionToStack op None stack
    = stack ++ [default Unknown (reverse stack !! Z.to_nat (2 - 1))].
Proof. apply (dup_copies_nth_from_top 2). lia. Defined.

Lemma swapAt_spec n (stack : list StackExpression) :
  1 ≤ n →
  let top := (length stack - 1)%nat in
  let other := (length stack - 1 - Z.to_nat n)%nat in
  length (swapAt (JsInt n) stack) = length stack ∧
  (Z.of_nat (length stack) ≤ n → swapAt (JsInt n) stack = stack) ∧
  (n < Z.of_nat (length stack) →
   swapAt (JsInt n) stack !! top = stack !! other ∧
   swapAt (JsInt n) stack !! other = stack !! top ∧
   ∀ i, i ≠ top → i ≠ other → swapAt (JsInt n) stack !! i = stack !! i).
Proof.
  intros Hn top other. unfold swapAt, Stack.
  destruct (Z.leb_spec 0 (Z.of_nat (length stack) - 1)) as [Htop|Htop];
    destruct (Z.leb_spec 0 (Z.of_nat (length stack) - 1 - n)) as [Hother|Hother];
    cbn [andb]; try (split; [done|]; split; [done|]; intros; lia).
  replace (Z.to_nat (Z.of_nat (length stack) - 1)) with top by lia.
  replace (Z.to_nat (Z.of_nat (length stack) - 1 - n)) with other by lia.
  destruct (lookup_lt_is_Some_2 stack top) as [t Ht]; [lia|].
  destruct (lookup_lt_is_Some_2 stack other) as [o Ho]; [lia|].
  rewrite Ht, Ho. split; [by rewrite !length_insert|]. split; [lia|]. intros _.
  assert (other ≠ top) by lia.
  repeat split.
  - rewrite list_lookup_insert_ne by done.
    rewrite list_lookup_insert_eq by lia. done.
  - rewrite list_lookup_insert_eq by (rewrite length_insert; lia). done.
  - intros i Hi1 Hi2. by rewrite !list_lookup_insert_ne.
Qed.

(** X5.  SWAP-N, for the mnemonics SWAP1..SWAP16 of the table (bytes
    0x90..0x9f), in both transfer functions: the depth of the stack is
    kept; a stack of at most N slots is left as it is; otherwise the top
    slot and the slot N below it change places and no other slot moves.
    Applying the same SWAP twice gives the stack back. *)
Theorem swap_exchanges_top_and_nth n pushData (stack : list StackExpression) :
  1 ≤ n ≤ 16 →
  let op := numbered "SWAP" n in
  let swapped := Tracer.applyInstructionToStack op pushData stack in
  let top := (length stack - 1)%nat in
  let other := (length stack - 1 - Z.to_nat n)%nat in
  (info_name <$> OPCODES !! (0x8f + n)) = Some op ∧
  swapped = Linear.applyInstructionToStack op pushData stack ∧
  length swapped = length stack ∧
  (Z.of_nat (length stack) ≤ n → swapped = stack) ∧
  (n < Z.of_nat (length stack) →
   swapped !! top = stack !! other ∧ swapped !! other = stack !! top ∧
   ∀ i, i ≠ top → i ≠ other → swapped !! i = stack !! i) ∧
  Tracer.applyInstructionToStack op pushData swapped = stack.
Proof.
  intros Hn op swapped top other.
  pose proof swap_mnemonics_checked as H. rewrite Forall_forall in H.
  destruct (H n) as (Hpush & Hdup & Hswap & Hparse & Htable); [apply elem_of_seqZ; lia|].
  split; [done|].
  assert (∀ s, Tracer.applyInstructionToStack op pushData s = swapAt (JsInt n) s) as Happly.
  { intros s. unfold Tracer.applyInstructionToStack, op.
    by rewrite Hpush, Hdup, Hswap, Hparse. }
  split.
  { unfold swapped. rewrite Happly. unfold Linear.applyInstructionToStack, op.
    by rewrite Hpush, Hdup, Hswap, Hparse. }
  unfold swapped. rewrite !Happly.
  destruct (swapAt_spec n stack ltac:(lia)) as (Hlen & Hshort & Hdeep).
  split; [done|]. split; [done|]. split; [done|].
  destruct (decide (n < Z.of_nat (length stack))) as [Hlt|Hge];
    [|rewrite !Hshort by lia; done].
  destruct (Hdeep Hlt) as (Ht & Ho & Hrest).
  destruct (swapAt_spec n (swapAt (JsInt n) stack) ltac:(lia)) as (_ & _ & Hdeep').
  rewrite Hlen in Hdeep'. destruct (Hdeep' Hlt) as (Ht' & Ho' & Hrest').
  unfold Stack in *. apply list_eq. intros i.
  destruct (decide (i = length stack - 1)%nat) as [->|Hi1]; [by rewrite Ht', Ho|].
  destruct (decide (i = length stack - 1 - Z.to_nat n)%nat) as [->|Hi2];
    [by rewrite Ho', Ht|].
  by rewrite Hrest', Hrest.
Qed.

Lemma swap_exchanges_top_and_nth_witness :
  let stack := [Literal "0x01"; Environment CALLER; Unknown] in
  let op := numbered "SWAP" 2 in
  let swapped := Tracer.applyInstructionToStack op None stack in
  let top := (length stack - 1)%nat in
  let other := (length stack - 1 - Z.to_nat 2)%nat in
  (info_name <$> OPCODES !! (0x8f + 2)) = Some op ∧
  swapped = Linear.applyInstructionToStack op None stack ∧
  length swapped = length stack ∧
  (Z.of_nat (length stack) ≤ 2 → swapped = stack) ∧
  (2 < Z.of_nat (length stack) →
   swapped !! top = stack !! other ∧ swapped !! other = stack !! top ∧
   ∀ i, i ≠ top → i ≠ other → swapped !! i = stack !! i) ∧
  Tracer.applyInstructionToStack op None swapped = stack.
Proof. apply (swap_exchanges_top_and_nth 2). lia. Defined.

(** ** Where the two transfer functions agree *)

(** The mnemonics on which the tracer's and the linear mode's transfer
    functions do the same. *)
Definition sharedMnemonics : list string :=
  ["CALLDATALOAD"; "SLOAD"; "CALLER"; "ADDRESS"; "ORIGIN"] ++ binaryOps ++ ["JUMP"].

Definition sameTransfer (op : string) : bool :=
  Js.startsWith op "PUSH" || Js.startsWith op "DUP" || Js.startsWith op "SWAP"
  || bool_decide (op ∈ sharedMnemonics).

Lemma transfer_agree_JUMP pushData stack :
  Tracer.applyInstructionToStack "JUMP" pushData stack
  = Linear.applyInstructionToStack "JUMP" pushData stack.
Proof.
  assert (Tracer.applyInstructionToStack "JUMP" pushData stack
          = (pop 1 stack).2 ++ replicate 0 Unknown) as -> by (vm_compute; reflexivity).
  assert (Linear.applyInstructionToStack "JUMP" pushData stack
          = take (Z.to_nat (Z.max 0 (Z.of_nat (length stack) - 1))) stack) as ->
    by (vm_compute; reflexivity).
  rewrite pop_closed_form. simpl. rewrite app_nil_r. f_equal. lia.
Qed.

Lemma transfer_agree op pushData stack :
  sameTransfer op = true →
  Tracer.applyInstructionToStack op pushData stack
  = Linear.applyInstructionToStack op pushData stack.
Proof.
  unfold sameTransfer.
  destruct (Js.startsWith op "PUSH") eqn:HP.
  { intros _. unfold Tracer.applyInstructionToStack, Linear.applyInstructionToStack.
    by rewrite HP. }
  destruct (Js.startsWith op "DUP") eqn:HD.
  { intros _. unfold Tracer.applyInstructionToStack, Linear.applyInstructionToStack.
    by rewrite HP, HD. }
  destruct (Js.startsWith op "SWAP") eqn:HS.
  { intros _. unfold Tracer.applyInstructionToStack, Linear.applyInstructionToStack.
    by rewrite HP, HD, HS. }
  cbn [orb]. intros Hin%bool_decide_eq_true. clear HP HD HS.
  unfold sharedMnemonics, binaryOps in Hin. cbn [app] in Hin.
  repeat (apply elem_of_cons in Hin as [->|Hin];
          [first [apply transfer_agree_JUMP | vm_compute; reflexivity]|]).
  by apply elem_of_nil in Hin.
Qed.

Definition threeUnknowns : Stack := [Unknown; Unknown; Unknown].

Lemma transfer_differ_checked :
  map_Forall (λ _ info,
    sameTransfer (info_name info) = true ∨
    Tracer.applyInstructionToStack (info_name info) None threeUnknowns
      ≠ Linear.applyInstructionToStack (info_name info) None threeUnknowns)
  OPCODES.
Proof. apply (bool_decide_unpack _). vm_compute. reflexivity. Qed.

(** X6.  For every opcode of the table, the tracer's transfer function
    and the linear mode's transfer function give the same stack on all
    inputs exactly for PUSH1..32, DUP1..16, SWAP1..16, CALLDATALOAD,
    SLOAD, CALLER, the binary operations of the table and JUMP; on every
    other opcode of the table (STOP, ISZERO, MLOAD, MSTORE, the calls,
    DELEGATECALL itself, ...) they differ already on a stack of three
    Unknown slots. *)
Theorem transfer_functions_agree_exactly_on byte info :
  OPCODES !! byte = Some info →
  (∀ pushData stack,
     Tracer.applyInstructionToStack (info_name info) pushData stack
     = Linear.applyInstructionToStack (info_name info) pushData stack)
  ↔ sameTransfer (info_name info) = true.
Proof.
  intros Hinfo. split.
  - intros Hall. destruct (transfer_differ_checked byte info Hinfo) as [?|Hne]; [done|].
    destruct Hne. apply Hall.
  - intros Hsame pushData stack. by apply transfer_agree.
Qed.

Lemma transfer_functions_agree_exactly_on_witness :
  (∀ pushData stack,
     Tracer.applyInstructionToStack "DELEGATECALL" pushData stack
     = Linear.applyInstructionToStack "DELEGATECALL" pushData stack)
  ↔ sameTransfer "DELEGATECALL" = true.
Proof.
  apply (transfer_functions_agree_exactly_on 0xf4 (mkInfo "DELEGATECALL" 6 1 None)).
  vm_compute. reflexivity.
Defined.

(** ** The classifier's output *)

Lemma normalize_prefixed v : Js.startsWith (normalize v) "0x" = true.
Proof. apply prefix_occurs. by eexists. Qed.

Lemma normalize_fixed v : Js.startsWith v "0x" = true → normalize v = v.
Proof.
  unfold normalize. intros H. rewrite H.
  apply prefix_occurs in H as [post ->]. done.
Qed.

(** X7.  What a classification carries, for every target expression: an
    address literal exactly when the type is [hardcoded]; a slot literal
    exactly when the expression is a storage read at a literal slot, and
    then the type is [storage]; never both; each literal starts with [0x]
    and is left unchanged by [normalize]; and the type follows the kind
    of the expression (only a literal can be [hardcoded]). *)
Theorem classification_fields_follow_type expr :
  let c := classifyTarget expr in
  (is_Some (addressLiteral c) ↔ type c = hardcoded) ∧
  (is_Some (storageSlotLiteral c) ↔ ∃ v, expr = Storage (Literal v)) ∧
  (is_Some (storageSlotLiteral c) → type c = storage ∧ addressLiteral c = None) ∧
  (∀ lit, addressLiteral c = Some lit ∨ storageSlotLiteral c = Some lit →
          Js.startsWith lit "0x" = true ∧ normalize lit = lit) ∧
  (type c = hardcoded → ∃ v, expr = Literal v) ∧
  (type c = storage ↔ ∃ e, expr = Storage e) ∧
  (type c = calldata ↔ ∃ e, expr = Calldata e) ∧
  (type c = dynamic ↔ ∃ o args, expr = Op o args).
Proof.
  assert (∀ v, normalize (normalize v) = normalize v) as Hidem
    by (intros v; apply normalize_fixed, normalize_prefixed).
  pose proof normalize_prefixed as Hpre.
  destruct expr as [v|e|e|source|o args|]; cbn [classifyTarget].
  - destruct (_ || _); cbn [type addressLiteral storageSlotLiteral];
      unfold is_Some; repeat split; naive_solver.
  - destruct e as [v| | | | |]; cbn [extractStorageSlotLiteral];
      try rewrite (bool_decide_eq_true_2 (normalize v ≠ EmptyString)) by done;
      cbn [type addressLiteral storageSlotLiteral];
      unfold is_Some; repeat split; naive_solver.
  - cbn [type addressLiteral storageSlotLiteral]; unfold is_Some; repeat split; naive_solver.
  - cbn [type addressLiteral storageSlotLiteral]; unfold is_Some; repeat split; naive_solver.
  - cbn [type addressLiteral storageSlotLiteral]; unfold is_Some; repeat split; naive_solver.
  - cbn [type addressLiteral storageSlotLiteral]; unfold is_Some; repeat split; naive_solver.
Qed.

(** ** The join as an operation on stacks *)

Lemma joinStacks_refl stack : joinStacks stack stack = stack.
Proof.
  induction stack as [|e stack IH]; [done|]. simpl. rewrite IH.
  by rewrite (proj2 (sameJson_eq e e) eq_refl).
Qed.

Lemma sameJson_sym e1 e2 : sameJson e1 e2 = sameJson e2 e1.
Proof.
  destruct (sameJson e1 e2) eqn:H12, (sameJson e2 e1) eqn:H21; try done.
  - apply sameJson_eq in H12 as ->. by rewrite (proj2 (sameJson_eq e2 e2) eq_refl) in H21.
  - apply sameJson_eq in H21 as ->. by rewrite (proj2 (sameJson_eq e1 e1) eq_refl) in H12.
Qed.

Lemma joinStacks_comm stack1 stack2 :
  length stack1 = length stack2 → joinStacks stack1 stack2 = joinStacks stack2 stack1.
Proof.
  revert stack2. induction stack1 as [|e1 r1 IH]; intros [|e2 r2] Hlen; try done.
  simpl. rewrite (IH r2) by (simpl in Hlen; lia). rewrite (sameJson_sym e2 e1).
  destruct (sameJson e1 e2) eqn:H; [|done]. by apply sameJson_eq in H as ->.
Qed.

Lemma joinSlot_assoc e1 e2 e3 :
  (if sameJson (if sameJson e1 e2 then e1 else Unknown) e3
   then (if sameJson e1 e2 then e1 else Unknown) else Unknown)
  = (if sameJson e1 (if sameJson e2 e3 then e2 else Unknown) then e1 else Unknown).
Proof.
  destruct (sameJson e1 e2) eqn:H12, (sameJson e2 e3) eqn:H23;
    try apply sameJson_eq in H12 as ->; try apply sameJson_eq in H23 as ->.
  - by rewrite (proj2 (sameJson_eq e3 e3) eq_refl).
  - rewrite H23. destruct (sameJson e2 Unknown) eqn:HU; [|done].
    apply sameJson_eq in HU as ->. done.
  - rewrite H12. destruct (sameJson Unknown e3) eqn:HU; [|done].
    by apply sameJson_eq in HU as <-.
  - destruct (sameJson Unknown e3) eqn:HU, (sameJson e1 Unknown) eqn:HU'; try done.
    + by apply sameJson_eq in HU' as ->.
    + by apply sameJson_eq in HU' as ->.
Qed.

Lemma joinStacks_assoc stack1 stack2 stack3 :
  length stack1 = length stack2 → length stack2 = length stack3 →
  joinStacks (joinStacks stack1 stack2) stack3
  = joinStacks stack1 (joinStacks stack2 stack3).
Proof.
  revert stack2 stack3. induction stack1 as [|e1 r1 IH];
    intros [|e2 r2] [|e3 r3] H12 H23; try done.
  cbn [joinStacks]. rewrite joinSlot_assoc. f_equal.
  apply IH; simpl in *; lia.
Qed.

(** X8.  On stacks, [joinStates] is idempotent, and on states of equal
    stack depth it is commutative and associative: joining the
    predecessors of a block in any order gives the same stack when their
    depths agree.  (With different depths the result follows the first
    argument, so neither law holds there.) *)
Theorem joinStates_semilattice_on_equal_depth s1 s2 s3 :
  stack (joinStates s1 s1) = stack s1 ∧
  (length (stack s1) = length (stack s2) →
   joinStates s1 s2 = joinStates s2 s1) ∧
  (length (stack s1) = length (stack s2) → length (stack s2) = length (stack s3) →
   joinStates (joinStates s1 s2) s3 = joinStates s1 (joinStates s2 s3)).
Proof.
  unfold joinStates. split; [|split].
  - rewrite bool_decide_eq_false_2 by (intros H; by apply H). simpl.
    apply joinStacks_refl.
  - intros Hlen. rewrite !bool_decide_eq_false_2 by (intros H; apply H; done).
    by rewrite joinStacks_comm.
  - intros H12 H23.
    rewrite (bool_decide_eq_false_2 (length (stack s1) ≠ length (stack s2)))
      by (intros H; by apply H).
    rewrite (bool_decide_eq_false_2 (length (stack s2) ≠ length (stack s3)))
      by (intros H; by apply H).
    simpl. rewrite !joinStacks_length.
    rewrite !bool_decide_eq_false_2 by (intros H; apply H; congruence).
    by rewrite joinStacks_assoc.
Qed.

(** ** The pattern detector and the order of the sites *)

Lemma detectDiamondPattern_perm sites sites' :
  sites ≡ₚ sites' → detectDiamondPattern sites = detectDiamondPattern sites'.
Proof.
  intros Hperm. unfold detectDiamondPattern.
  rewrite (Permutation_length Hperm).
  assert (filter (λ s, type (classification s) = storage) sites
          ≡ₚ filter (λ s, type (classification s) = storage) sites') as Hf
    by (by apply filter_Permutation).
  rewrite (Permutation_length Hf).
  assert ((list_to_set (omap (λ s, storageSlotLiteral (classification s))
             (filter (λ s, type (classification s) = storage) sites)) : gset string)
          = list_to_set (omap (λ s, storageSlotLiteral (classification s))
             (filter (λ s, type (classification s) = storage) sites'))) as ->; [|done].
  apply list_to_set_perm_L. by apply omap_Permutation.
Qed.

(** X9.  The pattern given to a site does not depend on the order of the
    sites: [detectProxyPatterns] on a permutation of the sites returns
    the same enriched sites, permuted the same way. *)
Theorem detectProxyPatterns_order_independent bytecode sites sites' :
  sites ≡ₚ sites' →
  detectProxyPatterns bytecode sites ≡ₚ detectProxyPatterns bytecode sites'.
Proof.
  intros Hperm. unfold detectProxyPatterns.
  rewrite (detectDiamondPattern_perm _ _ Hperm).
  assert ((list_to_set (omap (λ s, Js.toLowerCase <$> storageSlotLiteral (classification s))
             sites) : gset string)
          = list_to_set (omap (λ s, Js.toLowerCase <$> storageSlotLiteral (classification s))
             sites')) as ->.
  { apply list_to_set_perm_L. by apply omap_Permutation. }
  by apply Permutation_map.
Qed.

Lemma detectProxyPatterns_order_independent_witness :
  let a := mkSite "site-1" 1 "linear" Unknown (classifyTarget Unknown) None in
  let b := mkSite "site-2" 2 "linear" (Storage (Literal "0x01"))
             (classifyTarget (Storage (Literal "0x01"))) None in
  detectProxyPatterns "0x" [a; b] ≡ₚ detectProxyPatterns "0x" [b; a].
Proof. apply detectProxyPatterns_order_independent. apply perm_swap. Defined.

(** ** The summary of detected patterns *)

Definition hasPatternName (n : string) (site : DelegatecallSite) : Prop :=
  name <$> patternMatch site = Some n.

Global Instance hasPatternName_dec n site : Decision (hasPatternName n site).
Proof. unfold hasPatternName. apply _. Defined.

(** The state of the counting loop after the sites [seen]. *)
Definition countsOf (seen : list DelegatecallSite) (counts : list ProxyPatternSummary)
    : Prop :=
  NoDup (map summary_name counts) ∧
  ∀ n c, mkSummary n c ∈ counts ↔
         c = Z.of_nat (length (filter (hasPatternName n) seen)) ∧ 0 < c.

Lemma bump_names n counts :
  map summary_name (bump n counts) =
  if bool_decide (n ∈ map summary_name counts) then map summary_name counts
  else map summary_name counts ++ [n].
Proof.
  induction counts as [|[m c] counts IH]; simpl.
  - done.
  - destruct (decide (m = n)) as [->|Hmn].
    + rewrite bool_decide_eq_true_2 by done.
      by rewrite bool_decide_eq_true_2 by (by left).
    + rewrite bool_decide_eq_false_2 by done. simpl. rewrite IH.
      destruct (decide (n ∈ map summary_name counts)) as [Hin|Hnot].
      * rewrite bool_decide_eq_true_2 by done.
        by rewrite bool_decide_eq_true_2 by (by right).
      * rewrite bool_decide_eq_false_2 by done.
        rewrite bool_decide_eq_false_2; [done|].
        intros [->|?]%elem_of_cons; done.
Qed.

Lemma names_elem (counts : list ProxyPatternSummary) n :
  n ∈ map summary_name counts ↔ ∃ c, mkSummary n c ∈ counts.
Proof.
  rewrite list_elem_of_fmap. split.
  - intros ([m c] & -> & Hin). by exists c.
  - intros [c Hin]. by exists (mkSummary n c).
Qed.

Lemma bump_elem n counts m c :
  NoDup (map summary_name counts) →
  (mkSummary m c ∈ bump n counts ↔
   (m ≠ n ∧ mkSummary m c ∈ counts) ∨
   (m = n ∧ ((∃ c0, mkSummary n c0 ∈ counts ∧ c = c0 + 1) ∨
             ((n ∉ map summary_name counts) ∧ c = 1)))).
Proof.
  induction counts as [|[k c0] counts IH]; intros Hnd; cbn [bump summary_name].
  - simpl. rewrite list_elem_of_singleton.
    split; [intros [= -> ->]|]; [|intros [[_ ?%elem_of_nil]|[-> [(c1 & ?%elem_of_nil & _)|[_ ->]]]]; done].
    right. split; [done|]. right. split; [|done]. by intros ?%elem_of_nil.
  - apply NoDup_cons in Hnd as [Hk Hnd]. specialize (IH Hnd).
    cbn [summary_name] in Hk. rewrite names_elem in Hk. rewrite names_elem in IH.
    rewrite names_elem.
    assert (∀ x, mkSummary k x ∉ counts) as Hk' by (intros x Hx; apply Hk; by exists x).
    destruct (decide (k = n)) as [->|Hkn].
    + rewrite bool_decide_eq_true_2 by done.
      setoid_rewrite elem_of_cons. naive_solver.
    + rewrite bool_decide_eq_false_2 by done.
      setoid_rewrite elem_of_cons. rewrite IH. clear IH. naive_solver.
Qed.

Lemma countsOf_step seen counts site :
  countsOf seen counts →
  countsOf (seen ++ [site])
    match patternMatch site with
    | None => counts
    | Some p => bump (name p) counts
    end.
Proof.
  intros [Hnd Hcounts].
  assert (∀ n, length (filter (hasPatternName n) (seen ++ [site]))
               = (length (filter (hasPatternName n) seen)
                  + if bool_decide (hasPatternName n site) then 1 else 0)%nat) as Hlen.
  { intros n. rewrite filter_app, length_app, filter_cons, filter_nil.
    case_bool_decide; [by rewrite decide_True|by rewrite decide_False]. }
  assert (∀ n, n ∈ map summary_name counts ↔
               (0 < length (filter (hasPatternName n) seen))%nat) as Hnames.
  { intros n. rewrite list_elem_of_fmap. split.
    - intros ([m c] & -> & Hin). apply Hcounts in Hin. simpl. lia.
    - intros Hpos. eexists (mkSummary n _). split; [done|]. apply Hcounts. split; [done|lia]. }
  destruct (patternMatch site) as [p|] eqn:Hp.
  - assert (∀ n, hasPatternName n site ↔ name p = n) as Hhas.
    { intros n. unfold hasPatternName. rewrite Hp. simpl. split; congruence. }
    split.
    + rewrite bump_names. case_bool_decide as Hin; [done|].
      apply NoDup_app. split; [done|]. split; [|apply NoDup_singleton].
      by intros x Hx ->%list_elem_of_singleton.
    + intros n c. rewrite (bump_elem _ _ _ _ Hnd), Hlen.
      destruct (decide (name p = n)) as [<-|Hne].
      * rewrite bool_decide_eq_true_2 by (by apply Hhas). split.
        -- intros [[? _]|[_ [(c0 & Hin & ->)|[Hnot ->]]]]; [done| |].
           ++ apply Hcounts in Hin as [-> ?]. split; lia.
           ++ rewrite Hnames in Hnot. split; lia.
        -- intros [-> _]. right. split; [done|].
           destruct (decide (name p ∈ map summary_name counts)) as [Hin|Hnot].
           ++ left. apply Hnames in Hin. eexists. split; [apply Hcounts; split; [done|lia]|lia].
           ++ right. split; [done|]. rewrite Hnames in Hnot. lia.
      * rewrite bool_decide_eq_false_2 by (by rewrite Hhas). rewrite Nat.add_0_r.
        rewrite <- Hcounts. split.
        -- intros [[_ Hin]|[-> _]]; done.
        -- intros Hin. left. split; [congruence|done].
  - assert (∀ n, ¬ hasPatternName n site) as Hhas.
    { intros n. unfold hasPatternName. by rewrite Hp. }
    split; [done|]. intros n c. rewrite Hcounts, Hlen.
    rewrite bool_decide_eq_false_2 by apply Hhas. by rewrite Nat.add_0_r.
Qed.

Lemma countsOf_fold sites seen counts :
  countsOf seen counts →
  countsOf (seen ++ sites)
    (foldl (λ counts site,
              match patternMatch site with
              | None => counts
              | Some p => bump (name p) counts
              end) counts sites).
Proof.
  revert seen counts. induction sites as [|site sites IH]; intros seen counts Hc; simpl.
  - by rewrite app_nil_r.
  - replace (seen ++ site :: sites) with ((seen ++ [site]) ++ sites)
      by (by rewrite <- app_assoc).
    apply IH. by apply countsOf_step.
Qed.

(** The names that [detectProxyPatterns] assigns. *)
Definition detectorNames : list string := ["EIP-1167"; "UUPS"; "EIP-1967"; "Diamond"].

Lemma detectProxyPatterns_names bytecode sites s p :
  s ∈ detectProxyPatterns bytecode sites → patternMatch s = Some p →
  name p ∈ detectorNames.
Proof.
  unfold detectProxyPatterns. intros (s0 & -> & _)%list_elem_of_fmap.
  cbn [withPattern patternMatch]. unfold detectorNames.
  destruct (detectEip1167 _); [intros [= <-]; set_solver|].
  case_bool_decide.
  - case_bool_decide; intros [= <-]; set_solver.
  - destruct (detectDiamondPattern sites); [intros [= <-]; set_solver|done].
Qed.

(** X10.  The summary of the sites that [detectProxyPatterns] has
    tagged, as the scanner computes it: [summarizeProxyPatterns] lists
    each pattern name once; an entry (name, count) is in the summary
    exactly when [count] is the number of tagged sites that carry that
    pattern and is positive; and every listed name is one of EIP-1167,
    UUPS, EIP-1967 and Diamond. *)
Theorem summarizeProxyPatterns_counts bytecode sites :
  let tagged := detectProxyPatterns bytecode sites in
  let summary := summarizeProxyPatterns tagged in
  NoDup (map summary_name summary) ∧
  (∀ n c, mkSummary n c ∈ summary ↔
          c = Z.of_nat (length (filter (hasPatternName n) tagged)) ∧ 0 < c) ∧
  Forall (λ entry, summary_name entry ∈ detectorNames) summary.
Proof.
  intros tagged summary.
  destruct (countsOf_fold tagged [] []) as [Hnd Hcounts].
  { split; [constructor|]. intros n c. simpl. split; [by intros ?%elem_of_nil|lia]. }
  simpl in Hnd, Hcounts. split; [done|]. split; [done|].
  apply Forall_forall. intros [n c] Hin. simpl.
  apply Hcounts in Hin as [-> Hpos].
  destruct (filter (hasPatternName n) tagged) as [|s rest] eqn:Hf; [simpl in Hpos; lia|].
  assert (s ∈ filter (hasPatternName n) tagged) as Hs by (rewrite Hf; by left).
  apply list_elem_of_filter in Hs as [Hname Hs]. unfold hasPatternName in Hname.
  destruct (patternMatch s) as [p|] eqn:Hp; [|done]. injection Hname as <-.
  by eapply detectProxyPatterns_names.
Qed.

(** ** The sites of a report *)

(** A site is built from one DELEGATECALL instruction. *)
Definition siteOf (i : Opcode) (s : DelegatecallSite) : Prop :=
  ∃ blockId stack, s = makeSite i blockId stack.

Lemma cfgSites_shape fuel cfg instrs sites :
  cfgSites fuel cfg instrs = Some sites →
  Forall2 siteOf (filter isDelegatecall instrs) sites.
Proof.
  revert sites. induction instrs as [|instr rest IH]; intros sites; simpl.
  - intros [= <-]. constructor.
  - rewrite filter_cons. unfold isDelegatecall at 1. case_bool_decide as Hop.
    + rewrite decide_True by done.
      destruct (traceStackAtPC fuel cfg (pc instr)) as [stack|]; [|done]. simpl.
      destruct (cfgSites fuel cfg rest) as [rest'|]; [|done]. simpl.
      intros [= <-]. constructor; [|by apply IH]. by do 2 eexists.
    + rewrite decide_False by done. apply IH.
Qed.

Lemma linearSites_shape instrs stack :
  Forall2 siteOf (filter isDelegatecall instrs) (linearSites instrs stack).
Proof.
  revert stack. induction instrs as [|instr rest IH]; intros stack; simpl.
  - constructor.
  - rewrite filter_cons. unfold isDelegatecall at 1. case_bool_decide as Hop.
    + rewrite decide_True by done. constructor; [|apply IH]. by do 2 eexists.
    + rewrite decide_False by done. apply IH.
Qed.

(** The report of either mode is built from one site per DELEGATECALL
    instruction of the disassembly, in program order. *)
Lemma analyzeBytecode_sites bytecode opts extra :
  ∃ instrs sites,
    decodeBytecode bytecode = Some instrs ∧
    Forall2 siteOf (filter isDelegatecall instrs) sites ∧
    analyzeBytecode (enoughFuel bytecode + extra) bytecode opts =
      Some (buildReport opts bytecode sites).
Proof.
  unfold analyzeBytecode, enoughFuel.
  destruct (decodeBytecode_total bytecode) as [instrs Hdec]. rewrite Hdec.
  assert (length (blocks (buildCFG instrs)) < traceFuel instrs + extra)%nat as Hfuel
    by (unfold traceFuel; lia).
  revert Hfuel. generalize (traceFuel instrs + extra)%nat. intros fuel Hfuel. simpl.
  exists instrs. case_bool_decide.
  - destruct (cfgSites_total fuel (buildCFG instrs) instrs) as (sites & Hsites & _).
    + apply buildCFG_forward. by eapply decodeBytecode_sorted.
    + done.
    + rewrite Hsites. exists sites. split; [done|]. split; [|done].
      by eapply cfgSites_shape.
  - exists (linearSites instrs []). split; [done|]. split; [|done].
    apply linearSites_shape.
Qed.

(** A DELEGATECALL instruction comes from a byte 0xf4, and its [pc] is
    the offset after that byte. *)
Lemma decodeStep_delegatecall bytes p instr p' :
  decodeStep bytes p = (instr, p') → isDelegatecall instr →
  default (JsInt 0) (bytes !! Z.to_nat p) = JsInt 0xf4 ∧ pc instr = p + 1 ∧ p' = p + 1.
Proof.
  unfold decodeStep, isDelegatecall.
  destruct (default (JsInt 0) (bytes !! Z.to_nat p)) as [|z] eqn:Hbyte;
    cbn [lookupOpcode]; [by intros [= <- <-]|].
  destruct (OPCODES !! z) as [info|] eqn:Hinfo; [|by intros [= <- <-]].
  destruct (decide (0x60 ≤ z ≤ 0x7f)) as [Hpush|Hpush].
  - destruct (OPCODES_push z Hpush) as (info' & Hinfo' & _ & _ & Hname).
    assert (info' = info) as -> by congruence.
    destruct (pushBytes info) as [n|]; [destruct (0 <? n)|]; by intros [= <- <-].
  - destruct (OPCODES_other z info Hinfo Hpush) as [-> Hdc].
    intros [= <- <-]. cbn [op pc]. intros ->%Hdc. done.
Qed.

Lemma decodeLoop_delegatecalls fuel bytes p instrs :
  0 ≤ p →
  decodeLoop fuel bytes p = Some instrs →
  Forall (λ i, isDelegatecall i →
               p < pc i ∧ bytes !! Z.to_nat (pc i - 1) = Some (JsInt 0xf4)) instrs ∧
  StronglySorted Z.lt (map pc (filter isDelegatecall instrs)).
Proof.
  revert p instrs. induction fuel as [|fuel IH]; intros p instrs Hp; simpl.
  - destruct (_ <? _); [done|]. intros [= <-]. split; constructor.
  - destruct (Z.ltb_spec p (Z.of_nat (length bytes))) as [Hlt|];
      [|intros [= <-]; split; constructor].
    destruct (decodeStep bytes p) as [instr p'] eqn:Hstep.
    pose proof (decodeStep_advance _ _ _ _ Hstep) as [Hadv Hpc].
    destruct (decodeLoop fuel bytes p') as [rest|] eqn:Hrest; [|done].
    intros [= <-]. assert (0 ≤ p') as Hp' by lia.
    destruct (IH _ _ Hp' Hrest) as [Hall Hsorted].
    split.
    + constructor.
      * intros Hdc.
        destruct (decodeStep_delegatecall _ _ _ _ Hstep Hdc) as (Hbyte & -> & _).
        split; [lia|]. replace (p + 1 - 1) with p by lia.
        destruct (lookup_lt_is_Some_2 bytes (Z.to_nat p)) as [b Hb]; [lia|].
        rewrite Hb in Hbyte |- *. simpl in Hbyte. by rewrite Hbyte.
      * eapply Forall_impl; [exact Hall|]. intros i Hi Hdc.
        destruct (Hi Hdc). split; [lia|done].
    + rewrite filter_cons. case_decide as Hdc; [|done]. simpl.
      constructor; [done|].
      destruct (decodeStep_delegatecall _ _ _ _ Hstep Hdc) as (_ & -> & ->).
      apply Forall_forall. intros x Hx.
      apply list_elem_of_fmap in Hx as (i & -> & Hi).
      apply list_elem_of_filter in Hi as [Hidc Hi].
      rewrite Forall_forall in Hall. by destruct (Hall i Hi Hidc).
Qed.

Lemma buildReport_sites opts bytecode sites0 :
  map rs_pc (sites (buildReport opts bytecode sites0)) = map site_pc sites0 ∧
  map rs_id (sites (buildReport opts bytecode sites0)) = map site_id sites0.
Proof.
  unfold buildReport, detectProxyPatterns. cbn [sites].
  rewrite !map_map. simpl. done.
Qed.

Lemma siteOf_fields instrs sites0 :
  Forall2 siteOf instrs sites0 →
  map site_pc sites0 = map pc instrs ∧
  map site_id sites0 = map (λ i, "site-" +:+ pretty (pc i)) instrs.
Proof.
  induction 1 as [|i s instrs sites0 (blockId & stack & ->) _ [IH1 IH2]]; [done|].
  simpl. by rewrite IH1, IH2.
Qed.

(** X11.  The sites of a report, in either mode and on every input
    string: their program counters increase strictly along the list, so
    no two sites share a pc; every id is "site-" followed by the pc in
    decimal, so the ids are pairwise different; and the byte just before
    a site's pc is 0xf4. *)
Theorem report_sites_are_distinct_and_ordered bytecode opts extra :
  ∃ r, analyzeBytecode (enoughFuel bytecode + extra) bytecode opts = Some r ∧
    StronglySorted Z.lt (map rs_pc (sites r)) ∧
    NoDup (map rs_id (sites r)) ∧
    Forall (λ s, rs_id s = "site-" +:+ pretty (rs_pc s) ∧
                 1 ≤ rs_pc s ∧
                 parseBytes (stripPrefix bytecode) !! Z.to_nat (rs_pc s - 1)
                 = Some (JsInt 0xf4)) (sites r).
Proof.
  destruct (analyzeBytecode_sites bytecode opts extra)
    as (instrs & sites0 & Hdec & Hshape & ->).
  eexists. split; [done|].
  destruct (buildReport_sites opts bytecode sites0) as [Hpcs Hids].
  destruct (siteOf_fields _ _ Hshape) as [Hpc Hid].
  assert (0 ≤ 0) as H0 by done.
  destruct (decodeLoop_delegatecalls _ _ _ _ H0 Hdec) as [Hall Hsorted].
  assert (StronglySorted Z.lt (map rs_pc (sites (buildReport opts bytecode sites0))))
    as Hasc by (by rewrite Hpcs, Hpc).
  split; [done|]. split.
  - rewrite Hids, Hid.
    assert (NoDup (map pc (filter isDelegatecall instrs))) as Hnd.
    { clear -Hsorted. induction Hsorted as [|x l _ IH Hx]; constructor; [|done].
      intros Hin. rewrite Forall_forall in Hx. specialize (Hx _ Hin). lia. }
    rewrite <- (map_map pc (λ z, "site-" +:+ pretty z)).
    assert (Inj (=) (=) (λ z : Z, "site-" +:+ pretty z)) as Hinj.
    { intros x y Heq. apply (inj (String.append "site-")) in Heq.
      by apply (inj pretty) in Heq. }
    by apply (NoDup_fmap_2 (λ z : Z, "site-" +:+ pretty z)).
  - apply Forall_forall. intros s Hs.
    unfold buildReport in Hs. cbn [sites] in Hs.
    apply list_elem_of_fmap in Hs as (s1 & -> & Hs1).
    unfold detectProxyPatterns in Hs1.
    apply list_elem_of_fmap in Hs1 as (s0 & -> & Hs0). cbn.
    apply list_elem_of_lookup in Hs0 as [k Hk].
    destruct (Forall2_lookup_r _ _ _ _ _ Hshape Hk) as (i & Hi & blockId & stack & ->).
    cbn. split; [done|].
    apply list_elem_of_lookup_2 in Hi. apply list_elem_of_filter in Hi as [Hdc Hi].
    rewrite Forall_forall in Hall. destruct (Hall i Hi Hdc). split; [lia|done].
Qed.


(** X13.  A string whose byte vector has no byte 0xf4 gives the empty
    report in either mode: count 0, no overall risk, no sites and no
    proxy patterns. *)
Theorem no_f4_byte_gives_empty_report bytecode opts extra :
  JsInt 0xf4 ∉ parseBytes (stripPrefix bytecode) →
  analyzeBytecode (enoughFuel bytecode + extra) bytecode opts =
  Some (mkReport (opt_contractAddress opts) (opt_network opts) 0 None [] []).
Proof.
  intros Hno.
  destruct (analyzeBytecode_sites bytecode opts extra)
    as (instrs & sites0 & Hdec & Hshape & ->).
  assert (0 ≤ 0) as H0 by done.
  destruct (decodeLoop_delegatecalls _ _ _ _ H0 Hdec) as [Hall _].
  assert (filter isDelegatecall instrs = []) as Hnone.
  { destruct (filter isDelegatecall instrs) as [|i l] eqn:Hf; [done|].
    assert (i ∈ filter isDelegatecall instrs) as Hi by (rewrite Hf; by left).
    apply list_elem_of_filter in Hi as [Hdc Hi].
    rewrite Forall_forall in Hall. destruct (Hall i Hi Hdc) as [_ Hbyte].
    by apply list_elem_of_lookup_2 in Hbyte. }
  rewrite Hnone in Hshape. by apply Forall2_nil_inv_l in Hshape as ->.
Qed.

Lemma no_f4_byte_gives_empty_report_witness :
  analyzeBytecode (enoughFuel "0x6000355a" + 0) "0x6000355a" linearOptions =
  Some (mkReport None None 0 None [] []).
Proof.
  apply (no_f4_byte_gives_empty_report "0x6000355a" linearOptions 0).
  apply (bool_decide_unpack _). vm_compute. reflexivity.
Defined.

(** ** The control-flow graph: blocks *)

(** The third pass touches the edge lists of a block only. *)
Definition sameBody (b b' : BasicBlock) : Prop :=
  block_id b' = block_id b ∧ startPc b' = startPc b ∧ endPc b' = endPc b ∧
  instructions b' = instructions b.

Lemma sameBody_refl bs : Forall2 sameBody bs bs.
Proof. induction bs; constructor; done. Qed.

Lemma sameBody_trans bs1 bs2 bs3 :
  Forall2 sameBody bs1 bs2 → Forall2 sameBody bs2 bs3 → Forall2 sameBody bs1 bs3.
Proof.
  apply Forall2_trans. unfold sameBody. intros x y z. intuition congruence.
Qed.

Lemma updateBlock_body key f bs :
  (∀ b, sameBody b (f b)) → Forall2 sameBody bs (updateBlock key f bs).
Proof.
  intros Hf. unfold updateBlock. induction bs as [|b bs IH]; simpl; constructor; [|done].
  case_bool_decide; [apply Hf|done].
Qed.

(** The edge that [linkNext] adds: both updates, by key. *)
Definition addEdge (k1 k2 : Z) (bs : list BasicBlock) : list BasicBlock :=
  updateBlock k2 (pushPredecessor k1) (updateBlock k1 (pushSuccessor k2) bs).

Lemma addEdge_body k1 k2 bs : Forall2 sameBody bs (addEdge k1 k2 bs).
Proof.
  unfold addEdge. eapply sameBody_trans; apply updateBlock_body; done.
Qed.

Lemma linkNext_cases instrs block lastInstr bs :
  linkNext instrs block lastInstr bs = bs ∨
  ∃ nextInstr nextBlock,
    find (λ instr, bool_decide (pc lastInstr < pc instr)) instrs = Some nextInstr ∧
    getBlockContaining bs (pc nextInstr) = Some nextBlock ∧
    linkNext instrs block lastInstr bs = addEdge (startPc block) (startPc nextBlock) bs.
Proof.
  unfold linkNext, findBlockContaining.
  destruct (find _ instrs) as [nextInstr|]; [|by left].
  destruct (getBlockContaining bs (pc nextInstr)) as [nextBlock|] eqn:Hnb; [|by left].
  right. by exists nextInstr, nextBlock.
Qed.

(** One turn of the third pass either leaves the map alone or adds one
    edge, from the block under [key] to the block that holds the next
    instruction; the source block does not end in JUMP, STOP, RETURN,
    REVERT or SELFDESTRUCT. *)
Definition mayFallThrough (b : BasicBlock) : Prop :=
  ∃ lastInstr, last (instructions b) = Some lastInstr ∧
    op lastInstr ∉ ["JUMP"; "STOP"; "RETURN"; "REVERT"; "SELFDESTRUCT"].

Lemma isTerminator_false op :
  isTerminator op = false → op ≠ "JUMP" → op ≠ "JUMPI" →
  op ∉ ["JUMP"; "STOP"; "RETURN"; "REVERT"; "SELFDESTRUCT"].
Proof.
  unfold isTerminator, TERMINATORS. intros Ht%bool_decide_eq_false _ _ Hin.
  apply Ht. set_solver.
Qed.

Lemma connectBlock_cases instrs bs key :
  connectBlock instrs bs key = bs ∨
  ∃ block lastInstr nextInstr nextBlock,
    mapGet key bs = Some block ∧ mayFallThrough block ∧
    last (instructions block) = Some lastInstr ∧
    find (λ instr, bool_decide (pc lastInstr < pc instr)) instrs = Some nextInstr ∧
    getBlockContaining bs (pc nextInstr) = Some nextBlock ∧
    connectBlock instrs bs key = addEdge key (startPc nextBlock) bs.
Proof.
  unfold connectBlock.
  destruct (mapGet key bs) as [block|] eqn:Hget; [|by left].
  destruct (last (instructions block)) as [lastInstr|] eqn:Hlast; [|by left].
  pose proof (mapGet_Some _ _ _ Hget) as [_ Hkey].
  case_bool_decide as Hjump; [by left|].
  assert (mayFallThrough block →
          linkNext instrs block lastInstr bs = bs ∨
          ∃ block0 lastInstr0 nextInstr nextBlock,
            Some block = Some block0 ∧ mayFallThrough block0 ∧
            last (instructions block0) = Some lastInstr0 ∧
            find (λ instr, bool_decide (pc lastInstr0 < pc instr)) instrs
              = Some nextInstr ∧
            getBlockContaining bs (pc nextInstr) = Some nextBlock ∧
            linkNext instrs block lastInstr bs = addEdge key (startPc nextBlock) bs)
    as Hlink.
  { intros Hmay.
    destruct (linkNext_cases instrs block lastInstr bs)
      as [?|(nextInstr & nextBlock & Hfind & Hnb & Heq)]; [by left|].
    right. exists block, lastInstr, nextInstr, nextBlock. by rewrite <- Hkey. }
  case_bool_decide as Hjumpi.
  - apply Hlink. exists lastInstr. split; [done|]. rewrite Hjumpi.
    apply (bool_decide_unpack _). vm_compute. reflexivity.
  - destruct (isTerminator (op lastInstr)) eqn:Hterm; simpl; [by left|].
    apply Hlink. exists lastInstr. split; [done|]. by apply isTerminator_false.
Qed.

Lemma connectBlock_body instrs bs key :
  Forall2 sameBody bs (connectBlock instrs bs key).
Proof.
  destruct (connectBlock_cases instrs bs key) as [->|(?&?&?&?&_&_&_&_&_&->)].
  - apply sameBody_refl.
  - apply addEdge_body.
Qed.

Lemma connect_fold_body instrs ks bs :
  Forall2 sameBody bs (foldl (connectBlock instrs) bs ks).
Proof.
  revert bs. induction ks as [|k ks IH]; intros bs; simpl; [apply sameBody_refl|].
  eapply sameBody_trans; [apply connectBlock_body|apply IH].
Qed.

Lemma sameBody_keys bs bs' :
  Forall2 sameBody bs bs' → map startPc bs' = map startPc bs.
Proof.
  induction 1 as [|b b' bs bs' (_ & Hk & _) _ IH]; [done|]. simpl. by rewrite Hk, IH.
Qed.

(** The blocks of the graph are those of the second pass, edges apart. *)
Lemma buildCFG_body instrs :
  Forall2 sameBody (blocksOf instrs (sortLeaders (findLeaders instrs {[ 0 ]})))
          (blocks (buildCFG instrs)).
Proof.
  unfold buildCFG, connectBlocks. cbn [blocks].
  rewrite formBlocks_blocksOf.
  - simpl. apply connect_fold_body.
  - simpl. pose proof (sortLeaders_sorted (findLeaders instrs {[ 0 ]})) as Hs.
    clear -Hs. induction Hs as [|x l _ IH Hx]; constructor; [|done].
    intros Hin. rewrite Forall_forall in Hx. specialize (Hx _ Hin). lia.
Qed.


Lemma findLeaders_spec instrs leaders k :
  k ∈ findLeaders instrs leaders ↔
  k ∈ leaders ∨
  (∃ i, i ∈ instrs ∧ op i = "JUMPDEST" ∧ pc i = k) ∨
  (∃ n i next, instrs !! n = Some i ∧ op i ∈ TERMINATORS ∧
               instrs !! S n = Some next ∧ pc next = k).
Proof.
  revert leaders. induction instrs as [|instr rest IH]; intros leaders; simpl.
  - split; [by left|]. intros [?|[(i & Hi & _)|(n & i & next & Hn & _)]]; [done| |].
    + by apply elem_of_nil in Hi.
    + by rewrite lookup_nil in Hn.
  - rewrite IH. clear IH. unfold isTerminator. split.
    + intros [Hin|[(i & Hi & Hop & Hpc)|(n & i & next & Hn & Hop & Hnext & Hpc)]].
      * case_bool_decide as Hterm.
        -- destruct rest as [|next rest'].
           ++ case_bool_decide as Hjd; [|by left].
              apply elem_of_union in Hin as [->%elem_of_singleton|?]; [|by left].
              right. left. exists instr. split; [by left|done].
           ++ apply elem_of_union in Hin as [->%elem_of_singleton|Hin].
              { right. right. by exists 0%nat, instr, next. }
              case_bool_decide as Hjd; [|by left].
              apply elem_of_union in Hin as [->%elem_of_singleton|?]; [|by left].
              right. left. exists instr. split; [by left|done].
        -- case_bool_decide as Hjd; [|by left].
           apply elem_of_union in Hin as [->%elem_of_singleton|?]; [|by left].
           right. left. exists instr. split; [by left|done].
      * right. left. exists i. split; [by right|done].
      * right. right. by exists (S n), i, next.
    + intros [Hin|[(i & Hi & Hop & Hpc)|(n & i & next & Hn & Hop & Hnext & Hpc)]].
      * left. case_bool_decide; [destruct rest|]; case_bool_decide; set_solver.
      * apply elem_of_cons in Hi as [->|Hi].
        -- left. rewrite (bool_decide_eq_true_2 (op instr = "JUMPDEST")) by done.
           case_bool_decide; [destruct rest|]; set_solver.
        -- right. left. by exists i.
      * destruct n as [|n].
        -- simpl in Hn, Hnext. injection Hn as ->.
           destruct rest as [|next' rest']; [done|]. simpl in Hnext.
           injection Hnext as ->. left.
           rewrite (bool_decide_eq_true_2 (op i ∈ TERMINATORS)) by done. set_solver.
        -- right. right. by exists n, i, next.
Qed.

Lemma sortLeaders_elem leaders k : k ∈ sortLeaders leaders ↔ k ∈ leaders.
Proof. unfold sortLeaders. by rewrite merge_sort_Permutation, elem_of_elements. Qed.

Lemma blocksOf_lookup instrs ls n b :
  blocksOf instrs ls !! n = Some b →
  block_id b = "block-" +:+ pretty (startPc b) ∧
  endPc b = match blocksOf instrs ls !! S n with
            | Some next => startPc next - 1
            | None => Z.of_nat (length instrs) - 1
            end ∧
  instructions b = filter (λ i, startPc b ≤ pc i ∧ pc i ≤ endPc b) instrs ∧
  successors b = [] ∧ predecessors b = [].
Proof.
  revert n. induction ls as [|l ls IH]; intros n; [done|].
  destruct n as [|n]; [|apply IH].
  intros [= <-]. cbn. split; [done|]. split; [|done]. by destruct ls.
Qed.



(** ** The control-flow graph: edges *)

(** What [addEdge k1 k2] makes of one block. *)
Definition linked (k1 k2 : Z) (b : BasicBlock) : BasicBlock :=
  mkBlock (block_id b) (startPc b) (endPc b) (instructions b)
          (successors b ++ if bool_decide (startPc b = k1) then [k2] else [])
          (predecessors b ++ if bool_decide (startPc b = k2) then [k1] else []).

Lemma addEdge_linked k1 k2 bs : addEdge k1 k2 bs = map (linked k1 k2) bs.
Proof.
  unfold addEdge, updateBlock. rewrite map_map. apply map_ext. intros [id s e i su pr].
  unfold linked. simpl.
  destruct (bool_decide (s = k1)); simpl; destruct (bool_decide (s = k2)); simpl;
    unfold pushPredecessor, pushSuccessor; simpl; by rewrite ?app_nil_r.
Qed.

Lemma NoDup_keys_eq (bs : list BasicBlock) b b' :
  NoDup (map startPc bs) → b ∈ bs → b' ∈ bs → startPc b = startPc b' → b = b'.
Proof.
  induction bs as [|a bs IH]; simpl; intros Hnd Hb Hb' Heq; [by apply elem_of_nil in Hb|].
  apply NoDup_cons in Hnd as [Hnotin Hnd].
  assert (∀ x, x ∈ bs → startPc x ∈ map startPc bs) as Hkey.
  { intros x Hx. apply list_elem_of_fmap. by exists x. }
  apply elem_of_cons in Hb as [->|Hb]; apply elem_of_cons in Hb' as [->|Hb']; auto.
  - destruct Hnotin. rewrite Heq. by apply Hkey.
  - destruct Hnotin. rewrite <- Heq. by apply Hkey.
Qed.

(** The state of the edge lists during the third pass. *)
Record edgeInv (bs : list BasicBlock) : Prop := {
  inv_nodup : NoDup (map startPc bs);
  inv_mirror : ∀ b b', b ∈ bs → b' ∈ bs →
      (startPc b' ∈ successors b ↔ startPc b ∈ predecessors b');
  inv_closed : ∀ b k, b ∈ bs → k ∈ successors b ∨ k ∈ predecessors b →
      k ∈ map startPc bs;
  inv_source : ∀ b, b ∈ bs → successors b ≠ [] → mayFallThrough b
}.

Lemma connectBlock_edgeInv instrs bs key :
  edgeInv bs → edgeInv (connectBlock instrs bs key).
Proof.
  intros [Hnd Hmirror Hclosed Hsource].
  destruct (connectBlock_cases instrs bs key)
    as [->|(block & lastInstr & nextInstr & nextBlock
            & Hget & Hmay & _ & _ & Hnb & ->)]; [done|].
  apply mapGet_Some in Hget as [Hblock Hkey].
  apply getBlockContaining_Some in Hnb as [Hnext _].
  pose proof (sameBody_keys _ _ (addEdge_body key (startPc nextBlock) bs)) as Hkeys.
  assert (∀ x, x ∈ bs → startPc x ∈ map startPc bs) as Hin.
  { intros x Hx. apply list_elem_of_fmap. by exists x. }
  split.
  - by rewrite Hkeys.
  - intros b1 b2. rewrite addEdge_linked.
    intros (a1 & -> & Ha1)%list_elem_of_fmap (a2 & -> & Ha2)%list_elem_of_fmap.
    cbn [linked startPc successors predecessors]. rewrite !elem_of_app.
    rewrite (Hmirror a1 a2 Ha1 Ha2).
    repeat case_bool_decide; rewrite ?list_elem_of_singleton, ?elem_of_nil; naive_solver.
  - intros b k. rewrite Hkeys, addEdge_linked.
    intros (a & -> & Ha)%list_elem_of_fmap.
    cbn [linked startPc successors predecessors]. rewrite !elem_of_app.
    intros [[Hk|Hk]|[Hk|Hk]]; try (apply (Hclosed a); by auto).
    + case_bool_decide; [|by apply elem_of_nil in Hk].
      apply list_elem_of_singleton in Hk as ->. by apply Hin.
    + case_bool_decide; [|by apply elem_of_nil in Hk].
      apply list_elem_of_singleton in Hk as ->. rewrite <- Hkey. by apply Hin.
  - intros b. rewrite addEdge_linked. intros (a & -> & Ha)%list_elem_of_fmap.
    unfold mayFallThrough. cbn [linked successors instructions].
    case_bool_decide as Hk.
    + intros _. rewrite <- Hkey in Hk.
      by rewrite (NoDup_keys_eq bs a block Hnd Ha Hblock Hk).
    + rewrite app_nil_r. by apply Hsource.
Qed.

Lemma connect_fold_edgeInv instrs ks bs :
  edgeInv bs → edgeInv (foldl (connectBlock instrs) bs ks).
Proof.
  revert bs. induction ks as [|k ks IH]; intros bs Hinv; simpl; [done|].
  by apply IH, connectBlock_edgeInv.
Qed.

Lemma buildCFG_edgeInv instrs : edgeInv (blocks (buildCFG instrs)).
Proof.
  unfold buildCFG, connectBlocks. cbn [blocks].
  pose proof (sortLeaders_sorted (findLeaders instrs {[ 0 ]})) as Hs.
  assert (NoDup (sortLeaders (findLeaders instrs {[ 0 ]}))) as Hnd.
  { clear -Hs. induction Hs as [|x l _ IH Hx]; constructor; [|done].
    intros Hin. rewrite Forall_forall in Hx. specialize (Hx _ Hin). lia. }
  rewrite formBlocks_blocksOf by done. simpl.
  apply connect_fold_edgeInv.
  assert (∀ b, b ∈ blocksOf instrs (sortLeaders (findLeaders instrs {[ 0 ]})) →
               successors b = [] ∧ predecessors b = []) as Hempty.
  { intros b [n Hn]%list_elem_of_lookup.
    by destruct (blocksOf_lookup _ _ _ _ Hn) as (_ & _ & _ & ? & ?). }
  split.
  - by rewrite blocksOf_keys.
  - intros b b' [Hb _]%Hempty [_ Hb']%Hempty. rewrite Hb, Hb'.
    by rewrite !elem_of_nil.
  - intros b k [Hb Hb']%Hempty. rewrite Hb, Hb', !elem_of_nil. tauto.
  - by intros b [Hb _]%Hempty.
Qed.

(** X15.  The edges of [buildCFG], for every instruction list.  The two
    edge lists mirror each other: [b'] is a successor of [b] exactly
    when [b] is a predecessor of [b'].  Every address in an edge list
    is the start of a block of the graph.  A block with a successor is
    not empty and its last instruction is none of JUMP, STOP, RETURN,
    REVERT and SELFDESTRUCT: the graph has fall-through edges only,
    and a jump to its target is never an edge. *)
Theorem buildCFG_edges instrs :
  let bs := blocks (buildCFG instrs) in
  (∀ b b', b ∈ bs → b' ∈ bs →
     (startPc b' ∈ successors b ↔ startPc b ∈ predecessors b')) ∧
  (∀ b k, b ∈ bs → k ∈ successors b ∨ k ∈ predecessors b → k ∈ map startPc bs) ∧
  (∀ b, b ∈ bs → successors b ≠ [] →
     ∃ lastInstr, last (instructions b) = Some lastInstr ∧
       op lastInstr ∉ ["JUMP"; "STOP"; "RETURN"; "REVERT"; "SELFDESTRUCT"]).
Proof. by destruct (buildCFG_edgeInv instrs). Qed.

(** ** The control-flow graph of a disassembly *)

Lemma buildCFG_passInv instrs :
  StronglySorted pcLe instrs →
  ∃ processed,
    passInv instrs (map startPc (blocks (buildCFG instrs))) processed
            (blocks (buildCFG instrs)).
Proof.
  intros Hsorted.
  pose proof (sameBody_keys _ _ (buildCFG_body instrs)) as Hkeys.
  rewrite blocksOf_keys in Hkeys. rewrite Hkeys.
  unfold buildCFG, connectBlocks. cbn [blocks].
  set (bs := formBlocks instrs _ []).
  pose proof (passInv_start instrs (findLeaders instrs {[0]})) as Hstart.
  simpl in Hstart. fold bs in Hstart.
  assert (map startPc bs = sortLeaders (findLeaders instrs {[0]})) as Hbs.
  { unfold bs. rewrite formBlocks_blocksOf; simpl; [apply blocksOf_keys|].
    pose proof (sortLeaders_sorted (findLeaders instrs {[ 0 ]})) as Hs.
    clear -Hs. induction Hs as [|x l _ IH Hx]; constructor; [|done].
    intros Hin. rewrite Forall_forall in Hx. specialize (Hx _ Hin). lia. }
  rewrite <- Hbs.
  apply (connect_fold_inv instrs Hsorted (map startPc bs) (map startPc bs) [] bs);
    [|by intros ? _ ?%elem_of_nil|done].
  rewrite Hbs.
  pose proof (sortLeaders_sorted (findLeaders instrs {[ 0 ]})) as Hs.
  clear -Hs. induction Hs as [|x l _ IH Hx]; constructor; [|done].
  intros Hin. rewrite Forall_forall in Hx. specialize (Hx _ Hin). lia.
Qed.

Lemma buildCFG_entry instrs :
  entryBlock (buildCFG instrs) = mapGet 0 (blocks (buildCFG instrs)).
Proof. reflexivity. Qed.

(** In a map whose ranges are disjoint the lookup by pc finds the one
    block whose range holds the pc. *)
Lemma getBlockContaining_unique bs p b :
  StronglySorted blockLt bs → b ∈ bs → startPc b ≤ p ≤ endPc b →
  getBlockContaining bs p = Some b.
Proof.
  intros Hs Hb Hrange. unfold getBlockContaining.
  destruct (find (λ b, inBlock b p) bs) as [b'|] eqn:Hfind.
  - apply getBlockContaining_Some in Hfind as [Hb' Hrange'].
    destruct (sorted_trichotomy bs b b' Hs Hb Hb') as [->|[[? ?]|[? ?]]]; [done|lia|lia].
  - apply list_elem_of_In in Hb. pose proof (find_none _ _ Hfind b Hb) as Hno.
    unfold inBlock in Hno. apply andb_false_iff in Hno as [?%Z.leb_gt|?%Z.leb_gt]; lia.
Qed.

Lemma sorted_head_zero (ls : list Z) :
  StronglySorted Z.lt ls → 0 ∈ ls → Forall (λ k, 0 ≤ k) ls →
  ∃ rest, ls = 0 :: rest.
Proof.
  intros Hs H0 Hge. destruct Hs as [|h rest Hs Hh]; [by apply elem_of_nil in H0|].
  apply Forall_cons in Hge as [Hh0 _].
  apply elem_of_cons in H0 as [<-|H0]; [by exists rest|].
  rewrite Forall_forall in Hh. specialize (Hh _ H0). lia.
Qed.

(** X16.  The graph built from the disassembly of any input string.
    The first block starts at 0, is the entry block and has no
    predecessor.  Every block has at most one successor, which starts
    later, and all its predecessors start earlier, so the graph has no
    cycle.  The ranges of the blocks are disjoint, so
    [getBlockContaining] returns the one block whose range holds the
    pc. *)
Theorem disassembly_cfg_is_forward bytecode :
  ∃ instrs, decodeBytecode bytecode = Some instrs ∧
    let cfg := buildCFG instrs in
    (∃ entry rest, blocks cfg = entry :: rest ∧ entryBlock cfg = Some entry ∧
                   startPc entry = 0 ∧ predecessors entry = []) ∧
    Forall (λ b,
      (successors b = [] ∨ ∃ s, successors b = [s] ∧ startPc b < s) ∧
      Forall (λ p, p < startPc b) (predecessors b)) (blocks cfg) ∧
    (∀ p b, b ∈ blocks cfg → startPc b ≤ p ≤ endPc b →
            getBlockContaining (blocks cfg) p = Some b).
Proof.
  destruct (decodeBytecode_total bytecode) as [instrs Hdec].
  exists instrs. split; [done|]. intros cfg.
  pose proof (decodeBytecode_sorted _ _ Hdec) as Hsorted.
  destruct (decodeLoop_sorted _ _ _ _ Hdec) as [Hge _].
  destruct (buildCFG_passInv instrs Hsorted) as [processed [_ Hs _ Hsucc]].
  destruct (buildCFG_edgeInv instrs) as [Hnd Hmirror Hclosed _].
  fold cfg in Hs, Hsucc, Hnd, Hmirror, Hclosed.
  assert (Forall (λ b, Forall (λ p, p < startPc b) (predecessors b)) (blocks cfg))
    as Hpreds.
  { apply Forall_forall. intros b Hb. apply Forall_forall. intros p Hp.
    assert (p ∈ map startPc (blocks cfg)) as Hkey by (apply (Hclosed b); auto).
    apply list_elem_of_fmap in Hkey as (b0 & -> & Hb0).
    apply (Hmirror b0 b Hb0 Hb) in Hp.
    rewrite Forall_forall in Hsucc. destruct (Hsucc b0 Hb0) as [[Hnil|(s & Hone & Hlt & _)] _].
    - rewrite Hnil in Hp. by apply elem_of_nil in Hp.
    - rewrite Hone in Hp. by apply list_elem_of_singleton in Hp as ->. }
  split; [|split].
  - pose proof (sameBody_keys _ _ (buildCFG_body instrs)) as Hkeys.
    rewrite blocksOf_keys in Hkeys. fold cfg in Hkeys.
    destruct (sorted_head_zero (map startPc (blocks cfg))) as [rest Hrest].
    + rewrite Hkeys. apply sortLeaders_sorted.
    + rewrite Hkeys, sortLeaders_elem, findLeaders_spec. left. by apply elem_of_singleton.
    + rewrite Hkeys. apply Forall_forall. intros k.
      rewrite sortLeaders_elem, findLeaders_spec, elem_of_singleton.
      rewrite Forall_forall in Hge.
      intros [->|[(i & Hi & _ & <-)|(n & i & next & _ & _ & Hnext & <-)]]; [done| |].
      * by apply Hge.
      * apply Hge. by eapply list_elem_of_lookup_2.
    + destruct (blocks cfg) as [|entry bs] eqn:Hblocks; [done|].
      simpl in Hrest. injection Hrest as Hentry _.
      exists entry, bs. split; [done|]. split; [|split; [done|]].
      * unfold cfg. rewrite buildCFG_entry. fold cfg. rewrite Hblocks.
        unfold mapGet. simpl. by rewrite bool_decide_eq_true_2.
      * apply Forall_cons in Hpreds as [Hpreds _].
        destruct (predecessors entry) as [|p l] eqn:Hp; [done|].
        apply Forall_cons in Hpreds as [Hlt _].
        assert (p ∈ map startPc (entry :: bs)) as Hkey.
        { apply (Hclosed entry); [by left|]. right. rewrite Hp. by left. }
        apply StronglySorted_inv in Hs as [_ Hall]. rewrite Forall_forall in Hall.
        simpl in Hkey. apply elem_of_cons in Hkey as [->|Hkey]; [lia|].
        apply list_elem_of_fmap in Hkey as (b0 & -> & Hb0).
        destruct (Hall b0 Hb0). lia.
  - rewrite Forall_forall in Hsucc, Hpreds |- *. intros b Hb. split; [|by apply Hpreds].
    destruct (Hsucc b Hb) as [[?|(s & ? & ? & _)] _]; [by left|right; by exists s].
  - intros p b. by apply getBlockContaining_unique.
Qed.

(** ** The tracer on a forward graph *)

(** Blocks that start after [t] leave the state stored for [t] alone. *)
Lemma worklistLoop_keeps_earlier cfg t :
  forwardCFG (blocks cfg) →
  ∀ fuel worklist states states',
    Forall (λ p, t < p) worklist →
    worklistLoop fuel cfg worklist states = Some states' →
    states' !! t = states !! t.
Proof.
  intros Hfwd. induction fuel as [|fuel IH]; intros worklist states states' Hwl;
    destruct worklist as [|p worklist]; simpl; intros Hloop;
    try (by injection Hloop as <-); try done.
  apply Forall_cons in Hwl as [Hp Hwl]. revert Hloop.
  destruct (mapGet p (blocks cfg)) as [block|] eqn:Hget; [|by apply IH].
  apply mapGet_Some in Hget as [Hblock Hkey].
  match goal with |- (if ?c then _ else _) = _ → _ => destruct c end; [|by apply IH].
  intros Hloop. apply IH in Hloop.
  - rewrite Hloop. apply lookup_insert_ne. lia.
  - unfold forwardCFG in Hfwd. rewrite Forall_forall in Hfwd.
    destruct (Hfwd _ Hblock) as [->|(s & -> & Hlt & _)]; [done|].
    simpl. case_bool_decide; [done|].
    apply Forall_app. split; [done|]. constructor; [lia|done].
Qed.

Lemma foldl_join_empty (l : list BlockState) :
  Forall (λ s, s = emptyState) l → foldl joinStates emptyState l = emptyState.
Proof.
  induction l as [|s l IH]; simpl; intros Hall; [done|].
  apply Forall_cons in Hall as [-> Hall]. by apply IH.
Qed.

(** As long as every stored state is the empty one, a block starts from
    the empty state. *)
Lemma blockInput_initial block blockPc (states : gmap Z BlockState) :
  (∀ k s, states !! k = Some s → s = emptyState) →
  blockInput block blockPc states = emptyState.
Proof.
  intros Hinit. unfold blockInput.
  destruct (predecessors block) as [|p ps] eqn:Hpreds.
  - destruct (states !! blockPc) as [s|] eqn:Hs; [|done]. simpl. by eapply Hinit.
  - assert (Forall (λ s, s = emptyState) (omap (λ predPc, states !! predPc) (p :: ps)))
      as Hall.
    { apply Forall_forall. intros s (k & _ & Hk)%list_elem_of_omap. by eapply Hinit. }
    destruct (omap _ (p :: ps)) as [|first predStates]; [done|].
    pose proof (Forall_inv Hall) as Hfirst. simpl in Hfirst. subst first.
    by apply foldl_join_empty.
Qed.

Lemma mapGet_elem bs b :
  NoDup (map startPc bs) → b ∈ bs → mapGet (startPc b) bs = Some b.
Proof.
  intros Hnd Hb. unfold mapGet.
  destruct (find _ bs) as [b'|] eqn:Hfind.
  - apply mapGet_Some in Hfind as [Hb' Hkey].
    by rewrite (NoDup_keys_eq bs b' b Hnd Hb' Hb Hkey).
  - apply list_elem_of_In in Hb. pose proof (find_none _ _ Hfind b Hb) as Hno.
    simpl in Hno. by rewrite bool_decide_eq_true_2 in Hno.
Qed.

(** The state stored for the target block when the loop ends is the
    output of that block run from the empty state. *)
Lemma worklistLoop_target fuel cfg target (states states' : gmap Z BlockState) :
  forwardCFG (blocks cfg) → NoDup (map startPc (blocks cfg)) →
  target ∈ blocks cfg →
  (∀ k s, states !! k = Some s → s = emptyState) →
  worklistLoop fuel cfg [startPc target] states = Some states' →
  ∃ blockState, states' !! startPc target = Some blockState ∧
                stack blockState = stack (simulateBlock target emptyState).
Proof.
  intros Hfwd Hnd Htarget Hinit. destruct fuel as [|fuel]; simpl; [done|].
  rewrite (mapGet_elem _ _ Hnd Htarget), (blockInput_initial _ _ _ Hinit).
  assert (∀ w, w = pushSuccessors [] (successors target) →
               Forall (λ p, startPc target < p) w) as Hsuccs.
  { intros w ->. unfold forwardCFG in Hfwd. rewrite Forall_forall in Hfwd.
    destruct (Hfwd _ Htarget) as [->|(s & -> & Hlt & _)]; [done|].
    simpl. constructor; [lia|done]. }
  assert (worklistLoop fuel cfg (pushSuccessors [] (successors target))
            (<[startPc target := simulateBlock target emptyState]> states)
          = Some states' →
          ∃ blockState, states' !! startPc target = Some blockState ∧
                        stack blockState = stack (simulateBlock target emptyState))
    as Hchanged.
  { intros Hloop.
    apply (worklistLoop_keeps_earlier cfg (startPc target) Hfwd) in Hloop;
      [|by apply Hsuccs].
    rewrite Hloop, lookup_insert_eq. by eexists. }
  destruct (states !! startPc target) as [old|] eqn:Hold; [|done].
  destruct (sameJsonStack _ _) eqn:Hsame; simpl; [|done].
  destruct fuel; simpl; intros [= <-]; exists old; split; try done;
    by apply sameJsonStack_eq in Hsame.
Qed.

(** What the tracer computes on a forward graph: the target block is
    run to its end from the empty state, and its instructions before
    the pc are applied once more to the result. *)
Definition blockReplay (cfg : ControlFlowGraph) (targetPc : Z) : Stack :=
  match getBlockContaining (blocks cfg) targetPc with
  | None => []
  | Some targetBlock =>
      match find (λ instr, bool_decide (pc instr = targetPc)) (instructions targetBlock) with
      | None => []
      | Some _ =>
          replayUntil targetPc (instructions targetBlock)
                      (stack (simulateBlock targetBlock emptyState))
      end
  end.

Lemma traceStackAtPC_forward fuel cfg targetPc :
  forwardCFG (blocks cfg) → NoDup (map startPc (blocks cfg)) →
  (length (blocks cfg) < fuel)%nat →
  traceStackAtPC fuel cfg targetPc = Some (blockReplay cfg targetPc).
Proof.
  intros Hfwd Hnd Hfuel. unfold traceStackAtPC, blockReplay.
  destruct (getBlockContaining _ _) as [targetBlock|] eqn:Hget; [|done].
  apply getBlockContaining_Some in Hget as [Htarget _].
  match goal with |- (?m ≫= _) = _ => destruct m as [states|] eqn:Hloop end.
  - simpl. destruct (find _ _); [|done].
    apply worklistLoop_target in Hloop as (blockState & -> & ->); try done.
    intros k s. destruct (entryBlock cfg) as [entry|].
    + intros [_ <-]%lookup_singleton_Some. done.
    + by rewrite lookup_empty.
  - exfalso. revert Hloop.
    match goal with |- ?m = None → _ => assert (is_Some m) as [? ->]; [|done] end.
    apply worklistLoop_total; [done|]. right. eexists. split; [done|].
    pose proof (blocksAfter_le (startPc targetBlock) (blocks cfg)). lia.
Qed.

(** X17.  In the graph of a disassembly no state of another block ever
    reaches the target block of the tracer.  For every input string and
    every pc, [traceStackAtPC] returns the empty stack when no block
    holds the pc or the block has no instruction at it; otherwise it
    runs the whole target block from the empty stack and then applies
    the block's instructions before the pc a second time to that
    result. *)
Theorem traceStackAtPC_uses_target_block_only bytecode targetPc extra :
  ∃ instrs, decodeBytecode bytecode = Some instrs ∧
    traceStackAtPC (traceFuel instrs + extra) (buildCFG instrs) targetPc =
    Some (blockReplay (buildCFG instrs) targetPc).
Proof.
  destruct (decodeBytecode_total bytecode) as [instrs Hdec].
  exists instrs. split; [done|].
  apply traceStackAtPC_forward.
  - apply buildCFG_forward. by eapply decodeBytecode_sorted.
  - by destruct (buildCFG_edgeInv instrs).
  - unfold traceFuel. lia.
Qed.

(** ** The graph of a report *)

(** The graph generator has its own risk function; it is the one of the
    scanner. *)
Lemma classifySiteRisk_classifyRisk site :
  classifySiteRisk site = classifyRisk (classification site) (patternMatch site).
Proof.
  unfold classifySiteRisk, classifyRisk.
  destruct (type (classification site)); try done.
  - destruct (patternMatch site) as [p|]; simpl; [|done].
    repeat case_bool_decide; congruence.
  - case_bool_decide; [done|]. by destruct (truthy _).
Qed.

(** The key of [implAddresses] that a site reaches, if any, and the
    address stored under it. *)
Definition implKey (site : DelegatecallSite) : option string :=
  match truthy (addressLiteral (classification site)) with
  | Some targetAddr => Some ("impl:" +:+ targetAddr)
  | None =>
      match truthy (storageSlotLiteral (classification site)) with
      | Some storageSlot => Some ("storage:" +:+ storageSlot)
      | None => None
      end
  end.

Definition implAddress (site : DelegatecallSite) : string :=
  match truthy (addressLiteral (classification site)) with
  | Some targetAddr => targetAddr
  | None => default EmptyString (truthy (storageSlotLiteral (classification site)))
  end.

Definition unknownNode (site : DelegatecallSite) : GraphNode :=
  mkNode ("unknown:" +:+ site_id site) "Unknown Target" unknownKind
         (UnknownMetadata (site_id site) (type (classification site))).

(** The id of the node that the edge of a site leads to. *)
Definition targetNode (site : DelegatecallSite) : string :=
  default ("unknown:" +:+ site_id site) (implKey site).

(** [implAddresses.get(implId)] *)
Definition implGet (implId : string) (impls : list (string * ImplEntry))
    : option ImplEntry :=
  snd <$> find (λ e, bool_decide (e.1 = implId)) impls.

Definition pushed (siteId : string) (d : ImplEntry) : ImplEntry :=
  mkImpl (impl_address d) (impl_risk d) (impl_siteIds d ++ [siteId]).

Lemma implGet_push k k0 siteId impls :
  implGet k (implPush k0 siteId impls) =
  if bool_decide (k = k0) then pushed siteId <$> implGet k impls else implGet k impls.
Proof.
  unfold implGet, implPush.
  induction impls as [|[k1 d1] impls IH]; simpl; [by case_bool_decide|].
  destruct (decide (k1 = k0)) as [->|Hne].
  - rewrite (bool_decide_eq_true_2 (k0 = k0)) by done. simpl.
    destruct (decide (k0 = k)) as [->|Hk].
    + by rewrite !bool_decide_eq_true_2.
    + rewrite (bool_decide_eq_false_2 (k0 = k)) by done.
      rewrite (bool_decide_eq_false_2 (k = k0)) in IH |- * by done. done.
  - rewrite (bool_decide_eq_false_2 (k1 = k0)) by done. simpl.
    destruct (decide (k1 = k)) as [->|Hk].
    + rewrite (bool_decide_eq_true_2 (k = k)) by done.
      by rewrite (bool_decide_eq_false_2 (k = k0)).
    + by rewrite (bool_decide_eq_false_2 (k1 = k)).
Qed.

Lemma implGet_app k impls e :
  implGet k (impls ++ [e]) =
  match implGet k impls with
  | Some d => Some d
  | None => if bool_decide (e.1 = k) then Some e.2 else None
  end.
Proof.
  unfold implGet. induction impls as [|[k1 d1] impls IH]; simpl.
  - by case_bool_decide.
  - destruct (bool_decide (k1 = k)); [done|apply IH].
Qed.

Lemma implGet_keys k impls : k ∈ map fst impls ↔ is_Some (implGet k impls).
Proof.
  unfold implGet. induction impls as [|[k1 d1] impls IH]; simpl.
  - split; [by intros ?%elem_of_nil|by intros [? ?]].
  - rewrite elem_of_cons, IH. case_bool_decide as Hk; simpl.
    + split; [by eexists|by left].
    + split; [by intros [?|?]|by right].
Qed.

Lemma implGet_elem k d impls :
  NoDup (map fst impls) → (k, d) ∈ impls → implGet k impls = Some d.
Proof.
  unfold implGet. induction impls as [|[k1 d1] impls IH]; simpl; intros Hnd Hin;
    [by apply elem_of_nil in Hin|].
  apply NoDup_cons in Hnd as [Hnotin Hnd].
  apply elem_of_cons in Hin as [[= -> ->]|Hin].
  - by rewrite bool_decide_eq_true_2.
  - case_bool_decide as Hk; [|by apply IH]. simpl in Hk. subst k1.
    destruct Hnotin. apply list_elem_of_fmap. by exists (k, d).
Qed.

Lemma implPush_keys k siteId impls : map fst (implPush k siteId impls) = map fst impls.
Proof.
  unfold implPush. rewrite map_map. apply map_ext. intros [k1 d1]. simpl.
  by case_bool_decide.
Qed.

(** What [implAddresses] holds under a key once the sites [seen] have
    been visited. *)
Definition implSpec (k : string) (seen : list DelegatecallSite) : option ImplEntry :=
  match filter (λ s, implKey s = Some k) seen with
  | [] => None
  | s0 :: rest =>
      Some (mkImpl (implAddress s0) (classifySiteRisk s0) (map site_id (s0 :: rest)))
  end.

Definition edgeOf (contractId : string) (site : DelegatecallSite) (e : GraphEdge) : Prop :=
  edge_id e = "edge-" +:+ site_id site ∧ edge_siteId e = site_id site ∧
  edge_from e = contractId ∧ edge_to e = targetNode site ∧
  edge_risk e = classifyRisk (classification site) (patternMatch site).

Record graphInv (contractId : string) (nodes0 : list GraphNode)
    (seen : list DelegatecallSite) (st : GraphState) : Prop := {
  gi_nodes : g_nodes st = nodes0 ++ map unknownNode (filter (λ s, implKey s = None) seen);
  gi_edges : Forall2 (edgeOf contractId) seen (g_edges st);
  gi_keys : NoDup (map fst (g_impls st));
  gi_impls : ∀ k, implGet k (g_impls st) = implSpec k seen
}.

Lemma graphSite_fields contractId st site :
  g_nodes (graphSite contractId st site) =
    g_nodes st ++ (if decide (implKey site = None) then [unknownNode site] else []) ∧
  (∃ e, g_edges (graphSite contractId st site) = g_edges st ++ [e] ∧
        edgeOf contractId site e) ∧
  g_impls (graphSite contractId st site) =
    match implKey site with
    | Some k => recordSite k (implAddress site) site (g_impls st)
    | None => g_impls st
    end.
Proof.
  unfold graphSite, implAddress, edgeOf, targetNode, implKey.
  rewrite <- classifySiteRisk_classifyRisk.
  destruct (truthy (addressLiteral (classification site))) as [a|];
    [|destruct (truthy (storageSlotLiteral (classification site))) as [s|]];
    cbn [g_nodes g_edges g_impls default from_option id].
  - rewrite decide_False by done. rewrite app_nil_r.
    split; [done|]. split; [|done]. by eexists.
  - rewrite decide_False by done. rewrite app_nil_r.
    split; [done|]. split; [|done]. by eexists.
  - rewrite decide_True by done.
    split; [done|]. split; [|done]. by eexists.
Qed.

Lemma recordSite_get k k0 address site impls :
  implGet k (recordSite k0 address site impls) =
  if bool_decide (k = k0) then
    Some (match implGet k impls with
          | Some d => pushed (site_id site) d
          | None => mkImpl address (classifySiteRisk site) [site_id site]
          end)
  else implGet k impls.
Proof.
  unfold recordSite. rewrite implGet_push. unfold implHas.
  destruct (decide (k0 ∈ map fst impls)) as [Hhas|Hhas].
  - rewrite (bool_decide_eq_true_2 _ Hhas).
    apply implGet_keys in Hhas as [d Hd].
    case_bool_decide as Hk; [|done]. subst k0. by rewrite Hd.
  - rewrite (bool_decide_eq_false_2 _ Hhas).
    rewrite implGet_app. simpl.
    assert (implGet k0 impls = None) as Hnone.
    { destruct (implGet k0 impls) eqn:Hg; [|done].
      destruct Hhas. apply implGet_keys. by eexists. }
    case_bool_decide as Hk.
    + subst k0. rewrite Hnone. by rewrite bool_decide_eq_true_2.
    + rewrite (bool_decide_eq_false_2 (k0 = k)) by done. by destruct (implGet k impls).
Qed.

Lemma recordSite_keys k0 address site impls :
  NoDup (map fst impls) → NoDup (map fst (recordSite k0 address site impls)).
Proof.
  intros Hnd. unfold recordSite. rewrite implPush_keys. unfold implHas.
  case_bool_decide as Hhas; [done|].
  rewrite map_app. simpl. apply NoDup_app. split; [done|].
  split; [|apply NoDup_singleton]. by intros x Hx ->%list_elem_of_singleton.
Qed.

Lemma graphSite_inv contractId nodes0 seen st site :
  graphInv contractId nodes0 seen st →
  graphInv contractId nodes0 (seen ++ [site]) (graphSite contractId st site).
Proof.
  intros [Hnodes Hedges Hkeys Himpls].
  destruct (graphSite_fields contractId st site) as (Hn & (e & He & Hedge) & Hi).
  split.
  - rewrite Hn, Hnodes, filter_app, map_app, <- app_assoc. f_equal. f_equal.
    rewrite filter_cons, filter_nil. by case_decide.
  - rewrite He. apply Forall2_app; [done|]. by constructor.
  - rewrite Hi. destruct (implKey site); [by apply recordSite_keys|done].
  - intros k. rewrite Hi. unfold implSpec. rewrite filter_app, filter_cons, filter_nil.
    destruct (implKey site) as [k0|] eqn:Hkey.
    + rewrite recordSite_get, Himpls. unfold implSpec.
      case_bool_decide as Hk.
      * subst k0. rewrite decide_True by done.
        destruct (filter (λ s, implKey s = Some k) seen) as [|s0 rest]; simpl; [done|].
        unfold pushed. simpl. by rewrite map_app.
      * rewrite decide_False by congruence. by rewrite app_nil_r.
    + rewrite decide_False by done. rewrite app_nil_r. apply Himpls.
Qed.

Lemma graph_fold_inv contractId nodes0 sites seen st :
  graphInv contractId nodes0 seen st →
  graphInv contractId nodes0 (seen ++ sites) (foldl (graphSite contractId) st sites).
Proof.
  revert seen st. induction sites as [|site sites IH]; intros seen st Hinv; simpl.
  - by rewrite app_nil_r.
  - replace (seen ++ site :: sites) with ((seen ++ [site]) ++ sites)
      by (by rewrite <- app_assoc).
    by apply IH, graphSite_inv.
Qed.

(** The pieces of the graph. *)
Definition contractIdOf (contractAddress : option string) : string :=
  match truthy contractAddress with
  | Some a => "contract:" +:+ a
  | None => "contract:unknown"
  end.

Lemma generateGraph_parts contractAddress sites :
  ∃ contractNode impls,
    node_id contractNode = contractIdOf contractAddress ∧
    node_kind contractNode = contractKind ∧
    nodes (generateGraph contractAddress sites) =
      contractNode :: map unknownNode (filter (λ s, implKey s = None) sites)
                   ++ map implNode impls ∧
    Forall2 (edgeOf (contractIdOf contractAddress)) sites
            (edges (generateGraph contractAddress sites)) ∧
    NoDup (map fst impls) ∧
    ∀ k, implGet k impls = implSpec k sites.
Proof.
  unfold generateGraph. fold (contractIdOf contractAddress). cbn [nodes edges].
  match goal with |- context [foldl _ (mkGraphState [?c] [] []) sites] =>
    set (contractNode := c) end.
  destruct (graph_fold_inv (contractIdOf contractAddress) [contractNode] sites []
              (mkGraphState [contractNode] [] []))
    as [Hnodes Hedges Hkeys Himpls].
  { split; simpl; [done|constructor|constructor|done]. }
  simpl in Hnodes, Hedges, Himpls.
  eexists contractNode, _. rewrite Hnodes.
  split; [done|]. split; [done|]. split; [done|]. done.
Qed.

Lemma implSpec_Some k sites d :
  implSpec k sites = Some d →
  ∃ s0 rest, filter (λ s, implKey s = Some k) sites = s0 :: rest ∧
    d = mkImpl (implAddress s0) (classifySiteRisk s0) (map site_id (s0 :: rest)).
Proof.
  unfold implSpec. destruct (filter _ sites) as [|s0 rest]; [done|].
  intros [= <-]. by eexists _, _.
Qed.

(** X18.  The edges of the graph, for every contract address and every
    list of sites: there is one edge per site, in the order of the
    sites, named after the site; it starts at the contract node, which
    is the first node of the graph, and leads to a node of the graph;
    and its risk is the risk that the scanner gives the site, although
    the generator computes it with a function of its own. *)
Theorem generateGraph_edges contractAddress sites :
  let g := generateGraph contractAddress sites in
  (∃ contractNode others,
     nodes g = contractNode :: others ∧ node_kind contractNode = contractKind ∧
     Forall (λ e, edge_from e = node_id contractNode) (edges g)) ∧
  Forall2 (λ s e,
    edge_id e = "edge-" +:+ site_id s ∧ edge_siteId e = site_id s ∧
    edge_to e ∈ map node_id (nodes g) ∧
    edge_risk e = classifyRisk (classification s) (patternMatch s)) sites (edges g).
Proof.
  intros g.
  destruct (generateGraph_parts contractAddress sites)
    as (contractNode & impls & Hid & Hkind & Hnodes & Hedges & Hkeys & Himpls).
  fold g in Hnodes, Hedges. split.
  - eexists contractNode, _. split; [done|]. split; [done|].
    apply Forall_forall. intros e [i He]%list_elem_of_lookup.
    destruct (Forall2_lookup_r _ _ _ _ _ Hedges He) as (s & _ & _ & _ & Hfrom & _).
    by rewrite Hid.
  - apply Forall2_same_length_lookup. split; [by eapply Forall2_length|].
    intros i s e Hs He.
    destruct (Forall2_lookup_lr _ _ _ _ _ _ Hedges Hs He) as (? & ? & _ & Hto & ?).
    split; [done|]. split; [done|]. split; [|done].
    rewrite Hto, Hnodes. cbn [map]. apply elem_of_cons. right.
    rewrite map_app. apply elem_of_app. unfold targetNode.
    apply list_elem_of_lookup_2 in Hs.
    destruct (implKey s) as [k|] eqn:Hkey; simpl.
    + right. assert (is_Some (implGet k impls)) as Hsome.
      { rewrite Himpls. unfold implSpec.
        assert (s ∈ filter (λ s, implKey s = Some k) sites) as Hin
          by (by apply list_elem_of_filter).
        destruct (filter (λ s, implKey s = Some k) sites);
          [by apply elem_of_nil in Hin|by eexists]. }
      apply implGet_keys in Hsome. rewrite map_map. done.
    + left. rewrite map_map. apply list_elem_of_fmap. exists s.
      split; [done|]. by apply list_elem_of_filter.
Qed.

Lemma Forall2_filter_both {A B} (R : A → B → Prop) (P : A → Prop) (Q : B → Prop)
    `{!∀ x, Decision (P x)} `{!∀ y, Decision (Q y)} l1 l2 :
  (∀ x y, R x y → (P x ↔ Q y)) →
  Forall2 R l1 l2 → Forall2 R (filter P l1) (filter Q l2).
Proof.
  intros HPQ. induction 1 as [|x y l1 l2 Hxy _ IH]; [constructor|].
  rewrite !filter_cons. specialize (HPQ x y Hxy).
  destruct (decide (P x)) as [HP|HP]; destruct (decide (Q y)) as [HQ|HQ];
    try tauto. by constructor.
Qed.

Definition firstChar (s : string) : option ascii :=
  match s with
  | EmptyString => None
  | String c _ => Some c
  end.

Lemma implKey_firstChar site k :
  implKey site = Some k → firstChar k = Some "i"%char ∨ firstChar k = Some "s"%char.
Proof.
  unfold implKey. destruct (truthy _); [intros [= <-]; by left|].
  destruct (truthy _); [intros [= <-]; by right|done].
Qed.

Lemma targetNode_implKey site site0 k :
  implKey site0 = Some k → (targetNode site = k ↔ implKey site = Some k).
Proof.
  intros Hk. unfold targetNode. destruct (implKey site) as [k'|]; simpl.
  - split; congruence.
  - split; [|done]. intros <-.
    by destruct (implKey_firstChar _ _ Hk) as [H|H].
Qed.

(** X19.  The nodes of the graph after the contract node, for every
    contract address and every list of sites.  Each of them has an edge
    leading to it.  A node of kind "unknown" carries the site id of
    such an edge.  A node of kind "implementation" or "facet" lists in
    its metadata the site ids of ALL edges that lead to it, in the
    order of the edges, and carries the risk of the first of them; it
    is a facet exactly when two or more edges lead to it. *)
Theorem generateGraph_nodes contractAddress sites :
  let g := generateGraph contractAddress sites in
  ∃ contractNode others,
    nodes g = contractNode :: others ∧
    Forall (λ n,
      let incoming := filter (λ e, edge_to e = node_id n) (edges g) in
      ∃ e0 rest, incoming = e0 :: rest ∧
        match node_kind n with
        | contractKind => False
        | unknownKind =>
            ∃ e ty, e ∈ incoming ∧ node_metadata n = UnknownMetadata (edge_siteId e) ty
        | implementationKind =>
            rest = [] ∧
            ∃ address, node_metadata n =
              ImplementationMetadata address [edge_siteId e0] (edge_risk e0)
        | facetKind =>
            rest ≠ [] ∧
            ∃ address, node_metadata n =
              ImplementationMetadata address (map edge_siteId incoming) (edge_risk e0)
        end) others.
Proof.
  intros g.
  destruct (generateGraph_parts contractAddress sites)
    as (contractNode & impls & Hid & Hkind & Hnodes & Hedges & Hkeys & Himpls).
  fold g in Hnodes, Hedges.
  eexists contractNode, _. split; [done|].
  apply Forall_app. split; apply Forall_forall; intros n Hn.
  - apply list_elem_of_fmap in Hn as (s & -> & Hs).
    apply list_elem_of_filter in Hs as [Hkey Hs].
    apply list_elem_of_lookup in Hs as [i Hi].
    destruct (Forall2_lookup_l _ _ _ _ _ Hedges Hi) as (e & He & _ & Hsid & _ & Hto & _).
    assert (e ∈ filter (λ e, edge_to e = node_id (unknownNode s)) (edges g)) as Hin.
    { apply list_elem_of_filter. split; [|by eapply list_elem_of_lookup_2].
      rewrite Hto. unfold targetNode. by rewrite Hkey. }
    cbn [node_kind unknownNode node_metadata] in *. simpl in Hin |- *.
    match type of Hin with _ ∈ ?l => destruct l as [|e0 rest] end;
      [by apply elem_of_nil in Hin|].
    exists e0, rest. split; [done|]. exists e, (type (classification s)).
    split; [done|]. by rewrite Hsid.
  - apply list_elem_of_fmap in Hn as ([k d] & -> & Hkd).
    pose proof (implGet_elem _ _ _ Hkeys Hkd) as Hget. rewrite Himpls in Hget.
    apply implSpec_Some in Hget as (s0 & srest & Hf & ->).
    assert (implKey s0 = Some k) as Hk0.
    { assert (s0 ∈ filter (λ s, implKey s = Some k) sites) as Hin
        by (rewrite Hf; by left).
      by apply list_elem_of_filter in Hin as [? _]. }
    assert (Forall2 (edgeOf (contractIdOf contractAddress))
              (filter (λ s, implKey s = Some k) sites)
              (filter (λ e, edge_to e = k) (edges g))) as Hin.
    { apply Forall2_filter_both; [|done].
      intros s e (_ & _ & _ & -> & _). symmetry. by eapply targetNode_implKey. }
    rewrite Hf in Hin. cbn [implNode node_id node_kind node_metadata fst snd
                            impl_siteIds impl_address impl_risk].
    destruct (filter (λ e, edge_to e = k) (edges g)) as [|e0 rest];
      [by apply Forall2_nil_inv_r in Hin|].
    exists e0, rest. split; [done|].
    apply Forall2_cons in Hin as [(_ & Hsid0 & _ & _ & Hrisk0) Hrest].
    assert (map site_id srest = map edge_siteId rest) as Hids.
    { clear -Hrest. induction Hrest as [|s e l1 l2 (_ & Hs & _) _ IH]; [done|].
      simpl. by rewrite IH, Hs. }
    rewrite classifySiteRisk_classifyRisk, <- Hrisk0.
    cbn [map length]. rewrite Hids, <- Hsid0.
    apply Forall2_length in Hrest. rewrite length_map.
    case_bool_decide as Hfacet.
    + split; [destruct rest; [simpl in *; lia|done]|]. by eexists.
    + destruct rest as [|e1 rest]; [|simpl in *; lia].
      split; [done|]. by eexists.
Qed.

Lemma NoDup_map_filter {A B} (f : A → B) (P : A → Prop) `{!∀ x, Decision (P x)} l :
  NoDup (map f l) → NoDup (map f (filter P l)).
Proof.
  induction l as [|x l IH]; simpl; [done|]. intros [Hx Hnd]%NoDup_cons.
  rewrite filter_cons. case_decide; [|by apply IH]. simpl.
  apply NoDup_cons. split; [|by apply IH].
  intros (y & Hy & Hin)%list_elem_of_fmap. apply list_elem_of_filter in Hin as [_ Hin].
  apply Hx. apply list_elem_of_fmap. by exists y.
Qed.

(** Sites with pairwise different ids give nodes and edges with pairwise
    different ids. *)
Lemma generateGraph_ids contractAddress sites :
  NoDup (map site_id sites) →
  NoDup (map node_id (nodes (generateGraph contractAddress sites))) ∧
  NoDup (map edge_id (edges (generateGraph contractAddress sites))).
Proof.
  intros Hnd.
  destruct (generateGraph_parts contractAddress sites)
    as (contractNode & impls & Hid & Hkind & Hnodes & Hedges & Hkeys & Himpls).
  assert (∀ k, k ∈ map fst impls →
               firstChar k = Some "i"%char ∨ firstChar k = Some "s"%char) as Himpl.
  { intros k Hk. apply implGet_keys in Hk as [d Hd]. rewrite Himpls in Hd.
    apply implSpec_Some in Hd as (s0 & rest & Hf & _).
    assert (s0 ∈ filter (λ s, implKey s = Some k) sites) as Hin by (rewrite Hf; by left).
    apply list_elem_of_filter in Hin as [Hk0 _]. by eapply implKey_firstChar. }
  assert (firstChar (node_id contractNode) = Some "c"%char) as Hc.
  { rewrite Hid. unfold contractIdOf. by destruct (truthy contractAddress). }
  split.
  - rewrite Hnodes. cbn [map]. rewrite map_app, !map_map. cbn [implNode node_id].
    apply NoDup_cons. split.
    + intros [Hin|Hin]%elem_of_app.
      * apply list_elem_of_fmap in Hin as (s & Heq & _). by rewrite Heq in Hc.
      * apply Himpl in Hin. rewrite Hc in Hin. by destruct Hin.
    + apply NoDup_app. split; [|split].
      * change (λ x, node_id (unknownNode x)) with (λ x, "unknown:" +:+ site_id x).
        rewrite <- (map_map site_id (String.append "unknown:")).
        apply (NoDup_fmap_2 (String.append "unknown:")).
        by apply NoDup_map_filter.
      * intros k (s & -> & _)%list_elem_of_fmap Hin.
        apply Himpl in Hin. by destruct Hin.
      * done.
  - assert (map edge_id (edges (generateGraph contractAddress sites))
            = map (String.append "edge-") (map site_id sites)) as ->.
    { clear -Hedges. induction Hedges as [|s e l1 l2 (Hs & _) _ IH]; [done|].
      simpl. by rewrite IH, Hs. }
    by apply (NoDup_fmap_2 (String.append "edge-")).
Qed.

(** X20.  The graph that [analyzeBytecode] attaches to its report, in
    either mode and on every input string: its nodes have pairwise
    different ids and so have its edges, one edge per reported site. *)
Theorem report_graph_ids_are_distinct bytecode opts extra :
  ∃ instrs found,
    decodeBytecode bytecode = Some instrs ∧
    analyzeBytecode (enoughFuel bytecode + extra) bytecode opts =
      Some (buildReport opts bytecode found) ∧
    let g := reportGraph opts bytecode found in
    NoDup (map node_id (nodes g)) ∧ NoDup (map edge_id (edges g)) ∧
    map edge_siteId (edges g) = map rs_id (sites (buildReport opts bytecode found)).
Proof.
  destruct (analyzeBytecode_sites bytecode opts extra)
    as (instrs & sites0 & Hdec & Hshape & Hrun).
  exists instrs, sites0. split; [done|]. split; [done|]. intros g.
  destruct (siteOf_fields _ _ Hshape) as [_ Hid].
  assert (0 ≤ 0) as H0 by done.
  destruct (decodeLoop_delegatecalls _ _ _ _ H0 Hdec) as [_ Hsorted].
  assert (map site_id (detectProxyPatterns bytecode sites0) = map site_id sites0) as Hsame.
  { unfold detectProxyPatterns. by rewrite map_map. }
  assert (NoDup (map site_id (detectProxyPatterns bytecode sites0))) as Hnd.
  { rewrite Hsame, Hid.
    assert (NoDup (map pc (filter isDelegatecall instrs))) as Hpcs.
    { clear -Hsorted. induction Hsorted as [|x l _ IH Hx]; constructor; [|done].
      intros Hin. rewrite Forall_forall in Hx. specialize (Hx _ Hin). lia. }
    rewrite <- (map_map pc (λ z, "site-" +:+ pretty z)).
    assert (Inj (=) (=) (λ z : Z, "site-" +:+ pretty z)) as Hinj.
    { intros x y Heq. apply (inj (String.append "site-")) in Heq.
      by apply (inj pretty) in Heq. }
    by apply (NoDup_fmap_2 (λ z : Z, "site-" +:+ pretty z)). }
  destruct (generateGraph_ids (opt_contractAddress opts) _ Hnd) as [Hnodes Hedges].
  split; [done|]. split; [done|].
  destruct (buildReport_sites opts bytecode sites0) as [_ ->]. rewrite <- Hsame.
  destruct (generateGraph_parts (opt_contractAddress opts)
              (detectProxyPatterns bytecode sites0)) as (_ & _ & _ & _ & _ & He & _).
  unfold g, reportGraph. clear -He.
  induction He as [|s e l1 l2 (_ & Hs & _) _ IH]; [done|]. simpl. by rewrite IH, Hs.
Qed.

(** ** Stack depth *)

(** The number of slots that a transfer function removes and adds for a
    mnemonic, branch by branch. *)
Definition tracerArity (op : string) : nat * nat :=
  if Js.startsWith op "PUSH" then (0, 1)%nat
  else if Js.startsWith op "DUP" then (0, 1)%nat
  else if Js.startsWith op "SWAP" then (0, 0)%nat
  else if bool_decide (op = "CALLDATALOAD") then (1, 1)%nat
  else if bool_decide (op = "SLOAD") then (1, 1)%nat
  else if bool_decide (op = "CALLER") then (0, 1)%nat
  else if bool_decide (op = "ADDRESS") then (0, 1)%nat
  else if bool_decide (op = "ORIGIN") then (0, 1)%nat
  else if bool_decide (op = "MLOAD") then (1, 1)%nat
  else if bool_decide (op = "MSTORE") || bool_decide (op = "MSTORE8") then (2, 0)%nat
  else if bool_decide (op ∈ binaryOps ++ ["MOD"; "ISZERO"]) then
    ((if bool_decide (op = "ISZERO") then 1 else 2), 1)%nat
  else if bool_decide (op = "POP") then (1, 0)%nat
  else
    match Tracer.getOpcodeInfo op with
    | Some (stackIn, stackOut) => (Z.to_nat stackIn, Z.to_nat stackOut)
    | None => (0, 0)%nat
    end.

Definition linearArity (op : string) : nat * nat :=
  if Js.startsWith op "PUSH" then (0, 1)%nat
  else if Js.startsWith op "DUP" then (0, 1)%nat
  else if Js.startsWith op "SWAP" then (0, 0)%nat
  else if bool_decide (op = "CALLDATALOAD") then (1, 1)%nat
  else if bool_decide (op = "SLOAD") then (1, 1)%nat
  else if bool_decide (op = "CALLER") then (0, 1)%nat
  else if bool_decide (op = "ADDRESS") then (0, 1)%nat
  else if bool_decide (op = "ORIGIN") then (0, 1)%nat
  else if bool_decide (op ∈ binaryOps) then (2, 1)%nat
  else (1, 0)%nat.

Lemma dupAt_length n (stack : list StackExpression) :
  length (dupAt n stack) = (length stack - 0 + 1)%nat.
Proof. destruct n; simpl; rewrite length_app; simpl; lia. Qed.

Lemma swapAt_length n (stack : list StackExpression) :
  length (swapAt n stack) = (length stack - 0 + 0)%nat.
Proof.
  unfold swapAt, Stack. repeat case_match; rewrite ?length_insert; lia.
Qed.

Lemma pop1_length (stack : list StackExpression) x :
  length ((pop1 stack).2 ++ [x]) = (length stack - 1 + 1)%nat.
Proof.
  unfold pop1. simpl. rewrite length_app, removelast_firstn_len, length_take. simpl. lia.
Qed.

Lemma pop_length n (stack : list StackExpression) :
  length (pop n stack).2 = (length stack - n)%nat.
Proof. rewrite pop_closed_form. simpl. rewrite length_take. lia. Qed.

Lemma tracer_length op pushData (stack : list StackExpression) :
  length (Tracer.applyInstructionToStack op pushData stack)
  = (length stack - (tracerArity op).1 + (tracerArity op).2)%nat.
Proof.
  unfold Tracer.applyInstructionToStack, tracerArity.
  destruct (Js.startsWith op "PUSH"); [rewrite length_app; simpl; lia|].
  destruct (Js.startsWith op "DUP"); [apply dupAt_length|].
  destruct (Js.startsWith op "SWAP"); [apply swapAt_length|].
  destruct (bool_decide (op = "CALLDATALOAD")); [apply (pop1_length stack)|].
  destruct (bool_decide (op = "SLOAD")); [apply (pop1_length stack)|].
  destruct (bool_decide (op = "CALLER")); [rewrite length_app; simpl; lia|].
  destruct (bool_decide (op = "ADDRESS")); [rewrite length_app; simpl; lia|].
  destruct (bool_decide (op = "ORIGIN")); [rewrite length_app; simpl; lia|].
  destruct (bool_decide (op = "MLOAD")); [by rewrite length_app, pop_length|].
  destruct (_ || _); [rewrite pop_length; simpl; lia|].
  destruct (bool_decide (op ∈ _)).
  { pose proof (pop_length (if bool_decide (op = "ISZERO") then 1 else 2)%nat stack) as Hp.
    destruct (pop _ stack) as [args rest]. simpl in Hp.
    rewrite length_app, Hp. simpl. done. }
  destruct (bool_decide (op = "POP")); [rewrite pop_length; simpl; lia|].
  destruct (Tracer.getOpcodeInfo op) as [[stackIn stackOut]|]; simpl; [|lia].
  by rewrite length_app, pop_length, length_replicate.
Qed.

Lemma linear_length op pushData (stack : list StackExpression) :
  length (Linear.applyInstructionToStack op pushData stack)
  = (length stack - (linearArity op).1 + (linearArity op).2)%nat.
Proof.
  unfold Linear.applyInstructionToStack, linearArity.
  destruct (Js.startsWith op "PUSH"); [rewrite length_app; simpl; lia|].
  destruct (Js.startsWith op "DUP"); [apply dupAt_length|].
  destruct (Js.startsWith op "SWAP"); [apply swapAt_length|].
  destruct (bool_decide (op = "CALLDATALOAD")); [apply (pop1_length stack)|].
  destruct (bool_decide (op = "SLOAD")); [apply (pop1_length stack)|].
  destruct (bool_decide (op = "CALLER")); [rewrite length_app; simpl; lia|].
  destruct (bool_decide (op = "ADDRESS")); [rewrite length_app; simpl; lia|].
  destruct (bool_decide (op = "ORIGIN")); [rewrite length_app; simpl; lia|].
  destruct (bool_decide (op ∈ _)).
  { pose proof (pop_length 2 stack) as Hp.
    destruct (pop 2 stack) as [args rest]. simpl in Hp.
    rewrite length_app, Hp. simpl. done. }
  rewrite length_take. simpl. lia.
Qed.

(** A transfer function keeps the depth of the EVM stack on an opcode of
    the table when, on every stack that holds the opcode's inputs, the
    depth changes by [stackOut - stackIn]. *)
Definition keepsDepth (transfer : string → option string → Stack → Stack)
    (info : OpcodeInfo) : Prop :=
  ∀ pushData (stack : list StackExpression),
    info_in info ≤ Z.of_nat (length stack) →
    Z.of_nat (length (transfer (info_name info) pushData stack))
    = Z.of_nat (length stack) - info_in info + info_out info.

Definition arityFits (a : nat * nat) (info : OpcodeInfo) : Prop :=
  Z.of_nat a.2 - Z.of_nat a.1 = info_out info - info_in info ∧
  Z.of_nat a.1 ≤ info_in info.

Lemma keepsDepth_arity transfer arity info :
  0 ≤ info_in info →
  (∀ op pushData (stack : list StackExpression),
     length (transfer op pushData stack)
     = (length stack - (arity op).1 + (arity op).2)%nat) →
  keepsDepth transfer info ↔ arityFits (arity (info_name info)) info.
Proof.
  intros Hin Hlen. unfold keepsDepth, arityFits.
  destruct (arity (info_name info)) as [k j] eqn:Ha. simpl. split.
  - intros Hkeep.
    assert (∀ n : nat, info_in info ≤ Z.of_nat n →
              Z.of_nat (n - k + j) = Z.of_nat n - info_in info + info_out info) as Hn.
    { intros n Hle. specialize (Hkeep None (replicate n Unknown)).
      rewrite Hlen, Ha, length_replicate in Hkeep. simpl in Hkeep. by apply Hkeep. }
    pose proof (Hn (Z.to_nat (info_in info) + k)%nat ltac:(lia)) as H1.
    pose proof (Hn (Z.to_nat (info_in info)) ltac:(lia)) as H2. lia.
  - intros [Hdiff Hk] pushData stack Hle. rewrite Hlen, Ha. simpl. lia.
Qed.

(** The opcodes of the table on which each function gets the depth
    wrong. *)
Definition tracerLosesDepth : list string :=
  ["CALLVALUE"; "CALLDATACOPY"; "RETURNDATASIZE"; "RETURNDATACOPY";
   "CALLCODE"; "REVERT"; "SELFDESTRUCT"].

Definition linearLosesDepth : list string :=
  ["STOP"; "ISZERO"; "CALLVALUE"; "CALLDATASIZE"; "CALLDATACOPY";
   "RETURNDATASIZE"; "RETURNDATACOPY"; "MLOAD"; "MSTORE"; "MSTORE8"; "SSTORE";
   "JUMPI"; "JUMPDEST"; "CALL"; "CALLCODE"; "DELEGATECALL"; "STATICCALL"; "REVERT"].

Lemma depth_checked :
  map_Forall (λ _ info,
    0 ≤ info_in info ∧
    (arityFits (tracerArity (info_name info)) info ↔ info_name info ∉ tracerLosesDepth) ∧
    (arityFits (linearArity (info_name info)) info ↔ info_name info ∉ linearLosesDepth))
  OPCODES.
Proof. apply (bool_decide_unpack _). vm_compute. reflexivity. Qed.

(** X21.  Where the symbolic stack has the depth of the EVM stack.  For
    an opcode of the table, on stacks that hold its inputs, the tracer
    changes the depth by [stackOut - stackIn] of the table for every
    opcode except CALLVALUE, CALLDATACOPY, RETURNDATASIZE,
    RETURNDATACOPY, CALLCODE, REVERT and SELFDESTRUCT, which it leaves
    the stack unchanged on.  The linear mode's function does so for
    every opcode except the eighteen of [linearLosesDepth], among them
    DELEGATECALL, CALL and STATICCALL, where it drops one slot. *)
Theorem transfer_functions_keep_depth_exactly_on byte info :
  OPCODES !! byte = Some info →
  (keepsDepth Tracer.applyInstructionToStack info
     ↔ info_name info ∉ tracerLosesDepth) ∧
  (keepsDepth Linear.applyInstructionToStack info
     ↔ info_name info ∉ linearLosesDepth).
Proof.
  intros Hinfo. destruct (depth_checked byte info Hinfo) as (Hin & Ht & Hl).
  split.
  - rewrite <- Ht. apply keepsDepth_arity; [done|apply tracer_length].
  - rewrite <- Hl. apply keepsDepth_arity; [done|apply linear_length].
Qed.

Lemma transfer_functions_keep_depth_exactly_on_witness :
  (keepsDepth Tracer.applyInstructionToStack (mkInfo "DELEGATECALL" 6 1 None)
     ↔ "DELEGATECALL" ∉ tracerLosesDepth) ∧
  (keepsDepth Linear.applyInstructionToStack (mkInfo "DELEGATECALL" 6 1 None)
     ↔ "DELEGATECALL" ∉ linearLosesDepth).
Proof.
  apply (transfer_functions_keep_depth_exactly_on 0xf4 (mkInfo "DELEGATECALL" 6 1 None)).
  vm_compute. reflexivity.
Defined.

(** ** The case of the hex digits *)

Lemma lowerChar_checked c :
  Num.isWhiteSpace (Js.lowerChar c) = Num.isWhiteSpace c ∧
  Num.digitValue (Js.lowerChar c) = Num.digitValue c ∧
  Ascii.eqb "0" (Js.lowerChar c) = Ascii.eqb "0" c ∧
  Ascii.eqb "x" (Js.lowerChar c) = Ascii.eqb "x" c || Ascii.eqb "X" c ∧
  Ascii.eqb "X" (Js.lowerChar c) = false.
Proof.
  assert (bool_decide (Num.isWhiteSpace (Js.lowerChar c) = Num.isWhiteSpace c) &&
          bool_decide (Num.digitValue (Js.lowerChar c) = Num.digitValue c) &&
          bool_decide (Ascii.eqb "0" (Js.lowerChar c) = Ascii.eqb "0" c) &&
          bool_decide (Ascii.eqb "x" (Js.lowerChar c)
                       = Ascii.eqb "x" c || Ascii.eqb "X" c) &&
          bool_decide (Ascii.eqb "X" (Js.lowerChar c) = false) = true) as H.
  { revert c. apply ascii_forall. vm_compute. reflexivity. }
  repeat (apply andb_true_iff in H as [H ?%bool_decide_eq_true]).
  apply bool_decide_eq_true in H. done.
Qed.

Lemma trimStart_lower s :
  Num.trimStart (Js.toLowerCase s) = Js.toLowerCase (Num.trimStart s).
Proof.
  induction s as [|c s IH]; simpl; [done|].
  destruct (lowerChar_checked c) as (-> & _). by destruct (Num.isWhiteSpace c).
Qed.

(** The sign that [parseInt] reads. *)
Definition signOf (s1 : string) : Z * string :=
  match s1 with
  | String "-" r => (-1, r)
  | String "+" r => (1, r)
  | _ => (1, s1)
  end.

Lemma signOf_lower s1 :
  signOf (Js.toLowerCase s1) = ((signOf s1).1, Js.toLowerCase (signOf s1).2).
Proof.
  destruct s1 as [|c r]; [done|].
  destruct c as [[] [] [] [] [] [] [] []]; reflexivity.
Qed.

Definition hexPrefix (s2 : string) : bool :=
  Js.startsWith s2 "0x" || Js.startsWith s2 "0X".

Lemma prefix_two c1 c2 s :
  String.prefix (String c1 (String c2 EmptyString)) s =
  match s with
  | String a (String b _) => Ascii.eqb c1 a && Ascii.eqb c2 b
  | _ => false
  end.
Proof.
  destruct s as [|a [|b r]]; simpl; [done| |].
  - destruct (ascii_dec c1 a); [|done]. by destruct (Ascii.eqb c1 a).
  - destruct (ascii_dec c1 a) as [->|Hne].
    + rewrite Ascii.eqb_refl. simpl.
      destruct (ascii_dec c2 b) as [->|Hne]; [rewrite Ascii.eqb_refl; by destruct r|].
      symmetry. by apply Ascii.eqb_neq.
    + symmetry. apply andb_false_iff. left. by apply Ascii.eqb_neq.
Qed.

Lemma hexPrefix_lower s2 : hexPrefix (Js.toLowerCase s2) = hexPrefix s2.
Proof.
  unfold hexPrefix, Js.startsWith. rewrite !prefix_two.
  destruct s2 as [|a [|b r]]; cbn [Js.toLowerCase]; [done|done|].
  destruct (lowerChar_checked a) as (_ & _ & -> & _).
  destruct (lowerChar_checked b) as (_ & _ & _ & -> & ->).
  destruct (Ascii.eqb "0" a); simpl; [|done]. by rewrite orb_false_r.
Qed.

Lemma sliceFrom_two_lower s :
  Js.sliceFrom 2 (Js.toLowerCase s) = Js.toLowerCase (Js.sliceFrom 2 s).
Proof. by destruct s as [|a [|b r]]. Qed.

Lemma parseDigits_lower radix s acc :
  Num.parseDigits radix (Js.toLowerCase s) acc = Num.parseDigits radix s acc.
Proof.
  revert acc. induction s as [|c s IH]; intros acc; simpl; [done|].
  destruct (lowerChar_checked c) as (_ & -> & _).
  destruct (Num.digitValue c); [|done]. by destruct (_ <? _).
Qed.

Lemma parseInt_signOf s radix :
  Num.parseInt s radix =
  let s3 := if (radix =? 16) && hexPrefix (signOf (Num.trimStart s)).2
            then Js.sliceFrom 2 (signOf (Num.trimStart s)).2
            else (signOf (Num.trimStart s)).2 in
  match Num.parseDigits radix s3 None with
  | None => JsNaN
  | Some v => JsInt ((signOf (Num.trimStart s)).1 * v)
  end.
Proof.
  unfold Num.parseInt, signOf, hexPrefix.
  destruct (Num.trimStart s) as [|c r]; [done|].
  destruct c as [[] [] [] [] [] [] [] []]; reflexivity.
Qed.

(** [parseInt] does not look at the case of letters. *)
Lemma parseInt_lower s radix :
  Num.parseInt (Js.toLowerCase s) radix = Num.parseInt s radix.
Proof.
  rewrite !parseInt_signOf, trimStart_lower, signOf_lower. cbn [fst snd].
  rewrite hexPrefix_lower.
  destruct (_ && _); [rewrite sliceFrom_two_lower|]; by rewrite parseDigits_lower.
Qed.

Lemma parseBytes_lower clean :
  parseBytes (Js.toLowerCase clean) = parseBytes clean.
Proof.
  induction clean as [|c|c1 c2 s IH] using string_pair_ind; [done| |].
  - change (parseBytes (Js.toLowerCase (String c EmptyString)))
      with [Num.parseInt (Js.toLowerCase (String c EmptyString)) 16].
    by rewrite parseInt_lower.
  - change (parseBytes (Js.toLowerCase (String c1 (String c2 s))))
      with (Num.parseInt (Js.toLowerCase (String c1 (String c2 EmptyString))) 16
            :: parseBytes (Js.toLowerCase s)).
    by rewrite parseInt_lower, IH.
Qed.

(** The letters A-Z in lower case, every other character as it is. *)
Definition foldLetter (c : ascii) : ascii :=
  if Js.inRange 65 90 c then ascii_of_nat (nat_of_ascii c + 32) else c.

Fixpoint foldLetters (s : string) : string :=
  match s with
  | EmptyString => EmptyString
  | String c s' => String (foldLetter c) (foldLetters s')
  end.

Lemma lowerChar_foldLetter c : Js.lowerChar (foldLetter c) = Js.lowerChar c.
Proof.
  assert (bool_decide (Js.lowerChar (foldLetter c) = Js.lowerChar c) = true) as H.
  { revert c. apply ascii_forall. vm_compute. reflexivity. }
  by apply bool_decide_eq_true in H.
Qed.

Lemma toLowerCase_foldLetters s : Js.toLowerCase (foldLetters s) = Js.toLowerCase s.
Proof.
  induction s as [|c s IH]; [done|]. simpl. by rewrite lowerChar_foldLetter, IH.
Qed.

(** X22.  The prefix is optional and the case of the letters A-Z does
    not matter.  Two inputs whose hex texts (what follows a leading 0x,
    or the whole input) have the same characters in the same places
    once A-Z are written in lower case give the same result in either
    mode; the result is the report without its [bytecodeHash], which is
    not modelled. *)
Theorem analysis_ignores_prefix_and_case fuel bytecode1 bytecode2 opts :
  foldLetters (Spec.hexBody bytecode1) = foldLetters (Spec.hexBody bytecode2) →
  analyzeBytecode fuel bytecode1 opts = analyzeBytecode fuel bytecode2 opts.
Proof.
  intros Hfold.
  assert (Js.toLowerCase (stripPrefix bytecode1) = Js.toLowerCase (stripPrefix bytecode2))
    as Hsame.
  { rewrite !stripPrefix_hexBody.
    rewrite <- (toLowerCase_foldLetters (Spec.hexBody bytecode1)), Hfold.
    apply toLowerCase_foldLetters. }
  unfold analyzeBytecode, decodeBytecode.
  rewrite <- (parseBytes_lower (stripPrefix bytecode1)), Hsame, parseBytes_lower.
  assert (∀ sites, buildReport opts bytecode1 sites = buildReport opts bytecode2 sites)
    as Hreport.
  { intros sites0. unfold buildReport, detectProxyPatterns, detectEip1167.
    by rewrite Hsame. }
  destruct (decodeBytes _) as [instrs|]; [|done]. simpl.
  by destruct (if bool_decide _ then _ else _); simpl; rewrite ?Hreport.
Qed.

(** PUSH2 abcd, DELEGATECALL, with and without prefix and capitals: one
    site either way. *)
Lemma analysis_ignores_prefix_and_case_witness :
  analyzeBytecode 5 "0x61AbCdF4" defaultOptions
  = analyzeBytecode 5 "61abcdf4" defaultOptions ∧
  delegatecallCount <$> analyzeBytecode 5 "61abcdf4" defaultOptions = Some 1.
Proof.
  split; [|vm_compute; reflexivity].
  apply analysis_ignores_prefix_and_case. reflexivity.
Defined.

(** ** Sites past the last block *)

(** The end of a block: one before the next start, or the number of
    instructions minus one for the last block. *)
Lemma buildCFG_ends instrs n b :
  blocks (buildCFG instrs) !! n = Some b →
  endPc b = match blocks (buildCFG instrs) !! S n with
            | Some next => startPc next - 1
            | None => Z.of_nat (length instrs) - 1
            end.
Proof.
  intros Hb. pose proof (buildCFG_body instrs) as Hbody.
  destruct (Forall2_lookup_r _ _ _ _ _ Hbody Hb) as (b0 & Hb0 & _ & _ & -> & _).
  destruct (blocksOf_lookup _ _ _ _ Hb0) as (_ & -> & _).
  destruct (blocks (buildCFG instrs) !! S n) as [next|] eqn:Hnext.
  - by destruct (Forall2_lookup_r _ _ _ _ _ Hbody Hnext) as (n0 & -> & _ & -> & _).
  - apply Forall2_length in Hbody. apply lookup_ge_None in Hnext.
    by rewrite lookup_ge_None_2 by lia.
Qed.

Lemma getBlockContaining_past instrs p :
  Z.of_nat (length instrs) ≤ p →
  Forall (λ b, startPc b ≤ p) (blocks (buildCFG instrs)) →
  getBlockContaining (blocks (buildCFG instrs)) p = None.
Proof.
  intros Hlen Hstarts.
  destruct (getBlockContaining _ p) as [b|] eqn:Hget; [|done].
  apply getBlockContaining_Some in Hget as [Hb Hrange].
  apply list_elem_of_lookup in Hb as [n Hn].
  rewrite (buildCFG_ends _ _ _ Hn) in Hrange.
  destruct (blocks (buildCFG instrs) !! S n) as [next|] eqn:Hnext; [|lia].
  apply list_elem_of_lookup_2 in Hnext. rewrite Forall_forall in Hstarts.
  specialize (Hstarts _ Hnext). lia.
Qed.

Lemma cfgSites_elem fuel cfg instrs found i stack :
  cfgSites fuel cfg instrs = Some found →
  i ∈ instrs → isDelegatecall i →
  traceStackAtPC fuel cfg (pc i) = Some stack →
  ∃ blockId, makeSite i blockId stack ∈ found.
Proof.
  intros Hsites Hi Hdc Htrace. revert found Hsites.
  induction instrs as [|instr rest IH]; intros found; simpl;
    [by apply elem_of_nil in Hi|].
  apply elem_of_cons in Hi as [<-|Hi].
  - rewrite bool_decide_eq_true_2 by done. rewrite Htrace. simpl.
    destruct (cfgSites fuel cfg rest) as [rest'|]; [|done]. simpl.
    intros [= <-]. eexists. by left.
  - case_bool_decide.
    + destruct (traceStackAtPC fuel cfg (pc instr)); [|done]. simpl.
      destruct (cfgSites fuel cfg rest) as [rest'|]; [|done]. simpl.
      intros [= <-]. destruct (IH Hi rest' eq_refl) as [bid Hin].
      exists bid. by right.
    + by apply IH.
Qed.

(** X23.  In CFG mode a DELEGATECALL is lost when it lies past the last
    block.  The last block ends at the number of instructions minus one
    (not at the last pc), so an instruction whose pc is at least the
    number of instructions and not before the start of the last block
    is in no block: the tracer returns the empty stack for it, its
    target is classified as unknown with no detail, its risk is unknown
    and so is the overall risk of the report. *)
Theorem cfg_mode_site_past_last_block bytecode opts extra instrs i :
  useCFG opts ≠ Some false →
  decodeBytecode bytecode = Some instrs →
  i ∈ instrs → isDelegatecall i →
  Z.of_nat (length instrs) ≤ pc i →
  Forall (λ b, startPc b ≤ pc i) (blocks (buildCFG instrs)) →
  ∃ r s, analyzeBytecode (enoughFuel bytecode + extra) bytecode opts = Some r ∧
    s ∈ sites r ∧ rs_pc s = pc i ∧
    rs_classification s = mkClassification unknown None None None ∧
    risk s = unknownRisk ∧ overallRisk r = Some unknownRisk.
Proof.
  intros Hmode Hdec Hi Hdc Hlen Hstarts.
  unfold analyzeBytecode, enoughFuel. rewrite Hdec.
  assert (length (blocks (buildCFG instrs)) < traceFuel instrs + extra)%nat as Hfuel
    by (unfold traceFuel; lia).
  revert Hfuel. generalize (traceFuel instrs + extra)%nat. intros fuel Hfuel. simpl.
  rewrite bool_decide_eq_true_2 by done.
  destruct (cfgSites_total fuel (buildCFG instrs) instrs) as (found & Hfound & _);
    [apply buildCFG_forward; by eapply decodeBytecode_sorted|done|].
  rewrite Hfound. simpl.
  destruct (cfgSites_elem _ _ _ _ i [] Hfound Hi Hdc) as [bid Hsite].
  { unfold traceStackAtPC. by rewrite getBlockContaining_past. }
  set (s0 := makeSite i bid []) in Hsite.
  assert (∃ p, mkReportSite (site_id s0) (site_pc s0) (classification s0) p
                 (classifyRisk (classification s0) p) []
               ∈ sites (buildReport opts bytecode found)) as [p' Hin].
  { unfold buildReport, detectProxyPatterns. cbn [sites]. rewrite map_map.
    eexists. apply list_elem_of_fmap. exists s0. split; [|done]. reflexivity. }
  eexists _, _. split; [done|]. split; [exact Hin|].
  split; [done|]. split; [done|]. split; [done|].
  revert Hin. unfold buildReport. cbn [sites overallRisk].
  set (rs := map _ (detectProxyPatterns bytecode found)). intros Hin.
  assert (unknownRisk ∈ map risk rs) as Hrisk.
  { apply list_elem_of_fmap. eexists. split; [|exact Hin]. done. }
  rewrite bool_decide_eq_true_2
    by (destruct rs; [by apply elem_of_nil in Hin|simpl; lia]).
  f_equal. destruct (reduceRisk_max (map risk rs)) as [_ Hmax].
  { intros Hnil. rewrite Hnil in Hrisk. by apply elem_of_nil in Hrisk. }
  rewrite Forall_forall in Hmax. specialize (Hmax _ Hrisk).
  unfold riskLe in Hmax. destruct (reduceRisk (map risk rs)); simpl in Hmax; done || lia.
Qed.

Lemma cfg_mode_site_past_last_block_witness :
  ∃ r s, analyzeBytecode (enoughFuel "0x600035f4" + 0) "0x600035f4" defaultOptions
           = Some r ∧
    s ∈ sites r ∧ rs_pc s = 4 ∧
    rs_classification s = mkClassification unknown None None None ∧
    risk s = unknownRisk ∧ overallRisk r = Some unknownRisk.
Proof.
  apply (cfg_mode_site_past_last_block "0x600035f4" defaultOptions 0
           [mkOpcode 2 "PUSH1" (Some "0x00") 0 1;
            mkOpcode 3 "CALLDATALOAD" None 1 1;
            mkOpcode 4 "DELEGATECALL" None 6 1]
           (mkOpcode 4 "DELEGATECALL" None 6 1)).
  - done.
  - vm_compute. reflexivity.
  - apply list_elem_of_lookup. by exists 2%nat.
  - reflexivity.
  - simpl. lia.
  - apply (bool_decide_unpack _). vm_compute. reflexivity.
Defined.

(** ** The slot that each mode classifies *)

(** The stack of the linear mode after the instructions [before]. *)
Definition linearStack (before : list Opcode) : Stack :=
  foldl (λ stack instr, Linear.applyInstructionToStack (op instr) (pushData instr) stack)
        [] before.

Lemma makeSite_target i blockId (stack : list StackExpression) :
  targetExpression (makeSite i blockId stack) = default Unknown (reverse stack !! 1%nat).
Proof.
  unfold makeSite. cbn [targetExpression].
  destruct (Z.leb_spec 0 (Z.of_nat (length stack) - 2)) as [Hle|Hlt].
  - rewrite reverse_lookup by lia. do 2 f_equal. lia.
  - rewrite lookup_ge_None_2; [done|]. rewrite length_reverse. lia.
Qed.

Lemma linear_delegatecall pushData (stack : list StackExpression) :
  Linear.applyInstructionToStack "DELEGATECALL" pushData stack
  = take (length stack - 1) stack.
Proof.
  assert (Linear.applyInstructionToStack "DELEGATECALL" pushData stack
          = take (Z.to_nat (Z.max 0 (Z.of_nat (length stack) - 1))) stack) as ->
    by (vm_compute; reflexivity).
  f_equal. lia.
Qed.

Lemma linearSites_elem before i rest stack :
  isDelegatecall i →
  makeSite i "linear"
    (Linear.applyInstructionToStack (op i) (pushData i)
       (foldl (λ stack instr,
                 Linear.applyInstructionToStack (op instr) (pushData instr) stack)
              stack before))
  ∈ linearSites (before ++ i :: rest) stack.
Proof.
  intros Hdc. revert stack. induction before as [|instr before IH]; intros stack; simpl.
  - rewrite bool_decide_eq_true_2 by done. by left.
  - case_bool_decide; [right|]; apply IH.
Qed.

Lemma report_site_of opts bytecode found s0 :
  s0 ∈ found →
  ∃ s, s ∈ sites (buildReport opts bytecode found) ∧
       rs_pc s = site_pc s0 ∧ rs_classification s = classification s0.
Proof.
  intros Hin. unfold buildReport, detectProxyPatterns. cbn [sites]. rewrite map_map.
  eexists. split; [apply list_elem_of_fmap; exists s0; split; [reflexivity|done]|].
  done.
Qed.

(** X24.  The slot that each mode classifies at a DELEGATECALL, for
    every disassembly.  In CFG mode it is the second slot from the top
    of the stack that the tracer returns for the pc.  In linear mode it
    is the THIRD slot from the top of the stack before the instruction
    (the second after the instruction has dropped one slot): with the
    operands gas, address, argsOffset on top, the linear mode
    classifies argsOffset.  A missing slot counts as Unknown. *)
Theorem modes_classify_these_slots bytecode opts extra before i rest :
  decodeBytecode bytecode = Some (before ++ i :: rest) →
  isDelegatecall i →
  let slot :=
    if bool_decide (useCFG opts ≠ Some false)
    then reverse (blockReplay (buildCFG (before ++ i :: rest)) (pc i)) !! 1%nat
    else reverse (linearStack before) !! 2%nat in
  ∃ r s, analyzeBytecode (enoughFuel bytecode + extra) bytecode opts = Some r ∧
    s ∈ sites r ∧ rs_pc s = pc i ∧
    rs_classification s = classifyTarget (default Unknown slot).
Proof.
  intros Hdec Hdc. set (instrs := before ++ i :: rest) in *.
  unfold analyzeBytecode, enoughFuel. rewrite Hdec.
  assert (length (blocks (buildCFG instrs)) < traceFuel instrs + extra)%nat as Hfuel
    by (unfold traceFuel; lia).
  revert Hfuel. generalize (traceFuel instrs + extra)%nat. intros fuel Hfuel. simpl.
  assert (i ∈ instrs) as Hi by (apply elem_of_app; right; by left).
  pose proof (decodeBytecode_sorted _ _ Hdec) as Hsorted.
  case_bool_decide as Hmode.
  - destruct (cfgSites_total fuel (buildCFG instrs) instrs) as (found & Hfound & _);
      [by apply buildCFG_forward|done|].
    rewrite Hfound. simpl.
    destruct (cfgSites_elem _ _ _ _ i (blockReplay (buildCFG instrs) (pc i))
                Hfound Hi Hdc) as [bid Hsite].
    { apply traceStackAtPC_forward; [by apply buildCFG_forward| |done].
      by destruct (buildCFG_edgeInv instrs). }
    destruct (report_site_of opts bytecode found _ Hsite) as (s & Hs & Hpc & Hclass).
    exists (buildReport opts bytecode found), s.
    split; [done|]. split; [done|]. split; [done|].
    rewrite Hclass. change (classification (makeSite i bid ?st))
      with (classifyTarget (targetExpression (makeSite i bid st))).
    by rewrite makeSite_target.
  - pose proof (linearSites_elem before i rest [] Hdc) as Hsite. fold instrs in Hsite.
    destruct (report_site_of opts bytecode _ _ Hsite) as (s & Hs & Hpc & Hclass).
    exists (buildReport opts bytecode (linearSites instrs [])), s.
    split; [done|]. split; [done|]. split; [done|].
    rewrite Hclass. change (classification (makeSite i "linear" ?st))
      with (classifyTarget (targetExpression (makeSite i "linear" st))).
    rewrite makeSite_target. unfold isDelegatecall in Hdc. rewrite Hdc.
    rewrite linear_delegatecall. fold (linearStack before).
    f_equal. f_equal. unfold Stack.
    destruct (decide (3 ≤ length (linearStack before))%nat) as [Hlen|Hlen].
    + rewrite !reverse_lookup by (rewrite ?length_take; unfold Stack in *; lia).
      rewrite lookup_take_lt by (rewrite ?length_take; unfold Stack in *; lia).
      f_equal. rewrite length_take. unfold Stack in *. lia.
    + rewrite !lookup_ge_None_2; [done| |];
        rewrite length_reverse, ?length_take; unfold Stack in *; lia.
Qed.

Lemma modes_classify_these_slots_witness :
  ∃ r s, analyzeBytecode (enoughFuel "0x353333f400" + 0) "0x353333f400" linearOptions
           = Some r ∧
    s ∈ sites r ∧ rs_pc s = 4 ∧
    rs_classification s
    = classifyTarget (default Unknown
        (reverse (linearStack [mkOpcode 1 "CALLDATALOAD" None 1 1;
                               mkOpcode 2 "CALLER" None 0 1;
                               mkOpcode 3 "CALLER" None 0 1]) !! 2%nat)).
Proof.
  apply (modes_classify_these_slots "0x353333f400" linearOptions 0
           [mkOpcode 1 "CALLDATALOAD" None 1 1;
            mkOpcode 2 "CALLER" None 0 1;
            mkOpcode 3 "CALLER" None 0 1]
           (mkOpcode 4 "DELEGATECALL" None 6 1)
           [mkOpcode 5 "STOP" None 0 0]).
  - vm_compute. reflexivity.
  - reflexivity.
Defined.

(** ** The minimal proxy *)

(** The runtime code of an EIP-1167 clone of the implementation at the
    20 bytes [addr], written with the constants of proxyPatterns.ts. *)
Definition minimalProxy (addr : list Z) : string :=
  "0x" +:+ EIP1167_PREFIX +:+ hexJoin (map JsInt addr) +:+ EIP1167_SUFFIX.

Lemma parseBytes_even_app a b :
  Nat.even (String.length a) = true →
  parseBytes (a +:+ b) = parseBytes a ++ parseBytes b.
Proof.
  induction a as [|c|c1 c2 a IH] using string_pair_ind; [done|done|].
  intros Heven. change (String c1 (String c2 a) +:+ b) with (String c1 (String c2 (a +:+ b))).
  cbn [parseBytes]. rewrite IH by done. done.
Qed.

Lemma hexJoin_read bs :
  Forall (λ b, 0 ≤ b ≤ 255) bs →
  parseBytes (hexJoin (map JsInt bs)) = map JsInt bs ∧
  Js.toLowerCase (hexJoin (map JsInt bs)) = hexJoin (map JsInt bs).
Proof.
  induction 1 as [|b bs Hb _ [IH1 IH2]]; [done|]. simpl. split.
  - destruct (hexByte_two_chars b Hb) as (c1 & c2 & -> & Hparse).
    change (String c1 (String c2 EmptyString) +:+ hexJoin (map JsInt bs))
      with (String c1 (String c2 (hexJoin (map JsInt bs)))).
    cbn [parseBytes]. by rewrite Hparse, IH1.
  - rewrite toLowerCase_app, IH2. f_equal.
    pose proof hexByte_lower_checked as H. rewrite Forall_forall in H.
    apply H, elem_of_seqZ. lia.
Qed.

Lemma minimalProxy_bytes addr :
  length addr = 20%nat → Forall (λ b, 0 ≤ b ≤ 255) addr →
  parseBytes (stripPrefix (minimalProxy addr)) =
  map JsInt ([0x36; 0x3d; 0x3d; 0x37; 0x3d; 0x3d; 0x3d; 0x36; 0x3d; 0x73] ++ addr ++
             [0x5a; 0xf4; 0x3d; 0x82; 0x80; 0x3e; 0x90; 0x3d; 0x91; 0x60; 0x2b; 0x57;
              0xfd; 0x5b; 0xf3]).
Proof.
  intros Hlen Haddr.
  change (stripPrefix (minimalProxy addr))
    with (EIP1167_PREFIX +:+ hexJoin (map JsInt addr) +:+ EIP1167_SUFFIX).
  rewrite parseBytes_even_app by done.
  rewrite parseBytes_even_app by (by rewrite hexJoin_length, Hlen).
  destruct (hexJoin_read addr Haddr) as [-> _].
  rewrite !map_app. f_equal.
Qed.

Lemma minimalProxy_shape addr :
  length addr = 20%nat → Forall (λ b, 0 ≤ b ≤ 255) addr →
  detectEip1167 (stripPrefix (minimalProxy addr)) = true.
Proof.
  intros Hlen Haddr. apply detectEip1167_shape. unfold eip1167Shape.
  change (stripPrefix (minimalProxy addr))
    with (EIP1167_PREFIX +:+ hexJoin (map JsInt addr) +:+ EIP1167_SUFFIX).
  rewrite !toLowerCase_app. destruct (hexJoin_read addr Haddr) as [_ ->].
  change (Js.toLowerCase EIP1167_PREFIX) with EIP1167_PREFIX.
  change (Js.toLowerCase EIP1167_SUFFIX) with EIP1167_SUFFIX.
  exists 0%nat, 60%nat. split; [|split].
  - exists EmptyString, (hexJoin (map JsInt addr) +:+ EIP1167_SUFFIX). done.
  - exists (EIP1167_PREFIX +:+ hexJoin (map JsInt addr)), EmptyString. split.
    + by rewrite <- append_assoc.
    + rewrite string_length_app, hexJoin_length, Hlen by done. done.
  - simpl. lia.
Qed.

(** X25.  The report on an EIP-1167 minimal proxy, for every 20-byte
    implementation address and in either mode: one site at pc 32, tagged
    with the pattern EIP-1167, but the hard-coded implementation address
    is not found.  The target is classified as unknown, so the risk of
    the site and of the contract is unknown, not the medium that the
    scanner reserves for a hard-coded EIP-1167 target. *)
Theorem minimal_proxy_target_is_not_found addr opts extra :
  length addr = 20%nat → Forall (λ b, 0 ≤ b ≤ 255) addr →
  analyzeBytecode (enoughFuel (minimalProxy addr) + extra) (minimalProxy addr) opts =
  Some (mkReport (opt_contractAddress opts) (opt_network opts) 1 (Some unknownRisk)
          [mkReportSite "site-32" 32 (mkClassification unknown None None None)
             (Some (mkPattern "EIP-1167" "Minimal proxy clone pattern"))
             unknownRisk []]
          [mkSummary "EIP-1167" 1]).
Proof.
  intros Hlen Haddr.
  pose proof (minimalProxy_bytes addr Hlen Haddr) as Hbytes.
  pose proof (minimalProxy_shape addr Hlen Haddr) as Hshape.
  unfold analyzeBytecode, enoughFuel, decodeBytecode, buildReport, detectProxyPatterns.
  rewrite Hbytes, Hshape. clear Hbytes Hshape Haddr.
  do 21 (destruct addr as [|? addr]; try discriminate Hlen). clear Hlen.
  destruct opts as [a n [[]|]]; vm_compute; reflexivity.
Qed.

Lemma minimal_proxy_target_is_not_found_witness :
  analyzeBytecode (enoughFuel (minimalProxy (replicate 20 0xbe)) + 0)
                  (minimalProxy (replicate 20 0xbe)) defaultOptions =
  Some (mkReport None None 1 (Some unknownRisk)
          [mkReportSite "site-32" 32 (mkClassification unknown None None None)
             (Some (mkPattern "EIP-1167" "Minimal proxy clone pattern"))
             unknownRisk []]
          [mkSummary "EIP-1167" 1]).
Proof.
  apply (minimal_proxy_target_is_not_found (replicate 20 0xbe) defaultOptions 0).
  - reflexivity.
  - apply (bool_decide_unpack _). vm_compute. reflexivity.
Defined.
